(** * Enixnel v0.1: the in-memory entry table and the shell's path handling

    A shallow embedding of [include/fs.h], [kernel/crtfiles.c],
    [kernel/delfiles.c] and of the path helpers and the [sdir] / [cd]
    handlers of [kernel/main.c], followed by the properties of the
    specification that concern them.

    Conventions of the embedding.
    - A [char] is an [ascii]; ['\0'] is [NUL].
    - A [const char*] argument is the list of characters found in memory
      from the pointer onwards.  Code reads it up to the first [NUL]; the end
      of the list stands for the terminator as well, so every list denotes a
      C string, namely [cstr] of it.  A pointer that the code tests against
      [NULL] is an [option].
    - A [char] array of a struct is the list of its cells, updated in place
      with [<[i := c]>].
    - The global [fs_entries] is passed explicitly: a function that mutates
      it takes the table and returns its return code with the new table.
    - [size_t], [uint32_t] and slot indices are [nat]: the code guards every
      addition and subtraction so that no value leaves [0 .. 512], and no
      wrap-around can occur.  Return codes and the [int idx] are [Z]. *)

From Stdlib Require Import ZArith Ascii String Lia.
From stdpp Require Import base list strings.

Open Scope Z_scope.
Open Scope nat_scope.

(** ** Characters and C strings *)

Definition NUL : ascii := Ascii.zero.
Definition SLASH : ascii := "/"%char.
Definition SPACE : ascii := " "%char.
Definition NEWLINE : ascii := "010"%char.

(** A string literal of the source, as the characters before its terminator. *)
Definition lit (s : string) : list ascii := list_ascii_of_string s.

(** [s[i]]; past the end of the list the terminator is read. *)
Definition char_at (s : list ascii) (i : nat) : ascii := nth i s NUL.

(** The C string that starts at [s]: the characters before the first [NUL]. *)
Fixpoint cstr (s : list ascii) : list ascii :=
  match s with
  | [] => []
  | c :: s' => if Ascii.eqb c NUL then [] else c :: cstr s'
  end.

(** [!p] for a pointer. *)
Definition is_null {A : Type} (p : option A) : bool :=
  match p with
  | None => true
  | Some _ => false
  end.

(** ** include/fs.h *)

Definition ENIXNEL_MAX_FS_ENTRIES : nat := 128.
Definition ENIXNEL_MAX_NAME_LEN : nat := 31.
Definition ENIXNEL_MAX_FILE_SIZE : nat := 512.

Record fs_entry : Type := mk_fs_entry {
  used : bool;            (* uint8_t, only ever 0 or 1 *)
  is_dir : bool;          (* uint8_t, 1 = directory, 0 = file *)
  name : list ascii;      (* char name[ENIXNEL_MAX_NAME_LEN + 1] *)
  size : nat;             (* uint32_t *)
  data : list ascii       (* char data[ENIXNEL_MAX_FILE_SIZE] *)
}.

(** A slot of the zero-initialised global array. *)
Definition fs_entry_zero : fs_entry :=
  {| used := false; is_dir := false;
     name := replicate (S ENIXNEL_MAX_NAME_LEN) NUL;
     size := 0;
     data := replicate ENIXNEL_MAX_FILE_SIZE NUL |}.

#[global] Instance fs_entry_inhabited : Inhabited fs_entry := populate fs_entry_zero.

(** [fs_entries] before [kernel_main] runs (static storage is zeroed). *)
Definition fs_entries_zero : list fs_entry :=
  replicate ENIXNEL_MAX_FS_ENTRIES fs_entry_zero.

(** ** kernel/crtfiles.c *)

(** [while ( *s++ ) ++n;] *)
Fixpoint fs_strlen (s : list ascii) : nat :=
  match s with
  | [] => 0
  | c :: s' => if Ascii.eqb c NUL then 0 else S (fs_strlen s')
  end.

(** The comparison loop of [fs_find_index] (and of [k_streq]):
    [while ( *a || *b ) { if ( *a != *b ) return 0; ++a; ++b; } return 1;] *)
Fixpoint str_equal (a b : list ascii) : bool :=
  match a, b with
  | [], [] => true
  | [], cb :: _ => Ascii.eqb cb NUL
  | ca :: _, [] => Ascii.eqb ca NUL
  | ca :: a', cb :: b' =>
      if Ascii.eqb ca NUL && Ascii.eqb cb NUL then true
      else if Ascii.eqb ca cb then str_equal a' b'
      else false
  end.

(** [for (; i < ENIXNEL_MAX_FS_ENTRIES; ++i)] of [fs_find_index], with [n]
    the number of slots still to visit. *)
Fixpoint fs_find_loop (t : list fs_entry) (b : list ascii) (i n : nat) : Z :=
  match n with
  | 0 => (-1)%Z
  | S n' =>
      let e := t !!! i in
      if used e && str_equal (name e) b then Z.of_nat i
      else fs_find_loop t b (S i) n'
  end.

Definition fs_find_index (nm : option (list ascii)) (t : list fs_entry) : Z :=
  match nm with
  | None => (-1)%Z
  | Some b => fs_find_loop t b 0 ENIXNEL_MAX_FS_ENTRIES
  end.

(** [while ( *src ) *dst++ = *src++;  *dst = 0;] with [pos = dst - name]. *)
Fixpoint copy_name (dst : list ascii) (pos : nat) (src : list ascii) : list ascii :=
  match src with
  | [] => <[pos := NUL]> dst
  | c :: src' =>
      if Ascii.eqb c NUL then <[pos := NUL]> dst
      else copy_name (<[pos := c]> dst) (S pos) src'
  end.

(** The slot loop of [fs_alloc_entry]: the first free slot is filled in. *)
Fixpoint fs_alloc_loop (t : list fs_entry) (src : list ascii) (dir : bool)
    (i n : nat) : Z * list fs_entry :=
  match n with
  | 0 => ((-1)%Z, t)
  | S n' =>
      let e := t !!! i in
      if negb (used e) then
        (Z.of_nat i,
         <[i := {| used := true;
                   is_dir := dir;
                   name := copy_name (name e) 0 src;
                   size := 0;
                   data := if dir then data e else <[0 := NUL]> (data e) |}]> t)
      else fs_alloc_loop t src dir (S i) n'
  end.

Definition fs_alloc_entry (nm : option (list ascii)) (dir : bool)
    (t : list fs_entry) : Z * list fs_entry :=
  match nm with
  | None => ((-1)%Z, t)
  | Some src =>
      let len := fs_strlen src in
      if (len =? 0) || (ENIXNEL_MAX_NAME_LEN <? len) then ((-1)%Z, t)
      else if (0 <=? fs_find_index nm t)%Z then ((-1)%Z, t)
      else fs_alloc_loop t src dir 0 ENIXNEL_MAX_FS_ENTRIES
  end.

Definition fs_create_dir (nm : option (list ascii)) (t : list fs_entry)
    : Z * list fs_entry :=
  let '(idx, t') := fs_alloc_entry nm true t in
  (if (0 <=? idx)%Z then 0%Z else (-1)%Z, t').

Definition fs_create_file (nm : option (list ascii)) (t : list fs_entry)
    : Z * list fs_entry :=
  let '(idx, t') := fs_alloc_entry nm false t in
  (if (0 <=? idx)%Z then 0%Z else (-1)%Z, t').

(** [for (i = 0; i < len; ++i) e->data[offset + i] = data[i];] with [n] the
    number of iterations left. *)
Fixpoint write_loop (dst : list ascii) (offset : nat) (src : list ascii)
    (i n : nat) : list ascii :=
  match n with
  | 0 => dst
  | S n' => write_loop (<[offset + i := char_at src i]> dst) offset src (S i) n'
  end.

(** [fs_write_file] from [fs_entry_t* e = &fs_entries[idx];] onwards. *)
Definition fs_write_at (idx : nat) (src : list ascii) (len : nat) (append : Z)
    (t : list fs_entry) : Z * list fs_entry :=
  let e := t !!! idx in
  let offset := if (append =? 0)%Z then 0 else size e in
  if ENIXNEL_MAX_FILE_SIZE <=? offset then ((-1)%Z, t)
  else
    let space := ENIXNEL_MAX_FILE_SIZE - offset in
    let len := if space <? len then space else len in
    let d := write_loop (data e) offset src 0 len in
    let offset := offset + len in
    let d := if offset <? ENIXNEL_MAX_FILE_SIZE then <[offset := NUL]> d
             else <[ENIXNEL_MAX_FILE_SIZE - 1 := NUL]> d in
    (0%Z, <[idx := {| used := used e; is_dir := is_dir e; name := name e;
                      size := offset; data := d |}]> t).

Definition fs_write_file (nm : option (list ascii)) (dat : option (list ascii))
    (len : nat) (append : Z) (t : list fs_entry) : Z * list fs_entry :=
  if is_null nm || (is_null dat && (0 <? len))
  then ((-1)%Z, t)
  else
    let src := default [] dat in
    let idx := fs_find_index nm t in
    if (0 <=? idx)%Z then
      if is_dir (t !!! Z.to_nat idx) then ((-1)%Z, t)
      else fs_write_at (Z.to_nat idx) src len append t
    else
      let '(idx, t) := fs_alloc_entry nm false t in
      if (idx <? 0)%Z then ((-1)%Z, t)
      else
        let e := t !!! Z.to_nat idx in
        let t := <[Z.to_nat idx :=
                     {| used := used e; is_dir := is_dir e; name := name e;
                        size := 0; data := <[0 := NUL]> (data e) |}]> t in
        fs_write_at (Z.to_nat idx) src len append t.

(** [fs_read_file] with both out-pointers given: the return code, and the
    view [(e->data, e->size)] it hands back on success. *)
Definition fs_read_file (nm : option (list ascii)) (t : list fs_entry)
    : Z * option (list ascii * nat) :=
  match nm with
  | None => ((-1)%Z, None)
  | Some _ =>
      let idx := fs_find_index nm t in
      if (idx <? 0)%Z then ((-1)%Z, None)
      else
        let e := t !!! Z.to_nat idx in
        if is_dir e then ((-1)%Z, None)
        else (0%Z, Some (data e, size e))
  end.

(** ** kernel/delfiles.c *)

Definition fs_delete_dir (nm : option (list ascii)) (t : list fs_entry)
    : Z * list fs_entry :=
  let idx := fs_find_index nm t in
  if (idx <? 0)%Z then ((-1)%Z, t)
  else
    let e := t !!! Z.to_nat idx in
    if negb (is_dir e) then ((-1)%Z, t)
    else
      (0%Z, <[Z.to_nat idx := {| used := false; is_dir := false;
                                 name := <[0 := NUL]> (name e);
                                 size := size e; data := data e |}]> t).

Definition fs_delete_file (nm : option (list ascii)) (t : list fs_entry)
    : Z * list fs_entry :=
  let idx := fs_find_index nm t in
  if (idx <? 0)%Z then ((-1)%Z, t)
  else
    let e := t !!! Z.to_nat idx in
    if is_dir e then ((-1)%Z, t)
    else
      (0%Z, <[Z.to_nat idx := {| used := false; is_dir := false;
                                 name := <[0 := NUL]> (name e);
                                 size := size e; data := data e |}]> t).

(** ** kernel/main.c: string and path helpers

    The helpers below are only ever called on arrays, so their pointer
    arguments are plain lists.  An output buffer is represented by the
    characters stored in it before its terminator; the argument [out] is what
    the buffer holds on entry, which is what it still holds when [out_size]
    is 0 and the function returns at once. *)

Definition k_strlen (s : list ascii) : nat := fs_strlen s.

Definition k_streq (a b : list ascii) : bool := str_equal a b.

(** [for (i = 0; i < n; ++i) out[i] = src[start + i];] with [n] the
    iterations left and [out] the characters written so far. *)
Fixpoint copy_n (src : list ascii) (start i n : nat) (out : list ascii)
    : list ascii :=
  match n with
  | 0 => out
  | S n' => copy_n src start (S i) n' (out ++ [char_at src (start + i)])
  end.

(** [for (i = 0; i < n && pos < lim; ++i) out[pos++] = src[i];] with
    [pos = length out]. *)
Fixpoint copy_upto (src : list ascii) (i n lim : nat) (out : list ascii)
    : list ascii :=
  match n with
  | 0 => out
  | S n' =>
      if length out <? lim then copy_upto src (S i) n' lim (out ++ [char_at src i])
      else out
  end.

Definition path_join (dir nm out : list ascii) (out_size : nat) : list ascii :=
  if out_size =? 0 then out
  else
    let dlen := k_strlen dir in
    let nlen := k_strlen nm in
    if dlen =? 0 then
      let nlen := if out_size <=? nlen then out_size - 1 else nlen in
      copy_n nm 0 0 nlen []
    else
      let out := copy_upto dir 0 dlen (out_size - 1) [] in
      let out := if length out <? out_size - 1 then out ++ [SLASH] else out in
      copy_upto nm 0 nlen (out_size - 1) out.

(** [while (k > 0 && path[k - 1] != '/') --k;] *)
Fixpoint last_slash_loop (path : list ascii) (k : nat) : nat :=
  match k with
  | 0 => 0
  | S k' =>
      if Ascii.eqb (char_at path k') SLASH then S k'
      else last_slash_loop path k'
  end.

Definition path_parent (path out : list ascii) (out_size : nat) : list ascii :=
  if out_size =? 0 then out
  else
    let len := k_strlen path in
    if len =? 0 then []
    else
      let last_slash := last_slash_loop path len in
      if last_slash =? 0 then []
      else
        let plen := last_slash - 1 in
        let plen := if out_size <=? plen then out_size - 1 else plen in
        copy_n path 0 0 plen [].

Definition path_basename (path out : list ascii) (out_size : nat) : list ascii :=
  if out_size =? 0 then out
  else
    let len := k_strlen path in
    if len =? 0 then []
    else
      let start := last_slash_loop path len in
      let blen := len - start in
      let blen := if out_size <=? blen then out_size - 1 else blen in
      copy_n path start 0 blen [].

(** [while ( *p == ' ' ) ++p;] *)
Fixpoint skip_spaces (p : list ascii) : list ascii :=
  match p with
  | [] => []
  | c :: p' => if Ascii.eqb c SPACE then skip_spaces p' else p
  end.

(** [while ( *p && *p != ' ' && len + 1 < size ) out[len++] = *p++;] *)
Fixpoint token_loop (p : list ascii) (size : nat) (out : list ascii)
    : list ascii :=
  match p with
  | [] => out
  | c :: p' =>
      if negb (Ascii.eqb c NUL) && negb (Ascii.eqb c SPACE)
         && (length out + 1 <? size)
      then token_loop p' size (out ++ [c])
      else out
  end.

Definition cli_first_arg (args : list ascii) (arg_out_size : nat) : list ascii :=
  token_loop (skip_spaces args) arg_out_size [].

(** ** kernel/main.c: the shell state and the [sdir] and [cd] handlers

    The display driver is outside the model: the console is the sequence of
    characters handed to [console_putc]. *)

Record shell : Type := mk_shell {
  fs_entries : list fs_entry;
  current_dir : list ascii;     (* the string held by char current_dir[32] *)
  console : list ascii
}.

Definition console_putc (c : ascii) (con : list ascii) : list ascii :=
  con ++ [c].

Definition console_write (s : list ascii) (con : list ascii) : list ascii :=
  con ++ cstr s.

Definition console_write_line (s : list ascii) (con : list ascii) : list ascii :=
  console_putc NEWLINE (console_write s con).

Definition fs_init_layout (t : list fs_entry) : list fs_entry :=
  let t := snd (fs_create_dir (Some (lit "bin")) t) in
  let t := snd (fs_create_dir (Some (lit "user")) t) in
  let t := snd (fs_create_file (Some (lit "bin/echo")) t) in
  let t := snd (fs_create_file (Some (lit "bin/crtdir")) t) in
  let t := snd (fs_create_file (Some (lit "bin/cfile")) t) in
  let t := snd (fs_create_file (Some (lit "bin/deldir")) t) in
  let t := snd (fs_create_file (Some (lit "bin/dfile")) t) in
  let t := snd (fs_create_file (Some (lit "bin/sdir")) t) in
  let t := snd (fs_create_file (Some (lit "bin/sfile")) t) in
  let t := snd (fs_create_file (Some (lit "bin/efile")) t) in
  let t := snd (fs_create_file (Some (lit "bin/clr")) t) in
  snd (fs_create_file (Some (lit "bin/cd")) t).

(** The slot loop of [cli_cmd_sdir]; it carries [any] and the console. *)
Fixpoint sdir_loop (t : list fs_entry) (cur : list ascii) (i n : nat)
    (any : bool) (con : list ascii) : bool * list ascii :=
  match n with
  | 0 => (any, con)
  | S n' =>
      let e := t !!! i in
      if negb (used e) then sdir_loop t cur (S i) n' any con
      else
        let parent := path_parent (name e) [] (S ENIXNEL_MAX_NAME_LEN) in
        let base := path_basename (name e) [] (S ENIXNEL_MAX_NAME_LEN) in
        if negb (k_streq parent cur) then sdir_loop t cur (S i) n' any con
        else
          let con :=
            if is_dir e then console_write (lit "[DIR]  ") con
            else console_write (lit "[FILE] ") con in
          sdir_loop t cur (S i) n' true (console_write_line base con)
  end.

Definition cli_cmd_sdir (st : shell) : shell :=
  let '(any, con) :=
    sdir_loop (fs_entries st) (current_dir st) 0 ENIXNEL_MAX_FS_ENTRIES
      false (console st) in
  {| fs_entries := fs_entries st;
     current_dir := current_dir st;
     console := if negb any then console_write_line (lit "sdir: no entries") con
                else con |}.

(** [while (src[i] && i < sizeof(current_dir) - 1) { current_dir[i] = src[i]; ++i; }]
    followed by the terminator; [out] holds the [i] characters copied. *)
Fixpoint set_current_dir (src : list ascii) (out : list ascii) : list ascii :=
  match src with
  | [] => out
  | c :: src' =>
      if negb (Ascii.eqb c NUL) && (length out <? ENIXNEL_MAX_NAME_LEN)
      then set_current_dir src' (out ++ [c])
      else out
  end.

Definition cli_cmd_cd (args : list ascii) (st : shell) : shell :=
  let nm := cli_first_arg args (S ENIXNEL_MAX_NAME_LEN) in
  if Ascii.eqb (char_at nm 0) NUL then
    {| fs_entries := fs_entries st; current_dir := current_dir st;
       console := console_write_line (lit "cd: missing name") (console st) |}
  else if k_streq nm (lit ".") then st
  else if k_streq nm (lit "..") then
    let parent := path_parent (current_dir st) [] (S ENIXNEL_MAX_NAME_LEN) in
    {| fs_entries := fs_entries st;
       current_dir := set_current_dir parent [];
       console := console st |}
  else
    let target := path_join (current_dir st) nm [] (S ENIXNEL_MAX_NAME_LEN) in
    let idx := fs_find_index (Some target) (fs_entries st) in
    if (idx <? 0)%Z
       || negb (used (fs_entries st !!! Z.to_nat idx))
       || negb (is_dir (fs_entries st !!! Z.to_nat idx))
    then
      {| fs_entries := fs_entries st; current_dir := current_dir st;
         console := console_write_line nm
                      (console_write (lit "cd: no such directory: ") (console st)) |}
    else
      {| fs_entries := fs_entries st;
         current_dir := set_current_dir target [];
         console := console st |}.

(** ** kernel/main.c: command parsing, the other handlers, the dispatcher *)

Definition GT : ascii := ">"%char.

(** The token loop of [cli_split_command],
    [while ( *p && *p != ' ' && cmd_len + 1 < size ) cmd_out[cmd_len++] = *p++;]
    with the token and the place where [p] stopped. *)
Fixpoint command_loop (p : list ascii) (size : nat) (out : list ascii)
    : list ascii * list ascii :=
  match p with
  | [] => (out, [])
  | c :: p' =>
      if negb (Ascii.eqb c NUL) && negb (Ascii.eqb c SPACE)
         && (length out + 1 <? size)
      then command_loop p' size (out ++ [c])
      else (out, p)
  end.

(** The command token and [*args_ptr]. *)
Definition cli_split_command (line : list ascii) (cmd_out_size : nat)
    : list ascii * list ascii :=
  let '(cmd, p) := command_loop (skip_spaces line) cmd_out_size [] in
  (cmd, skip_spaces p).

Definition cli_cmd_help (st : shell) : shell :=
  let con := console st in
  let con := console_write_line (lit "Available commands:") con in
  let con := console_write_line (lit "  help              - show this help") con in
  let con := console_write_line (lit "  echo <text>       - print text") con in
  let con := console_write_line (lit "  crtdir <name>     - create directory") con in
  let con := console_write_line (lit "  cfile <name>      - create file") con in
  let con := console_write_line (lit "  deldir <name>     - delete directory") con in
  let con := console_write_line (lit "  dfile <name>      - delete file") con in
  let con := console_write_line
               (lit "  sdir              - list entries in current directory") con in
  let con := console_write_line (lit "  sfile <name>      - show file contents") con in
  let con := console_write_line
               (lit "  efile <expr>      - edit file (efile text > file, efile text >> file)")
               con in
  let con := console_write_line (lit "  clr               - clear the screen") con in
  let con := console_write_line
               (lit "  cd <name>         - change directory (.. for parent)") con in
  {| fs_entries := fs_entries st; current_dir := current_dir st; console := con |}.

Definition cli_cmd_echo (args : list ascii) (st : shell) : shell :=
  {| fs_entries := fs_entries st;
     current_dir := current_dir st;
     console := if Ascii.eqb (char_at args 0) NUL
                then console_putc NEWLINE (console st)
                else console_putc NEWLINE (console_write args (console st)) |}.

Definition cli_cmd_crtdir (args : list ascii) (st : shell) : shell :=
  let nm := cli_first_arg args (S ENIXNEL_MAX_NAME_LEN) in
  if Ascii.eqb (char_at nm 0) NUL then
    {| fs_entries := fs_entries st; current_dir := current_dir st;
       console := console_write_line (lit "crtdir: missing name") (console st) |}
  else
    let full := path_join (current_dir st) nm [] (S ENIXNEL_MAX_NAME_LEN) in
    let '(rc, t) := fs_create_dir (Some full) (fs_entries st) in
    {| fs_entries := t; current_dir := current_dir st;
       console :=
         if (rc =? 0)%Z
         then console_write_line nm
                (console_write (lit "Directory created: ") (console st))
         else console_write_line nm
                (console_write (lit "crtdir: failed to create ") (console st)) |}.

Definition cli_cmd_cfile (args : list ascii) (st : shell) : shell :=
  let nm := cli_first_arg args (S ENIXNEL_MAX_NAME_LEN) in
  if Ascii.eqb (char_at nm 0) NUL then
    {| fs_entries := fs_entries st; current_dir := current_dir st;
       console := console_write_line (lit "cfile: missing name") (console st) |}
  else
    let full := path_join (current_dir st) nm [] (S ENIXNEL_MAX_NAME_LEN) in
    let '(rc, t) := fs_create_file (Some full) (fs_entries st) in
    {| fs_entries := t; current_dir := current_dir st;
       console :=
         if (rc =? 0)%Z
         then console_write_line nm
                (console_write (lit "File created: ") (console st))
         else console_write_line nm
                (console_write (lit "cfile: failed to create ") (console st)) |}.

Definition cli_cmd_deldir (args : list ascii) (st : shell) : shell :=
  let nm := cli_first_arg args (S ENIXNEL_MAX_NAME_LEN) in
  if Ascii.eqb (char_at nm 0) NUL then
    {| fs_entries := fs_entries st; current_dir := current_dir st;
       console := console_write_line (lit "deldir: missing name") (console st) |}
  else
    let full := path_join (current_dir st) nm [] (S ENIXNEL_MAX_NAME_LEN) in
    let '(rc, t) := fs_delete_dir (Some full) (fs_entries st) in
    {| fs_entries := t; current_dir := current_dir st;
       console :=
         if (rc =? 0)%Z
         then console_write_line nm
                (console_write (lit "Directory deleted: ") (console st))
         else console_write_line nm
                (console_write (lit "deldir: failed to delete ") (console st)) |}.

Definition cli_cmd_dfile (args : list ascii) (st : shell) : shell :=
  let nm := cli_first_arg args (S ENIXNEL_MAX_NAME_LEN) in
  if Ascii.eqb (char_at nm 0) NUL then
    {| fs_entries := fs_entries st; current_dir := current_dir st;
       console := console_write_line (lit "dfile: missing name") (console st) |}
  else
    let full := path_join (current_dir st) nm [] (S ENIXNEL_MAX_NAME_LEN) in
    let '(rc, t) := fs_delete_file (Some full) (fs_entries st) in
    {| fs_entries := t; current_dir := current_dir st;
       console :=
         if (rc =? 0)%Z
         then console_write_line nm
                (console_write (lit "File deleted: ") (console st))
         else console_write_line nm
                (console_write (lit "dfile: failed to delete ") (console st)) |}.

(** [for (i = 0; i < len; ++i) console_putc(data[i]);] *)
Fixpoint putc_loop (dat : list ascii) (i n : nat) (con : list ascii) : list ascii :=
  match n with
  | 0 => con
  | S n' => putc_loop dat (S i) n' (console_putc (char_at dat i) con)
  end.

Definition cli_cmd_sfile (args : list ascii) (st : shell) : shell :=
  let nm := cli_first_arg args (S ENIXNEL_MAX_NAME_LEN) in
  if Ascii.eqb (char_at nm 0) NUL then
    {| fs_entries := fs_entries st; current_dir := current_dir st;
       console := console_write_line (lit "sfile: missing name") (console st) |}
  else
    let full := path_join (current_dir st) nm [] (S ENIXNEL_MAX_NAME_LEN) in
    let '(rc, view) := fs_read_file (Some full) (fs_entries st) in
    if negb (rc =? 0)%Z then
      {| fs_entries := fs_entries st; current_dir := current_dir st;
         console := console_write_line nm
                      (console_write (lit "sfile: no such file: ") (console st)) |}
    else
      let '(dat, len) := default ([], 0) view in
      {| fs_entries := fs_entries st; current_dir := current_dir st;
         console := console_putc NEWLINE (putc_loop dat 0 len (console st)) |}.

(** [while ( *p ) { if ( *p == '>' ) { redir = p; break; } ++p; }] with
    [redir] as an index from [text_start]. *)
Fixpoint find_redir (p : list ascii) (i : nat) : option nat :=
  match p with
  | [] => None
  | c :: p' =>
      if Ascii.eqb c NUL then None
      else if Ascii.eqb c GT then Some i
      else find_redir p' (S i)
  end.

(** [while (text_end > text_start && text_end[-1] == ' ') --text_end;] *)
Fixpoint trim_end (text_start : list ascii) (text_end : nat) : nat :=
  match text_end with
  | 0 => 0
  | S k =>
      if Ascii.eqb (char_at text_start k) SPACE then trim_end text_start k
      else S k
  end.

(** [while ( *fname_end && *fname_end != ' ' ) ++fname_end;] as a length. *)
Fixpoint fname_loop (p : list ascii) (i : nat) : nat :=
  match p with
  | [] => i
  | c :: p' =>
      if negb (Ascii.eqb c NUL) && negb (Ascii.eqb c SPACE)
      then fname_loop p' (S i)
      else i
  end.

Definition cli_cmd_efile (args : list ascii) (st : shell) : shell :=
  let text_start := skip_spaces args in
  match find_redir text_start 0 with
  | None =>
      {| fs_entries := fs_entries st; current_dir := current_dir st;
         console := console_write_line (lit "efile: missing '>'") (console st) |}
  | Some redir =>
      let text_end := trim_end text_start redir in
      let text_len :=
        if ENIXNEL_MAX_FILE_SIZE <=? text_end then ENIXNEL_MAX_FILE_SIZE - 1
        else text_end in
      let text := copy_n text_start 0 0 text_len [] in
      let after := drop (S redir) text_start in
      let '(append, after) :=
        if Ascii.eqb (char_at after 0) GT then (1%Z, drop 1 after)
        else (0%Z, after) in
      let after := skip_spaces after in
      if Ascii.eqb (char_at after 0) NUL then
        {| fs_entries := fs_entries st; current_dir := current_dir st;
           console := console_write_line (lit "efile: missing file name")
                        (console st) |}
      else
        let name_len := fname_loop after 0 in
        let name_len :=
          if S ENIXNEL_MAX_NAME_LEN <=? name_len then ENIXNEL_MAX_NAME_LEN
          else name_len in
        let nm := copy_n after 0 0 name_len [] in
        let full := path_join (current_dir st) nm [] (S ENIXNEL_MAX_NAME_LEN) in
        let '(rc, t) :=
          fs_write_file (Some full) (Some text) text_len append (fs_entries st) in
        {| fs_entries := t; current_dir := current_dir st;
           console :=
             if negb (rc =? 0)%Z
             then console_write_line nm
                    (console_write (lit "efile: failed to write ") (console st))
             else console st |}
  end.

(** [console_clear] hands no character to [console_putc]: the record of what
    was printed is left as it is. *)
Definition cli_cmd_clr (st : shell) : shell := st.

Definition cli_handle_line (line : list ascii) (st : shell) : shell :=
  let '(cmd, args) := cli_split_command line 16 in
  if Ascii.eqb (char_at cmd 0) NUL then st
  else if k_streq cmd (lit "help") then cli_cmd_help st
  else if k_streq cmd (lit "echo") then cli_cmd_echo args st
  else if k_streq cmd (lit "crtdir") then cli_cmd_crtdir args st
  else if k_streq cmd (lit "cfile") then cli_cmd_cfile args st
  else if k_streq cmd (lit "deldir") then cli_cmd_deldir args st
  else if k_streq cmd (lit "dfile") then cli_cmd_dfile args st
  else if k_streq cmd (lit "sdir") then cli_cmd_sdir st
  else if k_streq cmd (lit "sfile") then cli_cmd_sfile args st
  else if k_streq cmd (lit "efile") then cli_cmd_efile args st
  else if k_streq cmd (lit "clr") then cli_cmd_clr st
  else if k_streq cmd (lit "cd") then cli_cmd_cd args st
  else
    {| fs_entries := fs_entries st; current_dir := current_dir st;
       console := console_write_line cmd
                    (console_write (lit "Unknown command: ") (console st)) |}.

Definition cli_print_prompt (st : shell) : shell :=
  {| fs_entries := fs_entries st;
     current_dir := current_dir st;
     console :=
       if Ascii.eqb (char_at (current_dir st) 0) NUL
       then console_write (lit "/$ ") (console st)
       else console_write (lit "$ ")
              (console_write (current_dir st)
                 (console_putc "/"%char (console st))) |}.

(** The shell as [kernel_main] hands it to [cli_loop]: the banner printed,
    the layout created, the current directory set to [user]. *)
Definition kernel_main_state : shell :=
  let con := console_write_line (lit "Welcome to Enixnel") [] in
  let con := console_write_line (lit "-------------------") con in
  let con := console_write_line (lit "") con in
  let con := console_write_line (lit "Type 'help' for a list of commands.") con in
  let con := console_write_line (lit "") con in
  {| fs_entries := fs_init_layout fs_entries_zero;
     current_dir := path_join (lit "") (lit "user") [] (S ENIXNEL_MAX_NAME_LEN);
     console := con |}.

(** What [console_read_line] echoes while a line is typed goes to the
    console before the line is handled. *)
Definition shell_echo (echo : list ascii) (st : shell) : shell :=
  {| fs_entries := fs_entries st;
     current_dir := current_dir st;
     console := console st ++ echo |}.

(** The states the shell goes through: after the boot, one prompt and one
    handled line at a time, whatever is typed. *)
Inductive shell_reachable : shell → Prop :=
  | shell_boot : shell_reachable kernel_main_state
  | shell_line st line echo :
      shell_reachable st →
      shell_reachable
        (cli_handle_line line (shell_echo echo (cli_print_prompt st))).

(** ** kernel/main.c: the display and the keyboard

    The text screen is the array of 80 x 25 cells at [VGA_MEMORY] with the
    cursor; a cell is a [uint16_t].  Inside the module the console functions
    are the ones that write the cells. *)

Module Vga.

Definition VGA_WIDTH : nat := 80.
Definition VGA_HEIGHT : nat := 25.

(** [static uint8_t console_color = 0x07], never assigned to. *)
Definition console_color : Z := 0x07.

Definition BACKSPACE : ascii := "008"%char.

(** The value of a [char] as the code compares it: [char] is signed on the
    i386 target the kernel is written for. *)
Definition char_value (c : ascii) : Z :=
  let n := Z.of_N (N_of_ascii c) in
  if (n <? 128)%Z then n else (n - 256)%Z.

(** [(uint16_t)c | ((uint16_t)color << 8)], returned as a [uint16_t]. *)
Definition vga_entry (c : ascii) (color : Z) : Z :=
  (Z.lor (char_value c mod 65536) (Z.shiftl (color mod 65536) 8) mod 65536)%Z.

Record screen : Type := mk_screen {
  VGA_MEMORY : list Z;
  cursor_row : nat;
  cursor_col : nat
}.

(** [for (x = 0; x < VGA_WIDTH; x++) VGA_MEMORY[y * VGA_WIDTH + x] = vga_entry(' ', console_color);]
    with [n] the iterations left. *)
Fixpoint clear_row (mem : list Z) (y x n : nat) : list Z :=
  match n with
  | 0 => mem
  | S n' =>
      clear_row (<[y * VGA_WIDTH + x := vga_entry " " console_color]> mem)
        y (S x) n'
  end.

Fixpoint clear_rows (mem : list Z) (y n : nat) : list Z :=
  match n with
  | 0 => mem
  | S n' => clear_rows (clear_row mem y 0 VGA_WIDTH) (S y) n'
  end.

Definition console_clear (s : screen) : screen :=
  {| VGA_MEMORY := clear_rows (VGA_MEMORY s) 0 VGA_HEIGHT;
     cursor_row := 0;
     cursor_col := 0 |}.

(** [VGA_MEMORY[(y - 1) * VGA_WIDTH + x] = VGA_MEMORY[y * VGA_WIDTH + x]]
    for the [x] left in row [y], in place. *)
Fixpoint move_row (mem : list Z) (y x n : nat) : list Z :=
  match n with
  | 0 => mem
  | S n' =>
      move_row (<[(y - 1) * VGA_WIDTH + x := mem !!! (y * VGA_WIDTH + x)]> mem)
        y (S x) n'
  end.

(** The rows left, [y] upwards; [w] is the bound [VGA_WIDTH] of the inner
    loop. *)
Fixpoint move_rows (mem : list Z) (y n w : nat) : list Z :=
  match n with
  | 0 => mem
  | S n' => move_rows (move_row mem y 0 w) (S y) n' w
  end.

Definition console_scroll (s : screen) : screen :=
  if cursor_row s <? VGA_HEIGHT then s
  else
    let mem := move_rows (VGA_MEMORY s) 1 (VGA_HEIGHT - 1) VGA_WIDTH in
    let mem := clear_row mem (VGA_HEIGHT - 1) 0 VGA_WIDTH in
    {| VGA_MEMORY := mem;
       cursor_row := VGA_HEIGHT - 1;
       cursor_col := if VGA_WIDTH <=? cursor_col s then 0 else cursor_col s |}.

Definition console_putc (c : ascii) (s : screen) : screen :=
  let s :=
    if Ascii.eqb c NEWLINE then
      {| VGA_MEMORY := VGA_MEMORY s;
         cursor_row := S (cursor_row s);
         cursor_col := 0 |}
    else
      let idx := cursor_row s * VGA_WIDTH + cursor_col s in
      let mem := <[idx := vga_entry c console_color]> (VGA_MEMORY s) in
      if VGA_WIDTH <=? S (cursor_col s) then
        {| VGA_MEMORY := mem; cursor_row := S (cursor_row s); cursor_col := 0 |}
      else
        {| VGA_MEMORY := mem;
           cursor_row := cursor_row s;
           cursor_col := S (cursor_col s) |} in
  if VGA_HEIGHT <=? cursor_row s then console_scroll s else s.

(** [while ( *s ) console_putc( *s++ );] *)
Fixpoint console_write (str : list ascii) (s : screen) : screen :=
  match str with
  | [] => s
  | c :: str' =>
      if Ascii.eqb c NUL then s else console_write str' (console_putc c s)
  end.

Definition console_write_line (str : list ascii) (s : screen) : screen :=
  console_putc NEWLINE (console_write str s).

Definition console_backspace (s : screen) : screen :=
  if (cursor_col s =? 0) && (cursor_row s =? 0) then s
  else
    let '(row, col) :=
      if 0 <? cursor_col s then (cursor_row s, cursor_col s - 1)
      else (cursor_row s - 1, VGA_WIDTH - 1) in
    {| VGA_MEMORY :=
         <[row * VGA_WIDTH + col := vga_entry " " console_color]> (VGA_MEMORY s);
       cursor_row := row;
       cursor_col := col |}.

(** [scancode_to_char], with the static [shift_down] as an argument; the
    cases of the [switch] in the order of the source. *)
Definition scancode_to_char (sc : Z) (shift_down : bool) : ascii :=
  (
  if sc =? 0x02 then "1"
  else if sc =? 0x03 then "2"
  else if sc =? 0x04 then "3"
  else if sc =? 0x05 then "4"
  else if sc =? 0x06 then "5"
  else if sc =? 0x07 then "6"
  else if sc =? 0x08 then "7"
  else if sc =? 0x09 then "8"
  else if sc =? 0x0A then "9"
  else if sc =? 0x0B then "0"
  else if sc =? 0x10 then "q"
  else if sc =? 0x11 then "w"
  else if sc =? 0x12 then "e"
  else if sc =? 0x13 then "r"
  else if sc =? 0x14 then "t"
  else if sc =? 0x15 then "y"
  else if sc =? 0x16 then "u"
  else if sc =? 0x17 then "i"
  else if sc =? 0x18 then "o"
  else if sc =? 0x19 then "p"
  else if sc =? 0x1E then "a"
  else if sc =? 0x1F then "s"
  else if sc =? 0x20 then "d"
  else if sc =? 0x21 then "f"
  else if sc =? 0x22 then "g"
  else if sc =? 0x23 then "h"
  else if sc =? 0x24 then "j"
  else if sc =? 0x25 then "k"
  else if sc =? 0x26 then "l"
  else if sc =? 0x2C then "z"
  else if sc =? 0x2D then "x"
  else if sc =? 0x2E then "c"
  else if sc =? 0x2F then "v"
  else if sc =? 0x30 then "b"
  else if sc =? 0x31 then "n"
  else if sc =? 0x32 then "m"
  else if sc =? 0x2B then "\"
  else if sc =? 0x35 then "/"
  else if sc =? 0x34 then (if shift_down then ">" else ".")
  else if sc =? 0x39 then " "
  else if sc =? 0x1C then NEWLINE
  else if sc =? 0x0E then BACKSPACE
  else NUL
  )%Z%char.

(** One turn of the polling loop of [keyboard_read_char]: what [inb(0x64)]
    returns, and what [inb(0x60)] returns if it is read in that turn. *)
Record poll : Type := mk_poll { status : Z; scancode : Z }.

(** The keyboard: the shift state and the turns still to come. *)
Record keyboard : Type := mk_keyboard { shift_down : bool; polls : list poll }.

(** [keyboard_read_char]: the loop runs until a key press gives a character;
    [None] when the turns run out before that. *)
Fixpoint read_char_loop (shift : bool) (ps : list poll)
    : option (ascii * keyboard) :=
  match ps with
  | [] => None
  | p :: ps' =>
      if negb (Z.land (status p) 0x01 =? 0)%Z then
        let sc := scancode p in
        if (sc =? 0x2A)%Z || (sc =? 0x36)%Z then read_char_loop true ps'
        else if (sc =? 0xAA)%Z || (sc =? 0xB6)%Z then read_char_loop false ps'
        else if negb (Z.land sc 0x80 =? 0)%Z then read_char_loop shift ps'
        else
          let ch := scancode_to_char sc shift in
          if negb (Ascii.eqb ch NUL) then Some (ch, mk_keyboard shift ps')
          else read_char_loop shift ps'
      else read_char_loop shift ps'
  end.

Definition keyboard_read_char (k : keyboard) : option (ascii * keyboard) :=
  read_char_loop (shift_down k) (polls k).

(** The loop of [console_read_line], one character read per turn; [n]
    bounds the turns, [len] characters are in [buffer]. *)
Fixpoint read_line_loop (n : nat) (buffer : list ascii) (buflen len : nat)
    (k : keyboard) (s : screen) : option (list ascii * keyboard * screen) :=
  match n with
  | 0 => None
  | S n' =>
      match keyboard_read_char k with
      | None => None
      | Some (c, k) =>
          if Ascii.eqb c NEWLINE then
            Some (<[len := NUL]> buffer, k, console_putc NEWLINE s)
          else if Ascii.eqb c BACKSPACE then
            if 0 <? len
            then read_line_loop n' buffer buflen (len - 1) k (console_backspace s)
            else read_line_loop n' buffer buflen len k s
          else if (len + 1 <? buflen)
                  && (32 <=? char_value c)%Z && (char_value c <? 127)%Z
          then read_line_loop n' (<[len := c]> buffer) buflen (S len) k
                 (console_putc c s)
          else read_line_loop n' buffer buflen len k s
      end
  end.

(** [console_read_line]: every character read takes a turn of the keyboard,
    so the turns to come bound the characters read. *)
Definition console_read_line (buffer : list ascii) (buflen : nat)
    (k : keyboard) (s : screen) : option (list ascii * keyboard * screen) :=
  if buflen =? 0 then Some (buffer, k, s)
  else read_line_loop (length (polls k)) buffer buflen 0 k s.

End Vga.

(** ** Notions of the specification *)

(** The name an entry goes by: the C string held by its [name] array. *)
Definition entry_name (e : fs_entry) : list ascii := cstr (name e).

(** The content of a file: the first [size] bytes of its [data] array, which
    is what [fs_read_file] hands out and [sfile] prints. *)
Definition content (e : fs_entry) : list ascii := take (size e) (data e).

(** Shape of a slot: the two arrays have their declared sizes, the name is
    terminated inside its array and the length does not exceed the capacity. *)
Definition entry_wf (e : fs_entry) : Prop :=
  length (name e) = S ENIXNEL_MAX_NAME_LEN
  ∧ fs_strlen (name e) ≤ ENIXNEL_MAX_NAME_LEN
  ∧ length (data e) = ENIXNEL_MAX_FILE_SIZE
  ∧ size e ≤ ENIXNEL_MAX_FILE_SIZE.

Definition fs_wf (t : list fs_entry) : Prop :=
  length t = ENIXNEL_MAX_FS_ENTRIES ∧ Forall entry_wf t.

(** The same, as a test that can be run on a given table. *)
Definition entry_wfb (e : fs_entry) : bool :=
  (length (name e) =? S ENIXNEL_MAX_NAME_LEN)
  && (fs_strlen (name e) <=? ENIXNEL_MAX_NAME_LEN)
  && (length (data e) =? ENIXNEL_MAX_FILE_SIZE)
  && (size e <=? ENIXNEL_MAX_FILE_SIZE).

Definition fs_wfb (t : list fs_entry) : bool :=
  (length t =? ENIXNEL_MAX_FS_ENTRIES) && forallb entry_wfb t.

(** No two used entries share a name. *)
Definition unique_names (t : list fs_entry) : Prop :=
  ∀ i j ei ej,
    t !! i = Some ei → t !! j = Some ej →
    used ei = true → used ej = true →
    entry_name ei = entry_name ej → i = j.

(** Some used entry goes by the name [s]. *)
Definition name_present (s : list ascii) (t : list fs_entry) : Prop :=
  ∃ i e, t !! i = Some e ∧ used e = true ∧ entry_name e = s.

(** Some used entry goes by the name [s] and is a directory. *)
Definition dir_present (s : list ascii) (t : list fs_entry) : Prop :=
  ∃ i e, t !! i = Some e ∧ used e = true ∧ is_dir e = true ∧ entry_name e = s.

(** Some used entry goes by the name [s] and is a file. *)
Definition file_present (s : list ascii) (t : list fs_entry) : Prop :=
  ∃ i e, t !! i = Some e ∧ used e = true ∧ is_dir e = false ∧ entry_name e = s.

(** What a caller of [fs_read_file] sees of the file [nm]: the [len] bytes
    at the pointer handed back, when the call succeeds. *)
Definition file_content (nm : list ascii) (t : list fs_entry)
    : option (list ascii) :=
  match fs_read_file (Some nm) t with
  | (_, Some (d, n)) => Some (take n d)
  | (_, None) => None
  end.

(** What holds of every slot beyond its shape, once the table is in use: a
    used entry has a name, a directory has no content, and the bytes of a
    file are followed by a terminator inside the array (in its last cell
    when the file is full). *)
Definition entry_sound (e : fs_entry) : Prop :=
  used e = true →
  0 < length (entry_name e)
  ∧ (is_dir e = true → size e = 0)
  ∧ (is_dir e = false →
       char_at (data e) (size e `min` (ENIXNEL_MAX_FILE_SIZE - 1)) = NUL).

(** Number of entries that exist. *)
Definition used_count (t : list fs_entry) : nat :=
  length (filter (λ e, used e = true) t).

(** The operations that act on the table, and the states they reach from
    the layout set up at boot. *)
Inductive fs_op : Type :=
  | Create_dir (nm : option (list ascii))
  | Create_file (nm : option (list ascii))
  | Delete_dir (nm : option (list ascii))
  | Delete_file (nm : option (list ascii))
  | Write_file (nm dat : option (list ascii)) (len : nat) (append : Z).

Definition fs_step (op : fs_op) (t : list fs_entry) : Z * list fs_entry :=
  match op with
  | Create_dir nm => fs_create_dir nm t
  | Create_file nm => fs_create_file nm t
  | Delete_dir nm => fs_delete_dir nm t
  | Delete_file nm => fs_delete_file nm t
  | Write_file nm dat len append => fs_write_file nm dat len append t
  end.

Inductive reachable : list fs_entry → Prop :=
  | reachable_init : reachable (fs_init_layout fs_entries_zero)
  | reachable_step t op : reachable t → reachable (snd (fs_step op t)).

(** The derived parent and the basename of a full name, as the
    specification words them: everything before the last separator (nothing
    when there is none), and everything after it. *)
Fixpoint split_last_slash (s : list ascii) : option (list ascii) * list ascii :=
  match s with
  | [] => (None, [])
  | c :: s' =>
      match split_last_slash s' with
      | (Some p, b) => (Some (c :: p), b)
      | (None, b) => if Ascii.eqb c SLASH then (Some [], b) else (None, c :: b)
      end
  end.

Definition derived_parent (s : list ascii) : list ascii :=
  default [] (fst (split_last_slash s)).

Definition derived_basename (s : list ascii) : list ascii :=
  snd (split_last_slash s).

(** The entries [sdir] is to show under the prefix [cur], in slot order, and
    the line printed for each. *)
Definition listed (cur : list ascii) (e : fs_entry) : bool :=
  used e && bool_decide (derived_parent (entry_name e) = cstr cur).

Definition listing_line (e : fs_entry) : list ascii :=
  (if is_dir e then lit "[DIR]  " else lit "[FILE] ")
  ++ derived_basename (entry_name e) ++ [NEWLINE].

Definition listing (cur : list ascii) (t : list fs_entry) : list fs_entry :=
  List.filter (listed cur) t.

(** What [sdir] is to print for the prefix [cur]. *)
Definition listing_output (cur : list ascii) (t : list fs_entry) : list ascii :=
  match listing cur t with
  | [] => lit "sdir: no entries" ++ [NEWLINE]
  | l => flat_map listing_line l
  end.

(** What [fs_alloc_entry] stores in the free slot [e] it picks. *)
Definition alloc_fill (e : fs_entry) (src : list ascii) (dir : bool) : fs_entry :=
  {| used := true;
     is_dir := dir;
     name := copy_name (name e) 0 src;
     size := 0;
     data := if dir then data e else <[0 := NUL]> (data e) |}.

(** What a successful delete leaves in the slot [e] it clears. *)
Definition delete_clear (e : fs_entry) : fs_entry :=
  {| used := false; is_dir := false; name := <[0 := NUL]> (name e);
     size := size e; data := data e |}.

(** What [fs_write_file] does to the slot [e] it has just allocated. *)
Definition reset_file (e : fs_entry) : fs_entry :=
  {| used := used e; is_dir := is_dir e; name := name e;
     size := 0; data := <[0 := NUL]> (data e) |}.

(** The invariant of the table: its shape, and uniqueness of names. *)
Definition fs_inv (t : list fs_entry) : Prop := fs_wf t ∧ unique_names t.

(** What every handler but [cd] respects: the current directory stays, and
    the console only grows. *)
Definition shell_frame (st st' : shell) : Prop :=
  current_dir st' = current_dir st
  ∧ ∃ out, console st' = console st ++ out.

(** The table after a handler is the table before it, or one operation
    away from it. *)
Definition table_step (t t' : list fs_entry) : Prop :=
  t' = t ∨ ∃ op, t' = snd (fs_step op t).

(** The commands that act on the table. *)
Definition table_commands : list (list ascii) :=
  [lit "crtdir"; lit "cfile"; lit "deldir"; lit "dfile"; lit "efile"].

(** The command words [cli_handle_line] compares the token with. *)
Definition known_commands : list (list ascii) :=
  [lit "help"; lit "echo"; lit "crtdir"; lit "cfile"; lit "deldir";
   lit "dfile"; lit "sdir"; lit "sfile"; lit "efile"; lit "clr"; lit "cd"].

(** What the dispatcher does with a token that is no command word. *)
Definition unknown_command (cmd : list ascii) (st : shell) : shell :=
  {| fs_entries := fs_entries st;
     current_dir := current_dir st;
     console := console st ++ lit "Unknown command: " ++ cmd ++ [NEWLINE] |}.

(** An argument string of [efile]: blanks, the text, blanks, [>] or [>>],
    blanks, the file name, and what follows the name. *)
Definition efile_args (a : nat) (text : list ascii) (b : nat) (ap : bool)
    (c : nat) (nm rest : list ascii) : list ascii :=
  replicate a SPACE ++ text ++ replicate b SPACE
  ++ GT :: (if ap then [GT] else []) ++ replicate c SPACE ++ nm ++ rest.

(** What [efile] comes to once its arguments are parsed as a text, a mode
    and a file name: the text is cut to 511 bytes and the name to 31
    characters, the name is joined to the current directory, one
    [fs_write_file] call is made, and only its failure is reported. *)
Definition efile_outcome (text : list ascii) (ap : bool) (nm : list ascii)
    (st : shell) : shell :=
  let text' := take (ENIXNEL_MAX_FILE_SIZE - 1) text in
  let nm' := take ENIXNEL_MAX_NAME_LEN nm in
  let full := path_join (current_dir st) nm' [] (S ENIXNEL_MAX_NAME_LEN) in
  let w := fs_write_file (Some full) (Some text') (length text')
             (if ap then 1%Z else 0%Z) (fs_entries st) in
  {| fs_entries := snd w;
     current_dir := current_dir st;
     console :=
       if (fst w =? 0)%Z then console st
       else console st ++ lit "efile: failed to write " ++ nm' ++ [NEWLINE] |}.

(** The cell [console_clear], [console_scroll] and [console_backspace]
    write: a blank in the console colour. *)
Definition blank_cell : Z := Vga.vga_entry " " Vga.console_color.

(** The screen as the console functions keep it: 80 x 25 cells, and the
    cursor on one of them. *)
Definition screen_ok (s : Vga.screen) : Prop :=
  length (Vga.VGA_MEMORY s) = Vga.VGA_HEIGHT * Vga.VGA_WIDTH
  ∧ Vga.cursor_row s < Vga.VGA_HEIGHT
  ∧ Vga.cursor_col s < Vga.VGA_WIDTH.

(** The characters a line can hold: [c >= 32 && c < 127]. *)
Definition printable (c : ascii) : Prop :=
  (32 ≤ Vga.char_value c < 127)%Z.

(** A turn of the keyboard in which the Enter key is pressed. *)
Definition enter_press (p : Vga.poll) : Prop :=
  Z.land (Vga.status p) 1 ≠ 0%Z ∧ Vga.scancode p = 0x1C%Z.

(** ** States used as examples *)

(** The table as [kernel_main] leaves it before the first prompt. *)
Definition boot_table : list fs_entry := fs_init_layout fs_entries_zero.

(** The boot layout with [user/a] (a file), [user/b] (a directory) and
    [user/b/c] added. *)
Definition example_table : list fs_entry :=
  let t := snd (fs_create_file (Some (lit "user/a")) boot_table) in
  let t := snd (fs_create_dir (Some (lit "user/b")) t) in
  snd (fs_create_file (Some (lit "user/b/c")) t).

(** The boot layout filled up with the files [faa], [fab], ... until no slot
    is left. *)
Definition filler_name (n : nat) : list ascii :=
  lit "f" ++ [ascii_of_nat (97 + n / 16); ascii_of_nat (97 + n mod 16)].

Definition full_table : list fs_entry :=
  fold_left (λ t n, snd (fs_create_file (Some (filler_name n)) t))
    (seq 0 116) boot_table.

(** * Properties *)

#[local] Arguments Ascii.eqb : simpl never.
#[local] Arguments ENIXNEL_MAX_FS_ENTRIES : simpl never.
#[local] Arguments ENIXNEL_MAX_NAME_LEN : simpl never.
#[local] Arguments ENIXNEL_MAX_FILE_SIZE : simpl never.

(** ** C strings *)

Lemma eqb_NUL_true c : Ascii.eqb c NUL = true ↔ c = NUL.
Proof. apply Ascii.eqb_eq. Qed.

Lemma cstr_no_NUL s : NUL ∉ cstr s.
Proof.
  induction s as [|c s IH]; simpl; [apply not_elem_of_nil|].
  destruct (Ascii.eqb_spec c NUL) as [->|Hc]; [apply not_elem_of_nil|].
  rewrite not_elem_of_cons. split; [congruence|exact IH].
Qed.

Lemma cstr_id s : NUL ∉ s → cstr s = s.
Proof.
  induction s as [|c s IH]; simpl; [done|].
  rewrite not_elem_of_cons. intros [Hc Hs].
  destruct (Ascii.eqb_spec c NUL) as [->|_]; [done|]. by rewrite IH.
Qed.

Lemma cstr_idemp s : cstr (cstr s) = cstr s.
Proof. apply cstr_id, cstr_no_NUL. Qed.

Lemma cstr_app_NUL s r : NUL ∉ s → cstr (s ++ NUL :: r) = s.
Proof.
  induction s as [|c s IH]; simpl; [done|].
  rewrite not_elem_of_cons. intros [Hc Hs].
  destruct (Ascii.eqb_spec c NUL) as [->|_]; [done|]. by rewrite IH.
Qed.

Lemma fs_strlen_cstr s : fs_strlen s = length (cstr s).
Proof.
  induction s as [|c s IH]; simpl; [done|].
  destruct (Ascii.eqb c NUL); simpl; [done|]. by rewrite IH.
Qed.

Lemma cstr_prefix s : ∃ r, s = cstr s ++ r ∧ (r = [] ∨ ∃ r', r = NUL :: r').
Proof.
  induction s as [|c s (r & Hr & Hcase)]; simpl.
  - exists []. split; [done|by left].
  - destruct (Ascii.eqb_spec c NUL) as [->|_].
    + exists (NUL :: s). split; [done|]. right. by exists s.
    + exists r. split; [simpl; by rewrite <- Hr|done].
Qed.

Lemma char_at_cstr s i : i < length (cstr s) → char_at s i = char_at (cstr s) i.
Proof.
  destruct (cstr_prefix s) as (r & Hr & _). intros Hi.
  rewrite Hr at 1. unfold char_at. by rewrite app_nth1.
Qed.

Lemma str_equal_spec a b : str_equal a b = true ↔ cstr a = cstr b.
Proof.
  revert b. induction a as [|ca a IH]; intros [|cb b]; simpl.
  - done.
  - destruct (Ascii.eqb_spec cb NUL); split; congruence.
  - destruct (Ascii.eqb_spec ca NUL); split; congruence.
  - destruct (Ascii.eqb_spec ca NUL) as [->|Ha], (Ascii.eqb_spec cb NUL) as [->|Hb];
      simpl; [done| | |].
    + destruct (Ascii.eqb_spec NUL cb); [congruence|split; congruence].
    + destruct (Ascii.eqb_spec ca NUL); [congruence|split; congruence].
    + destruct (Ascii.eqb_spec ca cb) as [->|Hab].
      * rewrite IH. split; [congruence|]. by intros [=].
      * split; [done|]. intros [=]. congruence.
Qed.

Lemma str_equal_false a b : str_equal a b = false ↔ cstr a ≠ cstr b.
Proof. rewrite <- str_equal_spec. by destruct (str_equal a b). Qed.

Lemma cstr_insert_0_NUL (l : list ascii) : cstr (<[0 := NUL]> l) = [].
Proof. by destruct l. Qed.

(** ** The slot loops *)

Lemma fs_find_loop_cases t b i n :
  (fs_find_loop t b i n = (-1)%Z
   ∧ ∀ j, i ≤ j < i + n → used (t !!! j) && str_equal (name (t !!! j)) b = false)
  ∨ (∃ k, fs_find_loop t b i n = Z.of_nat k
        ∧ i ≤ k < i + n
        ∧ used (t !!! k) && str_equal (name (t !!! k)) b = true
        ∧ ∀ j, i ≤ j < k → used (t !!! j) && str_equal (name (t !!! j)) b = false).
Proof.
  revert i. induction n as [|n IH]; intros i; simpl.
  - left. split; [done|]. intros j Hj. lia.
  - destruct (used (t !!! i) && str_equal (name (t !!! i)) b) eqn:Hi.
    + right. exists i. repeat split; [lia..|done|]. intros j Hj. lia.
    + destruct (IH (S i)) as [[Hr Hall]|(k & Hr & Hk & Hm & Hall)].
      * left. split; [done|]. intros j Hj.
        destruct (decide (j = i)) as [->|]; [done|]. apply Hall. lia.
      * right. exists k. repeat split; [done|lia..|done|]. intros j Hj.
        destruct (decide (j = i)) as [->|]; [done|]. apply Hall. lia.
Qed.

Lemma fs_alloc_loop_cases t src dir i n :
  (fs_alloc_loop t src dir i n = ((-1)%Z, t)
   ∧ ∀ j, i ≤ j < i + n → used (t !!! j) = true)
  ∨ (∃ k, fs_alloc_loop t src dir i n
          = (Z.of_nat k, <[k := alloc_fill (t !!! k) src dir]> t)
        ∧ i ≤ k < i + n
        ∧ used (t !!! k) = false
        ∧ ∀ j, i ≤ j < k → used (t !!! j) = true).
Proof.
  revert i. induction n as [|n IH]; intros i; simpl.
  - left. split; [done|]. intros j Hj. lia.
  - destruct (used (t !!! i)) eqn:Hi; simpl.
    + destruct (IH (S i)) as [[Hr Hall]|(k & Hr & Hk & Hm & Hall)].
      * left. split; [done|]. intros j Hj.
        destruct (decide (j = i)) as [->|]; [done|]. apply Hall. lia.
      * right. exists k. repeat split; [done|lia..|done|]. intros j Hj.
        destruct (decide (j = i)) as [->|]; [done|]. apply Hall. lia.
    + right. exists i. repeat split; [lia..|done|]. intros j Hj. lia.
Qed.

(** The lookup, read on a table of the declared size. *)
Lemma fs_find_index_cases t b :
  length t = ENIXNEL_MAX_FS_ENTRIES →
  (fs_find_index (Some b) t = (-1)%Z ∧ ¬ name_present (cstr b) t)
  ∨ (∃ k e, fs_find_index (Some b) t = Z.of_nat k
          ∧ t !! k = Some e ∧ used e = true ∧ entry_name e = cstr b
          ∧ ∀ j ej, j < k → t !! j = Some ej →
                    ¬ (used ej = true ∧ entry_name ej = cstr b)).
Proof.
  intros Hlen. unfold fs_find_index.
  destruct (fs_find_loop_cases t b 0 ENIXNEL_MAX_FS_ENTRIES)
    as [[Hr Hall]|(k & Hr & Hk & Hm & Hall)].
  - left. split; [done|]. intros (i & e & Hi & Hu & Hn).
    pose proof (lookup_lt_Some _ _ _ Hi) as Hlt.
    specialize (Hall i ltac:(lia)).
    rewrite (list_lookup_total_correct _ _ _ Hi), Hu in Hall. simpl in Hall.
    apply str_equal_false in Hall. by apply Hall.
  - right. exists k, (t !!! k).
    apply andb_true_iff in Hm as [Hu Hn]. apply str_equal_spec in Hn.
    repeat split; [done| |done|done|].
    + apply list_lookup_lookup_total_lt. lia.
    + intros j ej Hj Hej [Huj Hnj]. specialize (Hall j ltac:(lia)).
      rewrite (list_lookup_total_correct _ _ _ Hej), Huj in Hall. simpl in Hall.
      apply str_equal_false in Hall. by apply Hall.
Qed.

Lemma fs_find_index_range nm t :
  (-1 ≤ fs_find_index nm t < Z.of_nat ENIXNEL_MAX_FS_ENTRIES)%Z.
Proof.
  destruct nm as [b|]; unfold fs_find_index; [|unfold ENIXNEL_MAX_FS_ENTRIES; lia].
  destruct (fs_find_loop_cases t b 0 ENIXNEL_MAX_FS_ENTRIES)
    as [[-> _]|(k & -> & Hk & _)]; lia.
Qed.

(** ** Copying a name into a slot *)

Lemma length_copy_name src : ∀ dst pos, length (copy_name dst pos src) = length dst.
Proof.
  induction src as [|c src IH]; intros dst pos; simpl.
  - apply length_insert.
  - destruct (Ascii.eqb c NUL); [apply length_insert|].
    by rewrite IH, length_insert.
Qed.

Lemma copy_name_app src : ∀ pre dst,
  fs_strlen src < length dst →
  copy_name (pre ++ dst) (length pre) src
  = pre ++ cstr src ++ NUL :: drop (S (fs_strlen src)) dst.
Proof.
  induction src as [|c src IH]; intros pre dst Hlen; simpl in *.
  - destruct dst as [|d dst]; [simpl in Hlen; lia|].
    rewrite <- (Nat.add_0_r (length pre)), insert_app_r. simpl. by rewrite drop_0.
  - destruct (Ascii.eqb_spec c NUL) as [->|Hc].
    + destruct dst as [|d dst]; [simpl in Hlen; lia|].
      rewrite <- (Nat.add_0_r (length pre)), insert_app_r. simpl. by rewrite drop_0.
    + destruct dst as [|d dst]; [simpl in Hlen; lia|]. simpl in Hlen.
      rewrite <- (Nat.add_0_r (length pre)) at 1. rewrite insert_app_r. simpl.
      replace (pre ++ c :: dst) with ((pre ++ [c]) ++ dst) by by rewrite <- app_assoc.
      replace (S (length pre)) with (length (pre ++ [c])) by (rewrite length_app; simpl; lia).
      rewrite IH by lia. by rewrite <- app_assoc.
Qed.

Lemma cstr_copy_name src dst :
  fs_strlen src < length dst → cstr (copy_name dst 0 src) = cstr src.
Proof.
  intros Hlen. pose proof (copy_name_app src [] dst Hlen) as Hc.
  simpl in Hc. rewrite Hc. apply cstr_app_NUL, cstr_no_NUL.
Qed.

(** ** Shape of the table *)

Lemma entry_wfb_correct e : entry_wfb e = true → entry_wf e.
Proof.
  unfold entry_wfb, entry_wf. rewrite !andb_true_iff.
  rewrite !Nat.eqb_eq, !Nat.leb_le. tauto.
Qed.

Lemma fs_wfb_correct t : fs_wfb t = true → fs_wf t.
Proof.
  unfold fs_wfb, fs_wf. rewrite andb_true_iff, Nat.eqb_eq, forallb_forall.
  intros [Hlen Hall]. split; [done|]. apply Forall_forall. intros e He.
  apply entry_wfb_correct, Hall. by apply list_elem_of_In.
Qed.

Lemma entry_wf_zero : entry_wf fs_entry_zero.
Proof. apply entry_wfb_correct. by vm_compute. Qed.

Lemma fs_wf_lookup t i e : fs_wf t → t !! i = Some e → entry_wf e.
Proof. intros [_ Hall] Hi. eapply Forall_lookup_1; eauto. Qed.

Lemma fs_wf_lookup_total t i : fs_wf t → entry_wf (t !!! i).
Proof.
  intros Hwf. rewrite list_lookup_total_alt.
  destruct (t !! i) as [e|] eqn:Hi; simpl; [by eapply fs_wf_lookup|].
  apply entry_wf_zero.
Qed.

Lemma fs_wf_insert t i e : fs_wf t → entry_wf e → fs_wf (<[i := e]> t).
Proof.
  intros [Hlen Hall] He. split; [by rewrite length_insert|].
  destruct (decide (i < length t)) as [Hi|Hi].
  - by apply Forall_insert.
  - rewrite list_insert_ge by lia. done.
Qed.

Lemma entry_wf_alloc_fill e src dir :
  entry_wf e → fs_strlen src ≤ ENIXNEL_MAX_NAME_LEN → entry_wf (alloc_fill e src dir).
Proof.
  intros (Hn & Hs & Hd & Hz) Hsrc. unfold entry_wf, alloc_fill; simpl.
  rewrite length_copy_name. repeat split; [done| | |lia].
  - rewrite fs_strlen_cstr, cstr_copy_name by lia. by rewrite <- fs_strlen_cstr.
  - destruct dir; [done|]. by rewrite length_insert.
Qed.

Lemma entry_wf_delete_clear e : entry_wf e → entry_wf (delete_clear e).
Proof.
  intros (Hn & Hs & Hd & Hz). unfold entry_wf, delete_clear; simpl.
  rewrite length_insert, fs_strlen_cstr, cstr_insert_0_NUL. simpl.
  repeat split; [done|lia|done|done].
Qed.

Lemma length_write_loop src offset : ∀ n i dst,
  length (write_loop dst offset src i n) = length dst.
Proof.
  induction n as [|n IH]; intros i dst; simpl; [done|].
  by rewrite IH, length_insert.
Qed.

(** ** What each operation does to the table *)

Lemma fs_alloc_entry_cases nm dir t :
  fs_alloc_entry nm dir t = ((-1)%Z, t)
  ∨ (∃ src k,
        nm = Some src
        ∧ 0 < fs_strlen src ≤ ENIXNEL_MAX_NAME_LEN
        ∧ fs_find_index nm t = (-1)%Z
        ∧ k < ENIXNEL_MAX_FS_ENTRIES
        ∧ used (t !!! k) = false
        ∧ (∀ j, j < k → used (t !!! j) = true)
        ∧ fs_alloc_entry nm dir t
          = (Z.of_nat k, <[k := alloc_fill (t !!! k) src dir]> t)).
Proof.
  destruct nm as [src|]; [|by left]. unfold fs_alloc_entry.
  destruct (fs_strlen src =? 0) eqn:H0; [by left|].
  destruct (ENIXNEL_MAX_NAME_LEN <? fs_strlen src) eqn:H1; [by left|]. cbn [orb].
  apply Nat.eqb_neq in H0. apply Nat.ltb_ge in H1.
  destruct (0 <=? fs_find_index (Some src) t)%Z eqn:Hf; [by left|].
  apply Z.leb_gt in Hf. pose proof (fs_find_index_range (Some src) t) as Hr.
  destruct (fs_alloc_loop_cases t src dir 0 ENIXNEL_MAX_FS_ENTRIES)
    as [[Hl _]|(k & Hl & Hk & Hu & Hall)]; [by left|].
  right. exists src, k. repeat split; try done; try lia.
  intros j Hj. apply Hall. lia.
Qed.

Lemma fs_alloc_entry_fail nm dir t :
  (fst (fs_alloc_entry nm dir t) < 0)%Z → snd (fs_alloc_entry nm dir t) = t.
Proof.
  destruct (fs_alloc_entry_cases nm dir t) as [->|(src & k & _ & _ & _ & _ & _ & _ & ->)];
    simpl; [done|lia].
Qed.

Lemma fs_delete_dir_cases nm t :
  fs_delete_dir nm t = ((-1)%Z, t)
  ∨ (∃ k, fs_find_index nm t = Z.of_nat k ∧ is_dir (t !!! k) = true
        ∧ fs_delete_dir nm t = (0%Z, <[k := delete_clear (t !!! k)]> t)).
Proof.
  unfold fs_delete_dir. destruct (fs_find_index nm t <? 0)%Z eqn:Hf; [by left|].
  apply Z.ltb_ge in Hf.
  destruct (is_dir (t !!! Z.to_nat (fs_find_index nm t))) eqn:Hd; simpl; [|by left].
  right. exists (Z.to_nat (fs_find_index nm t)).
  rewrite Z2Nat.id by done. done.
Qed.

Lemma fs_delete_file_cases nm t :
  fs_delete_file nm t = ((-1)%Z, t)
  ∨ (∃ k, fs_find_index nm t = Z.of_nat k ∧ is_dir (t !!! k) = false
        ∧ fs_delete_file nm t = (0%Z, <[k := delete_clear (t !!! k)]> t)).
Proof.
  unfold fs_delete_file. destruct (fs_find_index nm t <? 0)%Z eqn:Hf; [by left|].
  apply Z.ltb_ge in Hf.
  destruct (is_dir (t !!! Z.to_nat (fs_find_index nm t))) eqn:Hd; simpl; [by left|].
  right. exists (Z.to_nat (fs_find_index nm t)).
  rewrite Z2Nat.id by done. done.
Qed.

Lemma fs_write_at_cases idx src len append t :
  (fs_write_at idx src len append t = ((-1)%Z, t)
   ∧ append ≠ 0%Z ∧ ENIXNEL_MAX_FILE_SIZE ≤ size (t !!! idx))
  ∨ (∃ e', fs_write_at idx src len append t = (0%Z, <[idx := e']> t)
         ∧ used e' = used (t !!! idx)
         ∧ is_dir e' = is_dir (t !!! idx)
         ∧ name e' = name (t !!! idx)
         ∧ (entry_wf (t !!! idx) → entry_wf e')).
Proof.
  unfold fs_write_at.
  set (offset := if (append =? 0)%Z then 0 else size (t !!! idx)).
  destruct (ENIXNEL_MAX_FILE_SIZE <=? offset) eqn:Ho.
  { left. apply Nat.leb_le in Ho. subst offset. split; [done|].
    destruct (Z.eqb_spec append 0); [unfold ENIXNEL_MAX_FILE_SIZE in Ho; lia|done]. }
  apply Nat.leb_gt in Ho. right. eexists. split; [reflexivity|]. simpl.
  do 3 (split; [done|]). intros (Hn & Hs & Hd & Hz). unfold entry_wf; simpl.
  split; [done|]. split; [done|]. split.
  - destruct (_ <? _); by rewrite length_insert, length_write_loop.
  - destruct (ENIXNEL_MAX_FILE_SIZE - offset <? len) eqn:Hl; [lia|].
    apply Nat.ltb_ge in Hl. lia.
Qed.

Lemma fs_write_file_cases nm dat len append t :
  fs_write_file nm dat len append t = ((-1)%Z, t)
  ∨ (∃ k, fs_find_index nm t = Z.of_nat k
        ∧ is_dir (t !!! k) = false
        ∧ fs_write_file nm dat len append t
          = fs_write_at k (default [] dat) len append t)
  ∨ (∃ src k,
        nm = Some src
        ∧ 0 < fs_strlen src ≤ ENIXNEL_MAX_NAME_LEN
        ∧ fs_find_index nm t = (-1)%Z
        ∧ k < ENIXNEL_MAX_FS_ENTRIES
        ∧ used (t !!! k) = false
        ∧ (∀ j, j < k → used (t !!! j) = true)
        ∧ let t1 := <[k := alloc_fill (t !!! k) src false]> t in
          fs_write_file nm dat len append t
          = fs_write_at k (default [] dat) len append
              (<[k := reset_file (t1 !!! k)]> t1)).
Proof.
  unfold fs_write_file.
  destruct (is_null nm || is_null dat && (0 <? len)); [by left|].
  destruct (0 <=? fs_find_index nm t)%Z eqn:Hf.
  - apply Z.leb_le in Hf.
    destruct (is_dir (t !!! Z.to_nat (fs_find_index nm t))) eqn:Hd; [by left|].
    right; left. exists (Z.to_nat (fs_find_index nm t)).
    by rewrite Z2Nat.id.
  - destruct (fs_alloc_entry_cases nm false t)
      as [->|(src & k & Hnm & Hlen & Hfi & Hk & Hu & Hall & ->)]; [by left|].
    right; right. exists src, k. rewrite Nat2Z.id.
    destruct (Z.ltb_spec (Z.of_nat k) 0); [lia|]. done.
Qed.

(** A write into a slot that was just allocated starts at offset 0 and so
    cannot fail. *)
Lemma fs_write_at_fresh k src len append t e :
  size e = 0 →
  fst (fs_write_at k src len append (<[k := e]> t)) = 0%Z.
Proof.
  intros Hz.
  destruct (fs_write_at_cases k src len append (<[k := e]> t))
    as [(_ & _ & Hsz)|(e' & -> & _)]; [|done].
  exfalso. destruct (decide (k < length t)) as [Hk|Hk].
  - rewrite list_lookup_total_insert_eq in Hsz by done.
    unfold ENIXNEL_MAX_FILE_SIZE in Hsz. lia.
  - rewrite list_insert_ge in Hsz by lia.
    rewrite list_lookup_total_alt, lookup_ge_None_2 in Hsz by lia.
    simpl in Hsz. unfold ENIXNEL_MAX_FILE_SIZE in Hsz. lia.
Qed.

(** ** Uniqueness of names *)

Lemma unique_names_insert t k e' :
  unique_names t →
  (used e' = true → ∀ j ej, j ≠ k → t !! j = Some ej → used ej = true →
     entry_name ej ≠ entry_name e') →
  unique_names (<[k := e']> t).
Proof.
  intros Hu Hfresh i j ei ej Hi Hj Hui Huj Hn.
  apply list_lookup_insert_Some in Hi as [(-> & -> & Hlt)|[Hik Hi]];
    apply list_lookup_insert_Some in Hj as [(Hjk & Hje & Hlt')|[Hjk Hj]].
  - done.
  - exfalso. eapply (Hfresh Hui j ej); eauto.
  - subst. exfalso. eapply (Hfresh Huj i ei); eauto.
  - eapply Hu; eauto.
Qed.

Lemma unique_names_update t k e' :
  unique_names t →
  used e' = used (t !!! k) → entry_name e' = entry_name (t !!! k) →
  unique_names (<[k := e']> t).
Proof.
  intros Hu Hused Hname.
  destruct (decide (k < length t)) as [Hk|Hk]; [|by rewrite list_insert_ge by lia].
  apply unique_names_insert; [done|]. intros Hu' j ej Hjk Hj Huj Heq.
  apply Hjk. eapply (Hu j k ej (t !!! k)); eauto.
  - by apply list_lookup_lookup_total_lt.
  - congruence.
Qed.

Lemma unique_names_free t k e' :
  unique_names t → used e' = false → unique_names (<[k := e']> t).
Proof. intros Hu Hf. apply unique_names_insert; [done|]. congruence. Qed.

Lemma fs_find_index_absent b t :
  length t = ENIXNEL_MAX_FS_ENTRIES →
  fs_find_index (Some b) t = (-1)%Z → ¬ name_present (cstr b) t.
Proof.
  intros Hlen Hf.
  destruct (fs_find_index_cases t b Hlen) as [[_ H]|(k & e & Hk & _)]; [done|lia].
Qed.

Lemma entry_name_alloc_fill e src dir :
  entry_wf e → fs_strlen src ≤ ENIXNEL_MAX_NAME_LEN →
  entry_name (alloc_fill e src dir) = cstr src.
Proof.
  intros (Hn & _) Hsrc. unfold entry_name, alloc_fill; simpl.
  apply cstr_copy_name. lia.
Qed.

Lemma unique_names_alloc t k src dir :
  fs_wf t → unique_names t →
  fs_strlen src ≤ ENIXNEL_MAX_NAME_LEN →
  fs_find_index (Some src) t = (-1)%Z →
  unique_names (<[k := alloc_fill (t !!! k) src dir]> t).
Proof.
  intros Hwf Hu Hlen Hf. apply unique_names_insert; [done|].
  intros _ j ej _ Hj Huj Heq.
  apply (fs_find_index_absent src t (proj1 Hwf) Hf).
  exists j, ej. rewrite Heq, entry_name_alloc_fill; [done| |done].
  by apply fs_wf_lookup_total.
Qed.

(** ** The invariant is kept by every operation *)

Lemma fs_alloc_entry_inv nm dir t :
  fs_inv t → fs_inv (snd (fs_alloc_entry nm dir t)).
Proof.
  intros [Hwf Hu].
  destruct (fs_alloc_entry_cases nm dir t)
    as [->|(src & k & -> & Hlen & Hf & Hk & Hfree & Hall & ->)]; [done|].
  simpl. split.
  - apply fs_wf_insert; [done|].
    apply entry_wf_alloc_fill; [by apply fs_wf_lookup_total|lia].
  - apply unique_names_alloc; [done|done|lia|done].
Qed.

Lemma fs_create_dir_inv nm t : fs_inv t → fs_inv (snd (fs_create_dir nm t)).
Proof.
  intros Hinv. pose proof (fs_alloc_entry_inv nm true t Hinv) as H.
  unfold fs_create_dir. by destruct (fs_alloc_entry nm true t).
Qed.

Lemma fs_create_file_inv nm t : fs_inv t → fs_inv (snd (fs_create_file nm t)).
Proof.
  intros Hinv. pose proof (fs_alloc_entry_inv nm false t Hinv) as H.
  unfold fs_create_file. by destruct (fs_alloc_entry nm false t).
Qed.

Lemma delete_clear_inv t k : fs_inv t → fs_inv (<[k := delete_clear (t !!! k)]> t).
Proof.
  intros [Hwf Hu]. split.
  - apply fs_wf_insert; [done|]. by apply entry_wf_delete_clear, fs_wf_lookup_total.
  - by apply unique_names_free.
Qed.

Lemma fs_delete_dir_inv nm t : fs_inv t → fs_inv (snd (fs_delete_dir nm t)).
Proof.
  intros Hinv. destruct (fs_delete_dir_cases nm t) as [->|(k & _ & _ & ->)]; [done|].
  by apply delete_clear_inv.
Qed.

Lemma fs_delete_file_inv nm t : fs_inv t → fs_inv (snd (fs_delete_file nm t)).
Proof.
  intros Hinv. destruct (fs_delete_file_cases nm t) as [->|(k & _ & _ & ->)]; [done|].
  by apply delete_clear_inv.
Qed.

Lemma fs_write_at_inv k src len append t :
  fs_inv t → fs_inv (snd (fs_write_at k src len append t)).
Proof.
  intros [Hwf Hu].
  destruct (fs_write_at_cases k src len append t)
    as [(-> & _)|(e' & -> & Hused & _ & Hname & Hewf)]; [done|].
  simpl. split.
  - apply fs_wf_insert; [done|]. by apply Hewf, fs_wf_lookup_total.
  - apply unique_names_update; [done|done|]. unfold entry_name. by rewrite Hname.
Qed.

Lemma entry_wf_reset_file e : entry_wf e → entry_wf (reset_file e).
Proof.
  intros (Hn & Hs & Hd & Hz). unfold entry_wf, reset_file; simpl.
  rewrite length_insert. repeat split; [done|done|done|lia].
Qed.

Lemma reset_file_inv t k : fs_inv t → fs_inv (<[k := reset_file (t !!! k)]> t).
Proof.
  intros [Hwf Hu]. split.
  - apply fs_wf_insert; [done|]. by apply entry_wf_reset_file, fs_wf_lookup_total.
  - by apply unique_names_update.
Qed.

Lemma fs_write_file_inv nm dat len append t :
  fs_inv t → fs_inv (snd (fs_write_file nm dat len append t)).
Proof.
  intros Hinv.
  destruct (fs_write_file_cases nm dat len append t)
    as [->|[(k & _ & _ & ->)|(src & k & -> & Hlen & Hf & Hk & Hfree & Hall & Hw)]].
  - done.
  - by apply fs_write_at_inv.
  - simpl in Hw. rewrite Hw. apply fs_write_at_inv, reset_file_inv.
    destruct Hinv as [Hwf Hu]. split.
    + apply fs_wf_insert; [done|].
      apply entry_wf_alloc_fill; [by apply fs_wf_lookup_total|lia].
    + apply unique_names_alloc; [done|done|lia|done].
Qed.

Lemma fs_step_inv op t : fs_inv t → fs_inv (snd (fs_step op t)).
Proof.
  destruct op; simpl.
  - apply fs_create_dir_inv.
  - apply fs_create_file_inv.
  - apply fs_delete_dir_inv.
  - apply fs_delete_file_inv.
  - apply fs_write_file_inv.
Qed.

Lemma fs_entries_zero_inv : fs_inv fs_entries_zero.
Proof.
  split.
  - apply fs_wfb_correct. by vm_compute.
  - intros i j ei ej Hi Hj Hui _ _. exfalso.
    apply lookup_replicate in Hi as [-> _]. discriminate Hui.
Qed.

Lemma fs_init_layout_inv : fs_inv (fs_init_layout fs_entries_zero).
Proof.
  unfold fs_init_layout. cbv zeta.
  repeat lazymatch goal with
    | |- fs_inv (snd (fs_create_file _ _)) => apply fs_create_file_inv
    | |- fs_inv (snd (fs_create_dir _ _)) => apply fs_create_dir_inv
    end.
  exact fs_entries_zero_inv.
Qed.

Lemma reachable_inv t : reachable t → fs_inv t.
Proof.
  induction 1 as [|t op _ IH]; [apply fs_init_layout_inv|by apply fs_step_inv].
Qed.

Lemma used_count_le t : used_count t ≤ length t.
Proof. unfold used_count. apply length_filter. Qed.

(** ** Creation: duplicates and capacity *)

Lemma fs_find_index_present b t :
  length t = ENIXNEL_MAX_FS_ENTRIES →
  name_present (cstr b) t → (0 ≤ fs_find_index (Some b) t)%Z.
Proof.
  intros Hlen Hp.
  destruct (fs_find_index_cases t b Hlen) as [[_ H]|(k & e & -> & _)]; [done|lia].
Qed.

Lemma fs_find_index_not_present b t :
  length t = ENIXNEL_MAX_FS_ENTRIES →
  ¬ name_present (cstr b) t → fs_find_index (Some b) t = (-1)%Z.
Proof.
  intros Hlen Hp.
  destruct (fs_find_index_cases t b Hlen) as [[H _]|(k & e & _ & Hk & Hu & Hn & _)];
    [done|].
  exfalso. apply Hp. by exists k, e.
Qed.

Lemma fs_alloc_entry_success src dir t k :
  0 < fs_strlen src ≤ ENIXNEL_MAX_NAME_LEN →
  fs_find_index (Some src) t = (-1)%Z →
  k < ENIXNEL_MAX_FS_ENTRIES → used (t !!! k) = false →
  ∃ k', k' ≤ k
      ∧ used (t !!! k') = false
      ∧ (∀ j, j < k' → used (t !!! j) = true)
      ∧ fs_alloc_entry (Some src) dir t
        = (Z.of_nat k', <[k' := alloc_fill (t !!! k') src dir]> t).
Proof.
  intros Hlen Hf Hk Hfree. unfold fs_alloc_entry.
  destruct (Nat.eqb_spec (fs_strlen src) 0) as [|_]; [lia|].
  destruct (Nat.ltb_spec ENIXNEL_MAX_NAME_LEN (fs_strlen src)) as [|_]; [lia|].
  cbn [orb]. rewrite Hf.
  destruct (Z.leb_spec 0 (-1)) as [|_]; [lia|].
  destruct (fs_alloc_loop_cases t src dir 0 ENIXNEL_MAX_FS_ENTRIES)
    as [[_ Hall]|(k' & -> & Hk' & Hu & Hall)].
  - specialize (Hall k ltac:(lia)). congruence.
  - exists k'. repeat split; [|done|intros j Hj; apply Hall; lia].
    destruct (decide (k' ≤ k)) as [|Hgt]; [done|].
    specialize (Hall k ltac:(lia)). congruence.
Qed.

Lemma fs_alloc_entry_full src dir t :
  length t = ENIXNEL_MAX_FS_ENTRIES → Forall (λ e, used e = true) t →
  fs_alloc_entry (Some src) dir t = ((-1)%Z, t).
Proof.
  intros Hlen Hfull.
  destruct (fs_alloc_entry_cases (Some src) dir t)
    as [->|(src' & k & _ & _ & _ & Hk & Hfree & _)]; [done|].
  exfalso. rewrite Forall_lookup in Hfull.
  specialize (Hfull k (t !!! k)). rewrite Hfull in Hfree; [done|].
  apply list_lookup_lookup_total_lt. lia.
Qed.

Lemma name_present_delete_clear s t k :
  name_present s (<[k := delete_clear (t !!! k)]> t) → name_present s t.
Proof.
  intros (i & e & Hi & Hu & Hn).
  apply list_lookup_insert_Some in Hi as [(_ & <- & _)|[_ Hi]]; [done|].
  by exists i, e.
Qed.

(** C7: creating an entry under a name that some used entry already holds
    fails, whichever of [fs_create_dir] and [fs_create_file] is called and
    whatever the kind of the existing entry, and the table stays as it was. *)
Theorem create_existing_name_fails t src :
  fs_wf t → name_present (cstr src) t →
  fs_create_dir (Some src) t = ((-1)%Z, t)
  ∧ fs_create_file (Some src) t = ((-1)%Z, t).
Proof.
  intros [Hlen _] Hp. pose proof (fs_find_index_present src t Hlen Hp) as Hf.
  assert (∀ dir, fs_alloc_entry (Some src) dir t = ((-1)%Z, t)) as Ha.
  { intros dir.
    destruct (fs_alloc_entry_cases (Some src) dir t)
      as [->|(src' & k & _ & _ & Hf' & _)]; [done|lia]. }
  unfold fs_create_dir, fs_create_file. by rewrite !Ha.
Qed.

Lemma create_existing_name_fails_witness :
  fs_create_dir (Some (lit "bin/echo")) boot_table = ((-1)%Z, boot_table)
  ∧ fs_create_file (Some (lit "user")) boot_table = ((-1)%Z, boot_table).
Proof.
  split.
  - apply (create_existing_name_fails boot_table (lit "bin/echo")).
    + apply fs_wfb_correct. vm_compute. reflexivity.
    + exists 2, (boot_table !!! 2). vm_compute. repeat split; reflexivity.
  - apply (create_existing_name_fails boot_table (lit "user")).
    + apply fs_wfb_correct. vm_compute. reflexivity.
    + exists 1, (boot_table !!! 1). vm_compute. repeat split; reflexivity.
Defined.

Lemma delete_success_cases d t t' :
  fs_delete_dir d t = (0%Z, t') ∨ fs_delete_file d t = (0%Z, t') →
  ∃ k, fs_find_index d t = Z.of_nat k ∧ t' = <[k := delete_clear (t !!! k)]> t.
Proof.
  intros [Hd|Hd].
  - destruct (fs_delete_dir_cases d t) as [H|(k & Hk & _ & H)];
      rewrite H in Hd; [discriminate|]. exists k. split; [done|congruence].
  - destruct (fs_delete_file_cases d t) as [H|(k & Hk & _ & H)];
      rewrite H in Hd; [discriminate|]. exists k. split; [done|congruence].
Qed.

(** C8: the table holds at most 128 entries at any time; when all 128 slots
    are used, creating an entry under a valid name that is not present fails
    and changes nothing; once any one entry has been deleted, the same
    creation succeeds. *)
Theorem table_capacity :
  (∀ t, reachable t → used_count t ≤ ENIXNEL_MAX_FS_ENTRIES)
  ∧ (∀ t src dir,
       fs_wf t → Forall (λ e, used e = true) t →
       0 < fs_strlen src ≤ ENIXNEL_MAX_NAME_LEN →
       ¬ name_present (cstr src) t →
       let create := if dir : bool then fs_create_dir else fs_create_file in
       create (Some src) t = ((-1)%Z, t)
       ∧ ∀ d t',
           fs_delete_dir d t = (0%Z, t') ∨ fs_delete_file d t = (0%Z, t') →
           fst (create (Some src) t') = 0%Z).
Proof.
  split.
  - intros t Hr. destruct (reachable_inv t Hr) as [[<- _] _]. apply used_count_le.
  - intros t src dir [Hlen Hwf] Hfull Hsrc Hnew create. split.
    + pose proof (fs_alloc_entry_full src dir t Hlen Hfull) as Ha.
      subst create. destruct dir; unfold fs_create_dir, fs_create_file; by rewrite Ha.
    + intros d t' Hdel.
      destruct (delete_success_cases d t t' Hdel) as (k & Hk & ->).
      pose proof (fs_find_index_range d t) as Hr.
      assert (fs_find_index (Some src) (<[k := delete_clear (t !!! k)]> t) = (-1)%Z)
        as Hf.
      { apply fs_find_index_not_present; [by rewrite length_insert|].
        intros Hp. by apply Hnew, (name_present_delete_clear _ _ k). }
      destruct (fs_alloc_entry_success src dir _ k Hsrc Hf) as (k' & _ & _ & _ & Ha).
      * lia.
      * rewrite list_lookup_total_insert_eq by lia. done.
      * subst create. destruct dir; unfold fs_create_dir, fs_create_file;
          rewrite Ha; simpl; by destruct (Z.leb_spec 0 (Z.of_nat k')); [|lia].
Qed.

Lemma reachable_create_file nm t :
  reachable t → reachable (snd (fs_create_file nm t)).
Proof. intros Hr. exact (reachable_step t (Create_file nm) Hr). Qed.

Lemma reachable_create_dir nm t :
  reachable t → reachable (snd (fs_create_dir nm t)).
Proof. intros Hr. exact (reachable_step t (Create_dir nm) Hr). Qed.

Lemma reachable_fold_create names : ∀ t,
  reachable t →
  reachable (fold_left (λ t n, snd (fs_create_file (Some (filler_name n)) t)) names t).
Proof.
  induction names as [|n names IH]; intros t Hr; cbn [fold_left]; [done|].
  by apply IH, reachable_create_file.
Qed.

Lemma pair_fst_eq {A B : Type} (p : A * B) (a : A) : fst p = a → p = (a, snd p).
Proof. intros <-. by destruct p. Qed.

Lemma forallb_used_Forall t :
  forallb used t = true → Forall (λ e, used e = true) t.
Proof.
  rewrite forallb_forall, Forall_forall. intros H e He.
  apply H. by apply list_elem_of_In.
Qed.

Lemma table_capacity_witness :
  used_count full_table ≤ ENIXNEL_MAX_FS_ENTRIES
  ∧ fs_create_dir (Some (lit "user/new")) full_table = ((-1)%Z, full_table)
  ∧ fst (fs_create_dir (Some (lit "user/new"))
           (snd (fs_delete_file (Some (lit "bin/clr")) full_table))) = 0%Z.
Proof.
  destruct table_capacity as [Hcount Hfull].
  assert (fs_wf full_table) as Hwf.
  { apply fs_wfb_correct. vm_compute. reflexivity. }
  assert (Forall (λ e, used e = true) full_table) as Hused.
  { apply forallb_used_Forall. vm_compute. reflexivity. }
  assert (0 < fs_strlen (lit "user/new") ≤ ENIXNEL_MAX_NAME_LEN) as Hlen.
  { vm_compute. lia. }
  assert (¬ name_present (cstr (lit "user/new")) full_table) as Hnew.
  { apply fs_find_index_absent; vm_compute; reflexivity. }
  destruct (Hfull full_table (lit "user/new") true Hwf Hused Hlen Hnew) as [Hfail Hretry].
  split; [|split].
  - apply Hcount, reachable_fold_create, reachable_init.
  - exact Hfail.
  - apply (Hretry (Some (lit "bin/clr"))). right.
    apply pair_fst_eq. vm_compute. reflexivity.
Defined.

(** ** Deletion *)

(** C9: a successful [fs_delete_dir] or [fs_delete_file] clears the used
    flag, the kind and the name of the slot it found (the first cell of the
    name array is set to the terminator) and touches nothing else: the data
    bytes and the size of that slot, and all other slots, are as before. *)
Theorem delete_clears_one_slot d t t' :
  fs_wf t →
  fs_delete_dir d t = (0%Z, t') ∨ fs_delete_file d t = (0%Z, t') →
  ∃ k e e',
    fs_find_index d t = Z.of_nat k
    ∧ t !! k = Some e ∧ t' !! k = Some e'
    ∧ used e' = false ∧ is_dir e' = false
    ∧ name e' = <[0 := NUL]> (name e) ∧ entry_name e' = []
    ∧ data e' = data e ∧ size e' = size e
    ∧ length t' = length t
    ∧ ∀ j, j ≠ k → t' !! j = t !! j.
Proof.
  intros [Hlen _] Hdel.
  destruct (delete_success_cases d t t' Hdel) as (k & Hk & ->).
  pose proof (fs_find_index_range d t) as Hr.
  assert (k < length t) as Hlt by lia.
  exists k, (t !!! k), (delete_clear (t !!! k)).
  split; [done|]. split; [by apply list_lookup_lookup_total_lt|].
  split; [by apply list_lookup_insert_eq|].
  do 3 (split; [done|]). split; [apply cstr_insert_0_NUL|].
  do 2 (split; [done|]). split; [apply length_insert|].
  intros j Hj. by apply list_lookup_insert_ne.
Qed.

Lemma delete_clears_one_slot_witness :
  ∃ k e e',
    fs_find_index (Some (lit "user/b")) example_table = Z.of_nat k
    ∧ example_table !! k = Some e
    ∧ snd (fs_delete_dir (Some (lit "user/b")) example_table) !! k = Some e'
    ∧ used e' = false ∧ is_dir e' = false
    ∧ name e' = <[0 := NUL]> (name e) ∧ entry_name e' = []
    ∧ data e' = data e ∧ size e' = size e
    ∧ length (snd (fs_delete_dir (Some (lit "user/b")) example_table))
      = length example_table
    ∧ ∀ j, j ≠ k →
        snd (fs_delete_dir (Some (lit "user/b")) example_table) !! j
        = example_table !! j.
Proof.
  apply (delete_clears_one_slot (Some (lit "user/b")) example_table).
  - apply fs_wfb_correct. vm_compute. reflexivity.
  - left. apply pair_fst_eq. vm_compute. reflexivity.
Defined.

(** ** Writing *)

(** C10: whenever [fs_write_file] returns an error, the table it leaves is
    the table it was given: nothing is created and no slot is modified. *)
Theorem fs_write_file_error_atomic nm dat len append t :
  fst (fs_write_file nm dat len append t) ≠ 0%Z →
  snd (fs_write_file nm dat len append t) = t.
Proof.
  intros Herr.
  destruct (fs_write_file_cases nm dat len append t)
    as [->|[(k & _ & _ & Hw)|(src & k & _ & _ & _ & _ & _ & _ & Hw)]].
  - done.
  - rewrite Hw in *.
    destruct (fs_write_at_cases k (default [] dat) len append t)
      as [(-> & _)|(e' & He' & _)]; [done|].
    rewrite He' in Herr. done.
  - simpl in Hw. rewrite Hw in Herr. exfalso. apply Herr.
    by apply fs_write_at_fresh.
Qed.

Lemma fs_write_file_error_atomic_witness :
  snd (fs_write_file (Some (lit "user/b")) (Some (lit "text")) 4 1 example_table)
  = example_table
  ∧ snd (fs_write_file None (Some (lit "text")) 4 0 example_table)
    = example_table.
Proof.
  split; apply fs_write_file_error_atomic; vm_compute; discriminate.
Defined.

(** ** Uniqueness of names in reachable states *)

(** C2: in every state reached from the boot layout by create, delete and
    write calls, no two used entries have the same name, and every further
    operation leads to a state where this still holds. *)
Theorem reachable_unique_names t :
  reachable t →
  unique_names t ∧ ∀ op, unique_names (snd (fs_step op t)).
Proof.
  intros Hr. pose proof (reachable_inv t Hr) as Hinv. split; [apply Hinv|].
  intros op. by apply fs_step_inv.
Qed.

Lemma reachable_example_table : reachable example_table.
Proof.
  unfold example_table. cbv zeta.
  apply reachable_create_file, reachable_create_dir, reachable_create_file.
  exact reachable_init.
Qed.

Lemma reachable_unique_names_witness :
  unique_names example_table
  ∧ ∀ op, unique_names (snd (fs_step op example_table)).
Proof.
  apply (reachable_unique_names example_table). exact reachable_example_table.
Defined.

(** ** The copy loops of the path helpers *)

Lemma char_at_lookup s i c : s !! i = Some c → char_at s i = c.
Proof. intros H. unfold char_at. by rewrite nth_lookup, H. Qed.

Lemma chars_take_drop s : ∀ n i,
  i + n ≤ length s → map (char_at s) (seq i n) = take n (drop i s).
Proof.
  induction n as [|n IH]; intros i Hi; simpl; [by rewrite take_0|].
  destruct (lookup_lt_is_Some_2 s i ltac:(lia)) as [c Hc].
  rewrite (drop_S _ _ _ Hc), (char_at_lookup _ _ _ Hc). simpl.
  by rewrite IH by lia.
Qed.

Lemma chars_cstr s i n :
  i + n ≤ fs_strlen s → map (char_at s) (seq i n) = take n (drop i (cstr s)).
Proof.
  rewrite fs_strlen_cstr. intros Hi. rewrite <- chars_take_drop by done.
  apply map_ext_in. intros j Hj. apply in_seq in Hj.
  apply char_at_cstr. lia.
Qed.

Lemma copy_n_spec src start : ∀ n i out,
  copy_n src start i n out = out ++ map (char_at src) (seq (start + i) n).
Proof.
  induction n as [|n IH]; intros i out; simpl; [by rewrite app_nil_r|].
  rewrite IH, <- app_assoc. simpl. by rewrite Nat.add_succ_r.
Qed.

Lemma copy_upto_spec src lim : ∀ n i out,
  copy_upto src i n lim out
  = out ++ take (lim - length out) (map (char_at src) (seq i n)).
Proof.
  induction n as [|n IH]; intros i out; simpl.
  - by rewrite take_nil, app_nil_r.
  - destruct (Nat.ltb_spec (length out) lim) as [Hlt|Hge].
    + rewrite IH, <- app_assoc, length_app. simpl.
      replace (lim - length out) with (S (lim - (length out + 1))) by lia.
      done.
    + replace (lim - length out) with 0 by lia. by rewrite app_nil_r.
Qed.

(** ** [path_join] *)

(** What [path_join] is to compute, before truncation. *)
Lemma path_join_spec dir nm out out_size :
  0 < out_size →
  path_join dir nm out out_size
  = take (out_size - 1)
      (if decide (cstr dir = []) then cstr nm else cstr dir ++ SLASH :: cstr nm).
Proof.
  intros Hsz. unfold path_join, k_strlen.
  destruct (Nat.eqb_spec out_size 0) as [|_]; [lia|].
  pose proof (fs_strlen_cstr dir) as Hd. pose proof (fs_strlen_cstr nm) as Hn.
  destruct (Nat.eqb_spec (fs_strlen dir) 0) as [H0|H0].
  - destruct (decide (cstr dir = [])) as [_|Hne].
    2:{ destruct (cstr dir); [done|simpl in Hd; lia]. }
    rewrite copy_n_spec. simpl.
    destruct (Nat.leb_spec out_size (fs_strlen nm)) as [Hle|Hgt].
    + by rewrite chars_cstr, drop_0 by lia.
    + rewrite chars_cstr, drop_0 by lia.
      rewrite !take_ge; [done|lia..].
  - destruct (decide (cstr dir = [])) as [He|_].
    { rewrite He in Hd. simpl in Hd. lia. }
    rewrite !copy_upto_spec. simpl. rewrite Nat.sub_0_r.
    rewrite !chars_cstr, !drop_0 by lia. rewrite !take_ge with (n := fs_strlen _) by lia.
    destruct (Nat.ltb_spec (length (take (out_size - 1) (cstr dir))) (out_size - 1))
      as [Hlt|Hge]; rewrite length_take in *.
    + rewrite take_ge by lia. rewrite take_app_ge by lia.
      rewrite <- app_assoc, length_app. simpl.
      replace (out_size - 1 - length (cstr dir))
        with (S (out_size - 1 - (length (cstr dir) + 1))) by lia.
      done.
    + rewrite take_app_le by lia.
      replace (out_size - 1 - (out_size - 1) `min` length (cstr dir)) with 0 by lia.
      by rewrite take_0, app_nil_r.
Qed.

Lemma NUL_not_in_take n (s : list ascii) : NUL ∉ s → NUL ∉ take n s.
Proof. intros Hs Hin. apply Hs. by apply (subseteq_take n). Qed.

Lemma path_join_no_NUL dir nm out out_size :
  0 < out_size → NUL ∉ path_join dir nm out out_size.
Proof.
  intros Hsz. rewrite path_join_spec by done. apply NUL_not_in_take.
  destruct (decide (cstr dir = [])); [apply cstr_no_NUL|].
  rewrite not_elem_of_app, not_elem_of_cons.
  split; [apply cstr_no_NUL|]. split; [done|apply cstr_no_NUL].
Qed.

Lemma path_join_length dir nm out out_size :
  0 < out_size → length (path_join dir nm out out_size) ≤ out_size - 1.
Proof. intros Hsz. rewrite path_join_spec, length_take by done. lia. Qed.

(** ** The last separator *)

Lemma split_last_slash_inv s :
  match split_last_slash s with
  | (None, b) => s = b ∧ SLASH ∉ b
  | (Some p, b) => s = p ++ SLASH :: b ∧ SLASH ∉ b
  end.
Proof.
  induction s as [|c s IH]; simpl; [split; [done|apply not_elem_of_nil]|].
  destruct (split_last_slash s) as [[p|] b]; destruct IH as [-> Hb].
  - done.
  - destruct (Ascii.eqb_spec c SLASH) as [->|Hc]; [done|].
    split; [done|]. rewrite not_elem_of_cons. done.
Qed.

Lemma split_last_slash_app p b :
  SLASH ∉ b → split_last_slash (p ++ SLASH :: b) = (Some p, b).
Proof.
  intros Hb.
  assert (split_last_slash b = (None, b)) as Hnone.
  { pose proof (split_last_slash_inv b) as H.
    destruct (split_last_slash b) as [[p'|] b']; destruct H as [H1 H2].
    - exfalso. apply Hb. rewrite H1, elem_of_app, elem_of_cons. auto.
    - by subst. }
  induction p as [|c p IH]; simpl.
  - rewrite Hnone. by destruct (Ascii.eqb_spec SLASH SLASH).
  - by rewrite IH.
Qed.

Lemma split_last_slash_cases s :
  ((SLASH ∉ s) ∧ derived_parent s = [] ∧ derived_basename s = s)
  ∨ (∃ p b, s = p ++ SLASH :: b ∧ (SLASH ∉ b)
          ∧ derived_parent s = p ∧ derived_basename s = b).
Proof.
  pose proof (split_last_slash_inv s) as H.
  unfold derived_parent, derived_basename.
  destruct (split_last_slash s) as [[p|] b]; destruct H as [H1 H2]; simpl.
  - right. by exists p, b.
  - left. by subst.
Qed.

Lemma last_slash_loop_skip s : ∀ k j,
  j ≤ k → (∀ i, j ≤ i < k → char_at s i ≠ SLASH) →
  last_slash_loop s k = last_slash_loop s j.
Proof.
  induction k as [|k IH]; intros j Hj Hall.
  - by replace j with 0 by lia.
  - destruct (decide (j = S k)) as [->|Hne]; [done|]. simpl.
    destruct (Ascii.eqb_spec (char_at s k) SLASH) as [Heq|_].
    + exfalso. apply (Hall k); [lia|done].
    + apply IH; [lia|]. intros i Hi. apply Hall. lia.
Qed.

Lemma last_slash_loop_ext s s' : ∀ k,
  (∀ i, i < k → char_at s i = char_at s' i) →
  last_slash_loop s k = last_slash_loop s' k.
Proof.
  induction k as [|k IH]; intros Hall; simpl; [done|].
  rewrite (Hall k) by lia. rewrite IH; [done|]. intros i Hi. apply Hall. lia.
Qed.

Lemma char_at_not_slash b i : SLASH ∉ b → char_at b i ≠ SLASH.
Proof.
  intros Hb Heq. unfold char_at in Heq. rewrite nth_lookup in Heq.
  destruct (b !! i) as [c|] eqn:Hc; simpl in Heq; [|done].
  subst. apply Hb. by eapply list_elem_of_lookup_2.
Qed.

Lemma last_slash_loop_none b : SLASH ∉ b → last_slash_loop b (length b) = 0.
Proof.
  intros Hb. rewrite (last_slash_loop_skip b (length b) 0); [done|lia|].
  intros i _. by apply char_at_not_slash.
Qed.

Lemma last_slash_loop_app p b :
  SLASH ∉ b →
  last_slash_loop (p ++ SLASH :: b) (length (p ++ SLASH :: b)) = S (length p).
Proof.
  intros Hb.
  rewrite (last_slash_loop_skip _ _ (S (length p))).
  - simpl. unfold char_at. rewrite nth_middle.
    by destruct (Ascii.eqb_spec SLASH SLASH).
  - rewrite length_app. simpl. lia.
  - intros i Hi. rewrite length_app in Hi. simpl in Hi.
    unfold char_at. rewrite app_nth2 by lia.
    replace (i - length p) with (S (i - length p - 1)) by lia. simpl.
    by apply char_at_not_slash.
Qed.

Lemma last_slash_loop_cstr path :
  last_slash_loop path (k_strlen path)
  = last_slash_loop (cstr path) (length (cstr path)).
Proof.
  unfold k_strlen. rewrite fs_strlen_cstr. apply last_slash_loop_ext.
  intros i Hi. by apply char_at_cstr.
Qed.

(** ** [path_parent] and [path_basename] against the specification's words *)

Lemma path_parent_spec path out out_size :
  0 < out_size →
  path_parent path out out_size
  = take (out_size - 1) (derived_parent (cstr path)).
Proof.
  intros Hsz. unfold path_parent.
  destruct (Nat.eqb_spec out_size 0) as [|_]; [lia|].
  rewrite last_slash_loop_cstr.
  pose proof (fs_strlen_cstr path) as Hlen. unfold k_strlen.
  destruct (Nat.eqb_spec (fs_strlen path) 0) as [H0|H0].
  { destruct (cstr path); [|simpl in Hlen; lia].
    unfold derived_parent. simpl. by rewrite take_nil. }
  destruct (split_last_slash_cases (cstr path))
    as [(Hno & -> & _)|(p & b & Hs & Hb & -> & _)].
  - rewrite last_slash_loop_none by done. simpl. by rewrite take_nil.
  - rewrite Hs, last_slash_loop_app by done. simpl. rewrite Nat.sub_0_r.
    assert (length p ≤ fs_strlen path) as Hp.
    { rewrite Hlen, Hs, length_app. lia. }
    rewrite copy_n_spec. simpl.
    destruct (Nat.leb_spec out_size (length p)) as [Hle|Hgt].
    + rewrite chars_cstr, drop_0, Hs by lia. by rewrite take_app_le by lia.
    + rewrite chars_cstr, drop_0, Hs by lia.
      rewrite take_app_length. by rewrite take_ge by lia.
Qed.

Lemma path_basename_spec path out out_size :
  0 < out_size →
  path_basename path out out_size
  = take (out_size - 1) (derived_basename (cstr path)).
Proof.
  intros Hsz. unfold path_basename.
  destruct (Nat.eqb_spec out_size 0) as [|_]; [lia|].
  rewrite last_slash_loop_cstr.
  pose proof (fs_strlen_cstr path) as Hlen. unfold k_strlen.
  destruct (Nat.eqb_spec (fs_strlen path) 0) as [H0|H0].
  { destruct (cstr path); [|simpl in Hlen; lia].
    unfold derived_basename. simpl. by rewrite take_nil. }
  rewrite copy_n_spec, Nat.add_0_r. simpl.
  destruct (split_last_slash_cases (cstr path))
    as [(Hno & _ & ->)|(p & b & Hs & Hb & _ & ->)].
  - rewrite last_slash_loop_none by done. rewrite Nat.sub_0_r.
    destruct (Nat.leb_spec out_size (fs_strlen path)) as [Hle|Hgt].
    + by rewrite chars_cstr, drop_0 by lia.
    + rewrite chars_cstr, drop_0 by lia. rewrite !take_ge; [done|lia..].
  - rewrite Hs, last_slash_loop_app by done.
    assert (fs_strlen path = S (length p) + length b) as Hpb.
    { rewrite Hlen, Hs, length_app. simpl. lia. }
    assert (drop (S (length p)) (cstr path) = b) as Hdrop.
    { rewrite Hs.
      replace (p ++ SLASH :: b) with ((p ++ [SLASH]) ++ b) by by rewrite <- app_assoc.
      apply drop_app_length'. rewrite length_app. simpl. lia. }
    destruct (Nat.leb_spec out_size (fs_strlen path - S (length p))) as [Hle|Hgt].
    + rewrite chars_cstr by lia. by rewrite Hdrop.
    + rewrite chars_cstr by lia. rewrite Hdrop.
      rewrite !take_ge; [done|lia..].
Qed.

Lemma derived_parent_length s : length (derived_parent s) ≤ length s.
Proof.
  destruct (split_last_slash_cases s) as [(_ & -> & _)|(p & b & -> & _ & -> & _)].
  - simpl. lia.
  - rewrite length_app. lia.
Qed.

Lemma derived_basename_length s : length (derived_basename s) ≤ length s.
Proof.
  destruct (split_last_slash_cases s) as [(_ & _ & ->)|(p & b & -> & _ & _ & ->)].
  - lia.
  - rewrite length_app. simpl. lia.
Qed.

Lemma derived_parent_no_NUL s : NUL ∉ s → NUL ∉ derived_parent s.
Proof.
  destruct (split_last_slash_cases s) as [(_ & -> & _)|(p & b & -> & _ & -> & _)].
  - intros _. apply not_elem_of_nil.
  - rewrite not_elem_of_app. tauto.
Qed.

Lemma derived_basename_no_NUL s : NUL ∉ s → NUL ∉ derived_basename s.
Proof.
  destruct (split_last_slash_cases s) as [(_ & _ & ->)|(p & b & -> & _ & _ & ->)].
  - done.
  - rewrite not_elem_of_app, not_elem_of_cons. tauto.
Qed.

(** C3, as amended: whenever the prefix [p] is not empty and leaves room for
    the separator in the output buffer (its length plus the separator plus
    the terminator do not exceed [out_size]; with the 32-byte buffers of the
    shell, [p] has at most 30 characters), and [n] holds no separator, the
    parent of the join of [p] and [n] is [p]. *)
Theorem path_parent_join p n out out' out_size :
  cstr p ≠ [] → SLASH ∉ cstr n → length (cstr p) + 2 ≤ out_size →
  path_parent (path_join p n out out_size) out' out_size = cstr p.
Proof.
  intros Hp Hn Hsz.
  rewrite path_parent_spec by lia.
  rewrite (cstr_id (path_join _ _ _ _)) by (apply path_join_no_NUL; lia).
  rewrite path_join_spec by lia.
  destruct (decide (cstr p = [])) as [|_]; [done|].
  rewrite take_app_ge by lia.
  replace (out_size - 1 - length (cstr p))
    with (S (out_size - 1 - length (cstr p) - 1)) by lia.
  simpl. unfold derived_parent. rewrite split_last_slash_app.
  - simpl. apply take_ge. lia.
  - intros Hin. apply Hn. by apply (subseteq_take _ _ _ Hin).
Qed.

Lemma path_parent_join_witness :
  path_parent (path_join (lit "user/b") (lit "c") [] 32) [] 32 = lit "user/b".
Proof.
  apply (path_parent_join (lit "user/b") (lit "c") [] [] 32).
  - vm_compute. discriminate.
  - vm_compute. intros Hin. repeat (apply elem_of_cons in Hin as [Hin|Hin];
      [discriminate Hin|]). by apply elem_of_nil in Hin.
  - vm_compute. lia.
Defined.

(** C3 as it is worded fails: a 31-character prefix fills the 32-byte buffer,
    the join is cut back to the prefix itself, and its parent is empty. *)
Lemma path_parent_join_counterexample :
  let p := replicate 31 "a"%char in
  let n := lit "x" in
  p ≠ [] ∧ (SLASH ∉ n)
  ∧ path_join p n [] 32 = p
  ∧ path_parent (path_join p n [] 32) [] 32 = []
  ∧ path_parent (path_join p n [] 32) [] 32 ≠ p.
Proof.
  cbv zeta. split; [by vm_compute|]. split.
  { intros Hin. apply elem_of_cons in Hin as [Hin|Hin]; [discriminate Hin|].
    by apply elem_of_nil in Hin. }
  split; [by vm_compute|]. split; [by vm_compute|]. by vm_compute.
Qed.

(** ** The listing command *)

Lemma entry_name_no_NUL e : NUL ∉ entry_name e.
Proof. apply cstr_no_NUL. Qed.

Lemma entry_name_length e :
  entry_wf e → length (entry_name e) ≤ ENIXNEL_MAX_NAME_LEN.
Proof. intros (_ & Hs & _). unfold entry_name. by rewrite <- fs_strlen_cstr. Qed.

Lemma sdir_parent e :
  entry_wf e →
  path_parent (name e) [] (S ENIXNEL_MAX_NAME_LEN) = derived_parent (entry_name e).
Proof.
  intros Hwf. rewrite path_parent_spec by lia. apply take_ge.
  pose proof (derived_parent_length (entry_name e)).
  pose proof (entry_name_length e Hwf). unfold entry_name in *. lia.
Qed.

Lemma sdir_basename e :
  entry_wf e →
  path_basename (name e) [] (S ENIXNEL_MAX_NAME_LEN) = derived_basename (entry_name e).
Proof.
  intros Hwf. rewrite path_basename_spec by lia. apply take_ge.
  pose proof (derived_basename_length (entry_name e)).
  pose proof (entry_name_length e Hwf). unfold entry_name in *. lia.
Qed.

Lemma sdir_match e cur :
  k_streq (derived_parent (entry_name e)) cur
  = bool_decide (derived_parent (entry_name e) = cstr cur).
Proof.
  unfold k_streq.
  pose proof (str_equal_spec (derived_parent (entry_name e)) cur) as Hspec.
  rewrite (cstr_id (derived_parent _)) in Hspec
    by apply derived_parent_no_NUL, entry_name_no_NUL.
  destruct (str_equal _ cur); case_bool_decide as Hd; try done.
  - exfalso. by apply Hd, Hspec.
  - by apply Hspec in Hd.
Qed.

Lemma sdir_loop_spec t cur :
  Forall entry_wf t →
  ∀ n i any con,
    i + n ≤ length t →
    sdir_loop t cur i n any con
    = (any || existsb (listed cur) (take n (drop i t)),
       con ++ flat_map listing_line (listing cur (take n (drop i t)))).
Proof.
  intros Hwf. induction n as [|n IH]; intros i any con Hi.
  - cbn [sdir_loop]. rewrite take_0. unfold listing.
    cbn [List.filter existsb flat_map]. by rewrite orb_false_r, app_nil_r.
  - destruct (lookup_lt_is_Some_2 t i ltac:(lia)) as [e He].
    pose proof (Forall_lookup_1 _ _ _ _ Hwf He) as Hewf.
    cbn [sdir_loop]. rewrite (list_lookup_total_correct _ _ _ He).
    rewrite (drop_S _ _ _ He). cbn [take]. unfold listing in *.
    cbn [existsb List.filter].
    rewrite sdir_parent, sdir_basename, sdir_match by done.
    unfold listed at 1 3.
    destruct (used e); cbn [negb andb]; [|by rewrite IH by lia].
    destruct (bool_decide _); cbn [negb]; [|by rewrite IH by lia].
    rewrite IH by lia. cbn [flat_map orb]. rewrite orb_true_r. f_equal.
    unfold console_write_line, console_putc, console_write, listing_line.
    rewrite (cstr_id (derived_basename _))
      by apply derived_basename_no_NUL, entry_name_no_NUL.
    destruct (is_dir e); by rewrite <- !app_assoc.
Qed.

Lemma existsb_filter {A : Type} (f : A → bool) (l : list A) :
  existsb f l = match List.filter f l with [] => false | _ => true end.
Proof.
  induction l as [|x l IH]; simpl; [done|]. by destruct (f x).
Qed.

(** C4: on a well-shaped table, [sdir] prints, in slot order, one line for
    each used entry whose derived parent is exactly the current directory,
    made of the tag of its kind and its basename, and nothing for any other
    entry (a notice when there is no such entry).  With current directory
    [user] and [user/a], [user/b], [user/b/c] in the table, that is [a] as a
    file and [b] as a directory. *)
Theorem cli_cmd_sdir_listing :
  (∀ st, fs_wf (fs_entries st) →
     cli_cmd_sdir st
     = {| fs_entries := fs_entries st;
          current_dir := current_dir st;
          console := console st
                     ++ listing_output (current_dir st) (fs_entries st) |})
  ∧ map entry_name (listing (lit "user") example_table)
    = [lit "user/a"; lit "user/b"]
  ∧ console (cli_cmd_sdir (mk_shell example_table (lit "user") []))
    = lit "[FILE] a" ++ [NEWLINE] ++ lit "[DIR]  b" ++ [NEWLINE].
Proof.
  split; [|split; by vm_compute].
  intros [t cur con] [Hlen Hwf]. unfold cli_cmd_sdir.
  cbn [fs_entries current_dir console] in *.
  rewrite (sdir_loop_spec t cur Hwf) by lia.
  rewrite drop_0, take_ge by lia. cbn [orb]. f_equal.
  unfold listing_output. rewrite existsb_filter. unfold listing.
  destruct (List.filter (listed cur) t) as [|e l]; cbn [negb]; [|done].
  unfold console_write_line, console_putc, console_write.
  by rewrite app_nil_r, <- app_assoc.
Qed.

Lemma cli_cmd_sdir_listing_witness :
  cli_cmd_sdir (mk_shell example_table (lit "user/b") (lit "$ "))
  = mk_shell example_table (lit "user/b")
      (lit "$ " ++ listing_output (lit "user/b") example_table).
Proof.
  apply (proj1 cli_cmd_sdir_listing (mk_shell example_table (lit "user/b") (lit "$ "))).
  apply fs_wfb_correct. vm_compute. reflexivity.
Defined.

(** ** The change-directory command *)

Lemma token_loop_no_NUL size : ∀ p out,
  NUL ∉ out → NUL ∉ token_loop p size out.
Proof.
  induction p as [|c p IH]; intros out Hout; simpl; [done|].
  destruct (Ascii.eqb_spec c NUL) as [->|Hc]; simpl; [done|].
  destruct (negb (Ascii.eqb c SPACE) && (length out + 1 <? size)); [|done].
  apply IH. rewrite not_elem_of_app, not_elem_of_cons.
  split; [done|]. split; [congruence|apply not_elem_of_nil].
Qed.

Lemma cli_first_arg_no_NUL args size : NUL ∉ cli_first_arg args size.
Proof. apply token_loop_no_NUL, not_elem_of_nil. Qed.

Lemma set_current_dir_spec : ∀ src out,
  NUL ∉ src → length out + length src ≤ ENIXNEL_MAX_NAME_LEN →
  set_current_dir src out = out ++ src.
Proof.
  induction src as [|c src IH]; intros out Hsrc Hlen; simpl.
  - by rewrite app_nil_r.
  - apply not_elem_of_cons in Hsrc as [Hc Hsrc]. simpl in Hlen.
    destruct (Ascii.eqb_spec c NUL) as [->|_]; [done|].
    destruct (Nat.ltb_spec (length out) ENIXNEL_MAX_NAME_LEN) as [_|]; [|lia].
    simpl. rewrite IH; [by rewrite <- app_assoc|done|].
    rewrite length_app. simpl. lia.
Qed.

Lemma k_streq_no_NUL a b : NUL ∉ a → NUL ∉ b → k_streq a b = true ↔ a = b.
Proof.
  intros Ha Hb. unfold k_streq. by rewrite str_equal_spec, !cstr_id.
Qed.

(** C5: for a name argument other than [.] and [..], [cd] moves to the join
    of the current directory and the name exactly when a used entry goes by
    that full name and is a directory; otherwise it reports a failure and the
    current directory stays as it was.  The table is never touched. *)
Theorem cli_cmd_cd_spec t cur con args :
  fs_wf t → unique_names t →
  let nm := cli_first_arg args (S ENIXNEL_MAX_NAME_LEN) in
  nm ≠ [] → nm ≠ lit "." → nm ≠ lit ".." →
  let target := path_join cur nm [] (S ENIXNEL_MAX_NAME_LEN) in
  let st' := cli_cmd_cd args (mk_shell t cur con) in
  fs_entries st' = t
  ∧ (dir_present target t → current_dir st' = target ∧ console st' = con)
  ∧ (¬ dir_present target t →
       current_dir st' = cur
       ∧ console st' = con ++ lit "cd: no such directory: " ++ nm ++ [NEWLINE]).
Proof.
  intros [Hlen Hwf] Huniq nm Hne Hdot Hdotdot target st'.
  pose proof (cli_first_arg_no_NUL args (S ENIXNEL_MAX_NAME_LEN)) as Hnul.
  fold nm in Hnul.
  assert (NUL ∉ target) as Htnul by (apply path_join_no_NUL; lia).
  assert (length target ≤ ENIXNEL_MAX_NAME_LEN) as Htlen.
  { pose proof (path_join_length cur nm [] (S ENIXNEL_MAX_NAME_LEN)). fold target in H. lia. }
  assert (Ascii.eqb (char_at nm 0) NUL = false) as H0.
  { destruct nm as [|c nm']; [done|]. apply not_elem_of_cons in Hnul as [Hc _].
    unfold char_at. simpl. destruct (Ascii.eqb_spec c NUL); congruence. }
  assert (k_streq nm (lit ".") = false) as H1.
  { destruct (k_streq nm (lit ".")) eqn:E; [|done].
    apply k_streq_no_NUL in E; [done|done|].
    apply (bool_decide_unpack _). by vm_compute. }
  assert (k_streq nm (lit "..") = false) as H2.
  { destruct (k_streq nm (lit "..")) eqn:E; [|done].
    apply k_streq_no_NUL in E; [done|done|].
    apply (bool_decide_unpack _). by vm_compute. }
  subst st'. unfold cli_cmd_cd. cbn [fs_entries current_dir console].
  fold nm. rewrite H0, H1, H2. fold target.
  destruct (fs_find_index_cases t target Hlen)
    as [[Hf Habs]|(k & e & Hf & Hk & Hu & Hn & _)];
    rewrite Hf; rewrite (cstr_id target) in * by done.
  - cbn [Z.ltb Z.compare orb fs_entries current_dir console].
    split; [done|]. split.
    + intros (i & e & Hi & Hu & _ & Hn). exfalso. apply Habs. by exists i, e.
    + intros _. split; [done|].
      unfold console_write_line, console_putc, console_write.
      rewrite (cstr_id nm) by done. by rewrite <- !app_assoc.
  - rewrite Nat2Z.id, (list_lookup_total_correct _ _ _ Hk), Hu.
    destruct (Z.ltb_spec (Z.of_nat k) 0) as [|_]; [lia|]. cbn [negb orb].
    destruct (is_dir e) eqn:Hd; cbn [negb fs_entries current_dir console].
    + split; [done|]. split.
      * intros _. split; [|done]. by apply set_current_dir_spec.
      * intros Habs. exfalso. apply Habs. by exists k, e.
    + split; [done|]. split.
      * intros (i & e' & Hi & Hu' & Hd' & Hn'). exfalso.
        assert (i = k) as -> by (eapply Huniq; eauto; congruence).
        congruence.
      * intros _. split; [done|].
        unfold console_write_line, console_putc, console_write.
        rewrite (cstr_id nm) by done. by rewrite <- !app_assoc.
Qed.

Lemma cli_cmd_cd_spec_witness :
  let st' := cli_cmd_cd (lit "b") (mk_shell example_table (lit "user") []) in
  fs_entries st' = example_table
  ∧ (dir_present (lit "user/b") example_table →
       current_dir st' = lit "user/b" ∧ console st' = [])
  ∧ (¬ dir_present (lit "user/b") example_table →
       current_dir st' = lit "user"
       ∧ console st' = [] ++ lit "cd: no such directory: " ++ lit "b" ++ [NEWLINE]).
Proof.
  apply (cli_cmd_cd_spec example_table (lit "user") [] (lit "b")).
  - apply fs_wfb_correct. vm_compute. reflexivity.
  - apply reachable_inv, reachable_example_table.
  - vm_compute. discriminate.
  - vm_compute. discriminate.
  - vm_compute. discriminate.
Defined.

(** ** What a write stores *)

Lemma write_loop_spec src offset : ∀ n i dst,
  offset + i + n ≤ length dst →
  write_loop dst offset src i n
  = take (offset + i) dst ++ map (char_at src) (seq i n)
    ++ drop (offset + i + n) dst.
Proof.
  induction n as [|n IH]; intros i dst Hlen; simpl.
  - by rewrite Nat.add_0_r, take_drop.
  - rewrite IH by (rewrite length_insert; lia).
    rewrite drop_insert_lt by lia.
    replace (offset + S i) with (S (offset + i)) by lia.
    rewrite take_insert_lt by lia.
    destruct (lookup_lt_is_Some_2 dst (offset + i) ltac:(lia)) as [x Hx].
    rewrite (take_S_r _ _ _ Hx).
    rewrite insert_app_r_alt by (rewrite length_take; lia).
    rewrite length_take.
    replace (offset + i - (offset + i) `min` length dst) with 0 by lia.
    simpl. rewrite <- app_assoc. simpl.
    by replace (S (offset + i + n)) with (offset + i + S n) by lia.
Qed.

(** The effect of the tail of [fs_write_file] on a well-shaped file slot,
    for an input of [len] readable bytes.  Below the capacity the content is
    what was there up to the offset followed by the input.  When the write
    reaches the capacity, the size becomes 512 and byte 511 is the
    terminator, whatever the input had there. *)
Lemma fs_write_at_content idx src len append t e :
  t !! idx = Some e → entry_wf e → len ≤ length src →
  let offset := if (append =? 0)%Z then 0 else size e in
  offset < ENIXNEL_MAX_FILE_SIZE →
  ∃ e',
    fs_write_at idx src len append t = (0%Z, <[idx := e']> t)
    ∧ used e' = used e ∧ is_dir e' = is_dir e ∧ name e' = name e
    ∧ size e' = (offset + len) `min` ENIXNEL_MAX_FILE_SIZE
    ∧ length (data e') = ENIXNEL_MAX_FILE_SIZE
    ∧ (offset + len < ENIXNEL_MAX_FILE_SIZE →
         content e' = take offset (data e) ++ take len src)
    ∧ (ENIXNEL_MAX_FILE_SIZE ≤ offset + len →
         content e'
         = take offset (data e)
           ++ take (ENIXNEL_MAX_FILE_SIZE - 1 - offset) src ++ [NUL]).
Proof.
  intros He (Hn & Hs & Hd & Hz) Hsrc offset Hoff.
  unfold fs_write_at. rewrite (list_lookup_total_correct _ _ _ He).
  fold offset. destruct (Nat.leb_spec ENIXNEL_MAX_FILE_SIZE offset) as [|_]; [lia|].
  set (n := if ENIXNEL_MAX_FILE_SIZE - offset <? len
            then ENIXNEL_MAX_FILE_SIZE - offset else len).
  assert (n = len `min` (ENIXNEL_MAX_FILE_SIZE - offset)) as Hnmin.
  { subst n. destruct (Nat.ltb_spec (ENIXNEL_MAX_FILE_SIZE - offset) len); lia. }
  assert (write_loop (data e) offset src 0 n
          = take offset (data e) ++ take n src ++ drop (offset + n) (data e)) as Hw.
  { rewrite write_loop_spec by lia. rewrite !Nat.add_0_r.
    by rewrite chars_take_drop, drop_0 by lia. }
  assert (length (take offset (data e)) = offset) as Hl1
    by (rewrite length_take; lia).
  assert (length (take n src) = n) as Hl2 by (rewrite length_take; lia).
  eexists. split; [reflexivity|]. cbn [used is_dir name size data].
  do 3 (split; [done|]). split; [lia|]. split.
  { destruct (offset + n <? ENIXNEL_MAX_FILE_SIZE);
      by rewrite length_insert, length_write_loop. }
  unfold content; cbn [size data]. split.
  - intros Hlt. assert (n = len) as Hnl by lia.
    destruct (Nat.ltb_spec (offset + n) ENIXNEL_MAX_FILE_SIZE) as [_|]; [|lia].
    rewrite take_insert_ge by lia. rewrite Hw, app_assoc.
    rewrite take_app_length' by (rewrite length_app; lia). by rewrite Hnl.
  - intros Hge. assert (n = ENIXNEL_MAX_FILE_SIZE - offset) as Hnl by lia.
    destruct (Nat.ltb_spec (offset + n) ENIXNEL_MAX_FILE_SIZE) as [|_]; [lia|].
    rewrite take_ge by (rewrite length_insert, length_write_loop; lia).
    rewrite insert_take_drop by (rewrite length_write_loop; unfold ENIXNEL_MAX_FILE_SIZE in *; lia).
    rewrite (drop_ge _ (S _))
      by (rewrite length_write_loop; unfold ENIXNEL_MAX_FILE_SIZE in *; lia).
    rewrite Hw, app_assoc, take_app_le by (rewrite length_app; lia).
    rewrite take_app_ge by lia. rewrite Hl1, take_take.
    rewrite <- app_assoc. do 2 f_equal.
    replace ((ENIXNEL_MAX_FILE_SIZE - 1 - offset) `min` n)
      with (ENIXNEL_MAX_FILE_SIZE - 1 - offset) by lia.
    done.
Qed.

(** A write under a name that is not present, on a table with a free slot:
    the file is created in the first free slot and holds the input, except
    that an input of 512 bytes or more leaves the terminator in byte 511. *)
Lemma fs_write_file_new t nm s append :
  fs_wf t →
  0 < fs_strlen nm ≤ ENIXNEL_MAX_NAME_LEN →
  ¬ name_present (cstr nm) t →
  ¬ Forall (λ e, used e = true) t →
  ∃ k e',
    fs_write_file (Some nm) (Some s) (length s) append t = (0%Z, <[k := e']> t)
    ∧ k < length t
    ∧ used (t !!! k) = false
    ∧ used e' = true ∧ is_dir e' = false ∧ entry_name e' = cstr nm
    ∧ size e' = length s `min` ENIXNEL_MAX_FILE_SIZE
    ∧ (length s < ENIXNEL_MAX_FILE_SIZE → content e' = s)
    ∧ (ENIXNEL_MAX_FILE_SIZE ≤ length s →
         content e' = take (ENIXNEL_MAX_FILE_SIZE - 1) s ++ [NUL]).
Proof.
  intros Hwf Hnm Hnew Hfree. pose proof Hwf as [Hlen Hall].
  assert (∃ k0, k0 < ENIXNEL_MAX_FS_ENTRIES ∧ used (t !!! k0) = false)
    as (k0 & Hk0 & Hu0).
  { apply not_Forall_Exists in Hfree; [|intros e; apply _].
    apply Exists_exists in Hfree as (e & He & Hu).
    apply list_elem_of_lookup in He as [k0 Hk0]. exists k0. split.
    - apply lookup_lt_Some in Hk0. lia.
    - rewrite (list_lookup_total_correct _ _ _ Hk0). by apply not_true_is_false. }
  pose proof (fs_find_index_not_present nm t Hlen Hnew) as Hf.
  destruct (fs_alloc_entry_success nm false t k0 Hnm Hf Hk0 Hu0)
    as (k & Hk & Hu & _ & Ha).
  set (e1 := alloc_fill (t !!! k) nm false) in *.
  set (t1 := <[k := e1]> t) in *.
  assert (k < length t) as Hkt by lia.
  assert (entry_wf e1) as Hwf1.
  { apply entry_wf_alloc_fill; [by apply fs_wf_lookup_total|lia]. }
  assert (t1 !!! k = e1) as Ht1 by (by apply list_lookup_total_insert_eq).
  set (e2 := reset_file e1).
  assert (entry_wf e2) as Hwf2 by by apply entry_wf_reset_file.
  assert ((<[k := e2]> t1) !! k = Some e2) as Hk2.
  { apply list_lookup_insert_eq. subst t1. by rewrite length_insert. }
  destruct (fs_write_at_content k s (length s) append (<[k := e2]> t1) e2
              Hk2 Hwf2 ltac:(lia))
    as (e' & Hw & Hu' & Hd' & Hn' & Hsz & _ & Hlt & Hge).
  { cbn [size e2 reset_file]. destruct (append =? 0)%Z; unfold ENIXNEL_MAX_FILE_SIZE; lia. }
  replace (if (append =? 0)%Z then 0 else size e2) with 0 in *
    by (by destruct (append =? 0)%Z).
  exists k, e'. split.
  - unfold fs_write_file. cbn [is_null orb andb]. rewrite Hf.
    destruct (Z.leb_spec 0 (-1)) as [|_]; [lia|]. rewrite Ha.
    destruct (Z.ltb_spec (Z.of_nat k) 0) as [|_]; [lia|].
    rewrite Nat2Z.id. fold t1. rewrite Ht1. change (default [] (Some s)) with s.
    change {| used := used e1; is_dir := is_dir e1; name := name e1; size := 0;
              data := <[0 := NUL]> (data e1) |} with e2.
    rewrite Hw. subst t1. by rewrite !list_insert_insert_eq.
  - split; [done|]. split; [done|]. split; [by rewrite Hu'|].
    split; [by rewrite Hd'|]. split.
    { unfold entry_name. rewrite Hn'. cbn [name e2 reset_file].
      apply entry_name_alloc_fill; [by apply fs_wf_lookup_total|lia]. }
    split; [done|]. split.
    + intros H. rewrite Hlt by lia. rewrite take_0, take_ge by lia. done.
    + intros H. rewrite Hge by lia. by rewrite take_0, Nat.sub_0_r.
Qed.

(** ** Writes to a file that exists, below the capacity *)

Lemma fs_find_loop_update t k e' b :
  used e' = used (t !!! k) → name e' = name (t !!! k) →
  ∀ n i, fs_find_loop (<[k := e']> t) b i n = fs_find_loop t b i n.
Proof.
  intros Hu Hn.
  assert (∀ i, used (<[k := e']> t !!! i) = used (t !!! i)
               ∧ name (<[k := e']> t !!! i) = name (t !!! i)) as Hsame.
  { intros i. destruct (decide (k < length t)) as [Hk|Hk].
    - destruct (decide (i = k)) as [->|Hne].
      + by rewrite list_lookup_total_insert_eq.
      + by rewrite list_lookup_total_insert_ne.
    - by rewrite list_insert_ge by lia. }
  induction n as [|n IH]; intros i; simpl; [done|].
  destruct (Hsame i) as [-> ->]. by rewrite IH.
Qed.

Lemma fs_find_index_update t k e' nm :
  used e' = used (t !!! k) → name e' = name (t !!! k) →
  fs_find_index nm (<[k := e']> t) = fs_find_index nm t.
Proof.
  intros Hu Hn. destruct nm as [b|]; [|done].
  unfold fs_find_index. by apply fs_find_loop_update.
Qed.

Lemma fs_write_file_existing t nm k e s append :
  t !! k = Some e → fs_find_index (Some nm) t = Z.of_nat k → is_dir e = false →
  fs_write_file (Some nm) (Some s) (length s) append t
  = fs_write_at k s (length s) append t.
Proof.
  intros He Hf Hd. unfold fs_write_file. cbn [is_null orb andb]. rewrite Hf.
  destruct (Z.leb_spec 0 (Z.of_nat k)) as [_|]; [|lia].
  by rewrite Nat2Z.id, (list_lookup_total_correct _ _ _ He), Hd.
Qed.

(** Overwrite replaces: whatever the file held, after an overwrite with
    fewer than 512 bytes its content is the bytes written. *)
Lemma fs_write_file_overwrite t nm k e s :
  fs_wf t → t !! k = Some e → fs_find_index (Some nm) t = Z.of_nat k →
  is_dir e = false → length s < ENIXNEL_MAX_FILE_SIZE →
  ∃ e', fs_write_file (Some nm) (Some s) (length s) 0 t = (0%Z, <[k := e']> t)
        ∧ used e' = used e ∧ is_dir e' = false ∧ name e' = name e
        ∧ content e' = s.
Proof.
  intros Hwf He Hf Hd Hlen.
  rewrite (fs_write_file_existing t nm k e s 0 He Hf Hd).
  destruct (fs_write_at_content k s (length s) 0 t e He
              (fs_wf_lookup _ _ _ Hwf He) ltac:(lia))
    as (e' & Hw & Hu' & Hd' & Hn' & _ & _ & Hlt & _).
  { simpl. unfold ENIXNEL_MAX_FILE_SIZE. lia. }
  exists e'. simpl in Hlt. rewrite Hlt by lia.
  rewrite take_ge by lia. by rewrite Hd' in *.
Qed.

(** Append concatenates: two appends whose bytes fit below the capacity
    leave the previous content followed by the first and then the second
    input. *)
Lemma fs_write_file_append_append t nm k e s1 s2 a1 a2 :
  fs_wf t → t !! k = Some e → fs_find_index (Some nm) t = Z.of_nat k →
  is_dir e = false → a1 ≠ 0%Z → a2 ≠ 0%Z →
  size e + length s1 + length s2 < ENIXNEL_MAX_FILE_SIZE →
  ∃ e1 e2,
    fs_write_file (Some nm) (Some s1) (length s1) a1 t = (0%Z, <[k := e1]> t)
    ∧ fs_write_file (Some nm) (Some s2) (length s2) a2 (<[k := e1]> t)
      = (0%Z, <[k := e2]> t)
    ∧ content e1 = content e ++ s1
    ∧ content e2 = content e ++ s1 ++ s2.
Proof.
  intros Hwf He Hf Hd Ha1 Ha2 Hlen.
  pose proof (fs_wf_lookup _ _ _ Hwf He) as Hewf.
  pose proof (lookup_lt_Some _ _ _ He) as Hk.
  rewrite (fs_write_file_existing t nm k e s1 a1 He Hf Hd).
  destruct (fs_write_at_content k s1 (length s1) a1 t e He Hewf ltac:(lia))
    as (e1 & Hw1 & Hu1 & Hd1 & Hn1 & Hsz1 & Hdl1 & Hlt1 & _).
  { destruct (Z.eqb_spec a1 0); [done|]. lia. }
  destruct (Z.eqb_spec a1 0) as [|_]; [done|].
  specialize (Hlt1 ltac:(lia)). rewrite (take_ge s1) in Hlt1 by lia.
  assert (<[k := e1]> t !! k = Some e1) as He1 by by apply list_lookup_insert_eq.
  assert (entry_wf e1) as Hewf1.
  { destruct Hewf as (H1 & H2 & H3 & H4). unfold entry_wf.
    rewrite Hn1, Hsz1, Hdl1. repeat split; [done|done|lia]. }
  assert (fs_find_index (Some nm) (<[k := e1]> t) = Z.of_nat k) as Hf1.
  { rewrite fs_find_index_update; [done| |];
      by rewrite (list_lookup_total_correct _ _ _ He). }
  pose proof (fs_write_file_existing _ nm k e1 s2 a2 He1 Hf1 ltac:(congruence))
    as Hex2.
  destruct (fs_write_at_content k s2 (length s2) a2 (<[k := e1]> t) e1 He1 Hewf1
              ltac:(lia))
    as (e2 & Hw2 & _ & _ & _ & _ & _ & Hlt2 & _).
  { destruct (Z.eqb_spec a2 0); [done|]. lia. }
  destruct (Z.eqb_spec a2 0) as [|_]; [done|].
  specialize (Hlt2 ltac:(lia)). rewrite (take_ge s2) in Hlt2 by lia.
  exists e1, e2. rewrite Hex2, Hw1, Hw2, list_insert_insert_eq.
  split; [done|]. split; [done|]. split; [done|].
  rewrite Hlt2. fold (content e1). by rewrite Hlt1, <- app_assoc.
Qed.

(** C1, at the capacity: writing 512 bytes ['a'] under a new name succeeds
    and creates the file with size 512, but the content it then holds ends
    in the terminator instead of the last input byte. *)
Theorem fs_write_file_512_bytes :
  let s := replicate 512 "a"%char in
  let r := fs_write_file (Some (lit "user/f")) (Some s) 512 0 boot_table in
  fs_find_index (Some (lit "user/f")) boot_table = (-1)%Z
  ∧ fst r = 0%Z
  ∧ fs_find_index (Some (lit "user/f")) (snd r) = 12%Z
  ∧ is_dir (snd r !!! 12) = false
  ∧ size (snd r !!! 12) = 512
  ∧ content (snd r !!! 12) = replicate 511 "a"%char ++ [NUL]
  ∧ content (snd r !!! 12) ≠ s.
Proof.
  cbv zeta.
  assert (content (snd (fs_write_file (Some (lit "user/f"))
                          (Some (replicate 512 "a"%char)) 512 0 boot_table) !!! 12)
          = replicate 511 "a"%char ++ [NUL]) as Hc by (by vm_compute).
  split_and!; [by vm_compute..|].
  rewrite Hc. intros H. apply (f_equal (λ l, l !! 511)) in H.
  vm_compute in H. discriminate H.
Qed.

(** C6, at the capacity: two appends of 256 bytes to a new file both
    succeed and leave size 512, but the content ends in the terminator
    instead of the last byte of the second input; an overwrite with 512
    bytes after an append loses its last byte in the same way. *)
Theorem fs_write_file_append_to_capacity :
  let s1 := replicate 256 "a"%char in
  let s2 := replicate 256 "b"%char in
  let s3 := replicate 512 "c"%char in
  let nm := Some (lit "user/f") in
  let r1 := fs_write_file nm (Some s1) 256 1 boot_table in
  let r2 := fs_write_file nm (Some s2) 256 1 (snd r1) in
  let r3 := fs_write_file nm (Some s3) 512 0 (snd r1) in
  fst r1 = 0%Z ∧ content (snd r1 !!! 12) = s1
  ∧ fst r2 = 0%Z ∧ size (snd r2 !!! 12) = 512
  ∧ content (snd r2 !!! 12) = s1 ++ replicate 255 "b"%char ++ [NUL]
  ∧ content (snd r2 !!! 12) ≠ s1 ++ s2
  ∧ fst r3 = 0%Z ∧ size (snd r3 !!! 12) = 512
  ∧ content (snd r3 !!! 12) = replicate 511 "c"%char ++ [NUL]
  ∧ content (snd r3 !!! 12) ≠ s3.
Proof.
  cbv zeta.
  set (r1 := fs_write_file (Some (lit "user/f")) (Some (replicate 256 "a"%char))
               256 1 boot_table).
  assert (content (snd (fs_write_file (Some (lit "user/f"))
                          (Some (replicate 256 "b"%char)) 256 1 (snd r1)) !!! 12)
          = replicate 256 "a"%char ++ replicate 255 "b"%char ++ [NUL]) as H2
    by (by vm_compute).
  assert (content (snd (fs_write_file (Some (lit "user/f"))
                          (Some (replicate 512 "c"%char)) 512 0 (snd r1)) !!! 12)
          = replicate 511 "c"%char ++ [NUL]) as H3
    by (by vm_compute).
  split_and!;
    [by vm_compute..| |by vm_compute|by vm_compute|by vm_compute|].
  - rewrite H2. intros H. apply (f_equal (λ l, l !! 511)) in H.
    vm_compute in H. discriminate H.
  - rewrite H3. intros H. apply (f_equal (λ l, l !! 511)) in H.
    vm_compute in H. discriminate H.
Qed.

(** * Further properties of the entry table *)

(** ** Lookup *)

Lemma fs_find_index_first b t k e :
  length t = ENIXNEL_MAX_FS_ENTRIES →
  t !! k = Some e → used e = true → entry_name e = cstr b →
  (∀ j ej, j < k → t !! j = Some ej → ¬ (used ej = true ∧ entry_name ej = cstr b)) →
  fs_find_index (Some b) t = Z.of_nat k.
Proof.
  intros Hlen Hk Hu Hn Hfirst.
  destruct (fs_find_index_cases t b Hlen)
    as [[_ Habs]|(k' & e' & -> & Hk' & Hu' & Hn' & Hfirst')].
  - exfalso. apply Habs. by exists k, e.
  - f_equal. destruct (Nat.lt_trichotomy k' k) as [Hlt|[->|Hgt]]; [|done|].
    + exfalso. by apply (Hfirst k' e' Hlt Hk').
    + exfalso. by apply (Hfirst' k e Hgt Hk).
Qed.

Lemma fs_find_index_lookup b t k e :
  length t = ENIXNEL_MAX_FS_ENTRIES → unique_names t →
  t !! k = Some e → used e = true → entry_name e = cstr b →
  fs_find_index (Some b) t = Z.of_nat k.
Proof.
  intros Hlen Huniq Hk Hu Hn. apply (fs_find_index_first b t k e); try done.
  intros j ej Hj Hej [Huj Hnj].
  assert (j = k) by (eapply Huniq; eauto; congruence). lia.
Qed.

(** X1: [fs_find_index] returns -1 for a null pointer; on a table of the
    declared size it returns -1 exactly when no used entry goes by the name,
    and otherwise the lowest slot whose entry is used and goes by it. *)
Theorem fs_find_index_spec t b :
  length t = ENIXNEL_MAX_FS_ENTRIES →
  fs_find_index None t = (-1)%Z
  ∧ (fs_find_index (Some b) t = (-1)%Z ↔ ¬ name_present (cstr b) t)
  ∧ ∀ k, fs_find_index (Some b) t = Z.of_nat k
         ↔ ∃ e, t !! k = Some e ∧ used e = true ∧ entry_name e = cstr b
                ∧ ∀ j ej, j < k → t !! j = Some ej →
                          ¬ (used ej = true ∧ entry_name ej = cstr b).
Proof.
  intros Hlen. split; [done|]. split.
  - split; [by apply fs_find_index_absent|by apply fs_find_index_not_present].
  - intros k. split.
    + intros Hf.
      destruct (fs_find_index_cases t b Hlen)
        as [[Hr _]|(k' & e & Hr & Hk & Hu & Hn & Hfirst)]; [lia|].
      assert (k' = k) as -> by lia. by exists e.
    + intros (e & Hk & Hu & Hn & Hfirst). by eapply fs_find_index_first.
Qed.

Lemma fs_find_index_spec_witness :
  fs_find_index None example_table = (-1)%Z
  ∧ (fs_find_index (Some (lit "user/zz")) example_table = (-1)%Z
     ↔ ¬ name_present (cstr (lit "user/zz")) example_table)
  ∧ ∀ k, fs_find_index (Some (lit "user/zz")) example_table = Z.of_nat k
         ↔ ∃ e, example_table !! k = Some e ∧ used e = true
                ∧ entry_name e = cstr (lit "user/zz")
                ∧ ∀ j ej, j < k → example_table !! j = Some ej →
                          ¬ (used ej = true ∧ entry_name ej = cstr (lit "user/zz")).
Proof.
  apply (fs_find_index_spec example_table (lit "user/zz")).
  vm_compute. reflexivity.
Defined.

(** ** Creation *)

Lemma not_full_free_slot t :
  length t = ENIXNEL_MAX_FS_ENTRIES →
  ¬ Forall (λ e, used e = true) t →
  ∃ k, k < ENIXNEL_MAX_FS_ENTRIES ∧ used (t !!! k) = false.
Proof.
  intros Hlen Hfree.
  apply not_Forall_Exists in Hfree; [|intros e; apply _].
  apply Exists_exists in Hfree as (e & He & Hu).
  apply list_elem_of_lookup in He as [k Hk]. exists k. split.
  - apply lookup_lt_Some in Hk. lia.
  - rewrite (list_lookup_total_correct _ _ _ Hk). by apply not_true_is_false.
Qed.

Lemma fs_alloc_entry_new t src dir :
  fs_wf t →
  0 < fs_strlen src ≤ ENIXNEL_MAX_NAME_LEN →
  ¬ name_present (cstr src) t →
  ¬ Forall (λ e, used e = true) t →
  ∃ k, fs_alloc_entry (Some src) dir t
       = (Z.of_nat k, <[k := alloc_fill (t !!! k) src dir]> t)
       ∧ k < length t
       ∧ used (t !!! k) = false
       ∧ (∀ j, j < k → used (t !!! j) = true)
       ∧ fs_find_index (Some src) (<[k := alloc_fill (t !!! k) src dir]> t)
         = Z.of_nat k.
Proof.
  intros Hwf Hsrc Hnew Hfree. pose proof Hwf as [Hlen Hall].
  destruct (not_full_free_slot t Hlen Hfree) as (k0 & Hk0 & Hu0).
  pose proof (fs_find_index_not_present src t Hlen Hnew) as Hf.
  destruct (fs_alloc_entry_success src dir t k0 Hsrc Hf Hk0 Hu0)
    as (k & Hk & Hu & Hbelow & Ha).
  exists k. split; [done|]. split; [lia|]. split; [done|]. split; [done|].
  apply (fs_find_index_first src _ k (alloc_fill (t !!! k) src dir)).
  - by rewrite length_insert.
  - apply list_lookup_insert_eq. lia.
  - done.
  - apply entry_name_alloc_fill; [by apply fs_wf_lookup_total|lia].
  - intros j ej Hj Hej [Huj Hnj].
    rewrite list_lookup_insert_ne in Hej by lia.
    apply Hnew. by exists j, ej.
Qed.

(** X2: on a well-shaped table that is not full, creating an entry under a
    valid name (1 to 31 characters) that is not present returns 0, fills the
    lowest free slot with a used entry of the requested kind, that name and
    empty content, leaves every other slot as it was, and a lookup of the
    name then returns that slot. *)
Theorem fs_create_then_find t src dir :
  fs_wf t →
  0 < fs_strlen src ≤ ENIXNEL_MAX_NAME_LEN →
  ¬ name_present (cstr src) t →
  ¬ Forall (λ e, used e = true) t →
  let create := if dir : bool then fs_create_dir else fs_create_file in
  ∃ k e',
    create (Some src) t = (0%Z, <[k := e']> t)
    ∧ k < length t
    ∧ used (t !!! k) = false ∧ (∀ j, j < k → used (t !!! j) = true)
    ∧ used e' = true ∧ is_dir e' = dir ∧ entry_name e' = cstr src
    ∧ size e' = 0 ∧ content e' = []
    ∧ (∀ j, j ≠ k → <[k := e']> t !! j = t !! j)
    ∧ fs_find_index (Some src) (<[k := e']> t) = Z.of_nat k.
Proof.
  intros Hwf Hsrc Hnew Hfree create.
  destruct (fs_alloc_entry_new t src dir Hwf Hsrc Hnew Hfree)
    as (k & Ha & Hk & Hu & Hbelow & Hf).
  exists k, (alloc_fill (t !!! k) src dir). split.
  { subst create. destruct dir; unfold fs_create_dir, fs_create_file; rewrite Ha;
      by destruct (Z.leb_spec 0 (Z.of_nat k)); [|lia]. }
  do 3 (split; [done|]). do 2 (split; [done|]). split.
  { apply entry_name_alloc_fill; [by apply fs_wf_lookup_total|lia]. }
  do 2 (split; [done|]). split; [|done].
  intros j Hj. by apply list_lookup_insert_ne.
Qed.

Lemma fs_create_then_find_witness :
  ∃ k e',
    fs_create_dir (Some (lit "user/docs")) example_table
    = (0%Z, <[k := e']> example_table)
    ∧ k < length example_table
    ∧ used (example_table !!! k) = false
    ∧ (∀ j, j < k → used (example_table !!! j) = true)
    ∧ used e' = true ∧ is_dir e' = true
    ∧ entry_name e' = cstr (lit "user/docs")
    ∧ size e' = 0 ∧ content e' = []
    ∧ (∀ j, j ≠ k → <[k := e']> example_table !! j = example_table !! j)
    ∧ fs_find_index (Some (lit "user/docs")) (<[k := e']> example_table)
      = Z.of_nat k.
Proof.
  apply (fs_create_then_find example_table (lit "user/docs") true).
  - apply fs_wfb_correct. vm_compute. reflexivity.
  - vm_compute. lia.
  - apply fs_find_index_absent; vm_compute; reflexivity.
  - intros Hall. apply (Forall_lookup_1 _ _ 20 (example_table !!! 20)) in Hall.
    + vm_compute in Hall. discriminate Hall.
    + vm_compute. reflexivity.
Defined.

(** X3: on a well-shaped table a create call returns 0 or -1; it returns -1
    exactly when the name pointer is null, the name is empty or longer than
    31 characters, a used entry already goes by the name, or every slot is
    used; and whenever it returns -1 the table is unchanged. *)
Theorem fs_create_fails_iff t nm dir :
  fs_wf t →
  let r := (if dir : bool then fs_create_dir else fs_create_file) nm t in
  (fst r = 0%Z ∨ fst r = (-1)%Z)
  ∧ (fst r = (-1)%Z → snd r = t)
  ∧ (fst r = (-1)%Z ↔
       nm = None
       ∨ ∃ src, nm = Some src
           ∧ (fs_strlen src = 0
              ∨ ENIXNEL_MAX_NAME_LEN < fs_strlen src
              ∨ name_present (cstr src) t
              ∨ Forall (λ e, used e = true) t)).
Proof.
  intros Hwf r. pose proof Hwf as [Hlen _].
  assert (r = (if (0 <=? fst (fs_alloc_entry nm dir t))%Z then 0%Z else (-1)%Z,
               snd (fs_alloc_entry nm dir t))) as Hr.
  { subst r. destruct dir; unfold fs_create_dir, fs_create_file;
      by destruct (fs_alloc_entry nm _ t). }
  destruct (fs_alloc_entry_cases nm dir t)
    as [Ha|(src & k & -> & Hsrc & Hf & Hk & Hu & Hbelow & Ha)];
    rewrite Ha in Hr; simpl in Hr; rewrite Hr; simpl.
  - split; [by right|]. split; [done|]. split; [|done]. intros _.
    destruct nm as [src|]; [right|by left]. exists src. split; [done|].
    destruct (decide (fs_strlen src = 0)) as [|H0]; [by left|].
    destruct (decide (ENIXNEL_MAX_NAME_LEN < fs_strlen src)) as [|H1];
      [by right; left|].
    destruct (decide (fs_find_index (Some src) t = (-1)%Z)) as [Hf|Hf].
    2:{ right; right; left.
        destruct (fs_find_index_cases t src Hlen)
          as [[? _]|(k & e & _ & Hk & Hu & Hn & _)]; [done|]. by exists k, e. }
    right; right; right.
    destruct (decide (Forall (λ e, used e = true) t)) as [|Hfree]; [done|].
    destruct (not_full_free_slot t Hlen Hfree) as (k0 & Hk0 & Hu0).
    destruct (fs_alloc_entry_success src dir t k0 ltac:(lia) Hf Hk0 Hu0)
      as (k & _ & _ & _ & Ha').
    rewrite Ha in Ha'. injection Ha' as Hk _. lia.
  - destruct (Z.leb_spec 0 (Z.of_nat k)) as [_|]; [|lia].
    split; [by left|]. split; [done|]. split; [done|].
    intros [|(src' & [= <-] & [H|[H|[H|H]]])]; [done|lia|lia| |].
    + exfalso. by apply (fs_find_index_absent src t Hlen Hf).
    + exfalso. rewrite Forall_lookup in H.
      specialize (H k (t !!! k)). rewrite H in Hu; [done|].
      apply list_lookup_lookup_total_lt. lia.
Qed.

Lemma fs_create_fails_iff_witness :
  let r := fs_create_file (Some (lit "")) example_table in
  (fst r = 0%Z ∨ fst r = (-1)%Z)
  ∧ (fst r = (-1)%Z → snd r = example_table)
  ∧ (fst r = (-1)%Z ↔
       Some (lit "") = None
       ∨ ∃ src, Some (lit "") = Some src
           ∧ (fs_strlen src = 0
              ∨ ENIXNEL_MAX_NAME_LEN < fs_strlen src
              ∨ name_present (cstr src) example_table
              ∨ Forall (λ e, used e = true) example_table)).
Proof.
  apply (fs_create_fails_iff example_table (Some (lit "")) false).
  apply fs_wfb_correct. vm_compute. reflexivity.
Defined.

(** ** Counting entries *)

Lemma used_count_insert t k e e' :
  t !! k = Some e →
  used_count (<[k := e']> t) + (if used e then 1 else 0)
  = used_count t + (if used e' then 1 else 0).
Proof.
  intros Hk. pose proof (lookup_lt_Some _ _ _ Hk) as Hlt.
  unfold used_count. rewrite (insert_take_drop t k e' Hlt).
  rewrite <- (take_drop_middle t k e Hk) at 3.
  rewrite !filter_app, !filter_cons, !length_app.
  destruct (used e), (used e'); repeat case_decide; try done; simpl; lia.
Qed.

(** ** Deletion *)

Lemma fs_find_loop_ext t1 t2 b :
  ∀ n i,
    (∀ j, i ≤ j < i + n →
       used (t1 !!! j) && str_equal (name (t1 !!! j)) b
       = used (t2 !!! j) && str_equal (name (t2 !!! j)) b) →
    fs_find_loop t1 b i n = fs_find_loop t2 b i n.
Proof.
  induction n as [|n IH]; intros i Hsame; simpl; [done|].
  rewrite (Hsame i) by lia.
  destruct (used (t2 !!! i) && str_equal (name (t2 !!! i)) b); [done|].
  apply IH. intros j Hj. apply Hsame. lia.
Qed.

Lemma fs_find_index_delete_other t k b' :
  k < length t → entry_name (t !!! k) ≠ cstr b' →
  fs_find_index (Some b') (<[k := delete_clear (t !!! k)]> t)
  = fs_find_index (Some b') t.
Proof.
  intros Hk Hne. unfold fs_find_index. apply fs_find_loop_ext. intros j _.
  destruct (decide (j = k)) as [->|Hjk].
  - rewrite list_lookup_total_insert_eq by done. simpl.
    destruct (used (t !!! k)); [|done]. simpl. symmetry.
    by apply str_equal_false.
  - by rewrite list_lookup_total_insert_ne.
Qed.

Lemma delete_found t nm k :
  length t = ENIXNEL_MAX_FS_ENTRIES →
  fs_find_index nm t = Z.of_nat k →
  ∃ b, nm = Some b ∧ k < length t
       ∧ used (t !!! k) = true ∧ entry_name (t !!! k) = cstr b.
Proof.
  intros Hlen Hf. destruct nm as [b|]; [|simpl in Hf; lia]. exists b.
  destruct (fs_find_index_cases t b Hlen)
    as [[Hr _]|(k' & e & Hr & Hk & Hu & Hn & _)]; [lia|].
  assert (k' = k) as -> by lia.
  rewrite (list_lookup_total_correct _ _ _ Hk).
  split; [done|]. split; [by eapply lookup_lt_Some|done].
Qed.

Lemma fs_delete_dir_iff t nm :
  length t = ENIXNEL_MAX_FS_ENTRIES → unique_names t →
  (fs_delete_dir nm t = ((-1)%Z, t)
   ∧ ¬ ∃ b, nm = Some b ∧ dir_present (cstr b) t)
  ∨ (∃ k, fs_delete_dir nm t = (0%Z, <[k := delete_clear (t !!! k)]> t)
        ∧ ∃ b, nm = Some b ∧ dir_present (cstr b) t).
Proof.
  intros Hlen Huniq. unfold fs_delete_dir.
  destruct nm as [b|]; [|left; split; [done|by intros (b & [=] & _)]].
  destruct (fs_find_index_cases t b Hlen)
    as [[-> Habs]|(k & e & -> & Hk & Hu & Hn & _)].
  - left. split; [done|]. intros (b' & [= <-] & i & e & Hi & Hu & _ & Hn).
    apply Habs. by exists i, e.
  - destruct (Z.ltb_spec (Z.of_nat k) 0) as [|_]; [lia|].
    rewrite Nat2Z.id, (list_lookup_total_correct _ _ _ Hk).
    destruct (is_dir e) eqn:Hd; simpl.
    + right. exists k. rewrite (list_lookup_total_correct _ _ _ Hk).
      split; [reflexivity|]. exists b. split; [done|]. by exists k, e.
    + left. split; [done|]. intros (b' & [= <-] & i & e' & Hi & Hu' & Hd' & Hn').
      assert (i = k) as -> by (eapply Huniq; eauto; congruence). congruence.
Qed.

Lemma fs_delete_file_iff t nm :
  length t = ENIXNEL_MAX_FS_ENTRIES → unique_names t →
  (fs_delete_file nm t = ((-1)%Z, t)
   ∧ ¬ ∃ b, nm = Some b ∧ file_present (cstr b) t)
  ∨ (∃ k, fs_delete_file nm t = (0%Z, <[k := delete_clear (t !!! k)]> t)
        ∧ ∃ b, nm = Some b ∧ file_present (cstr b) t).
Proof.
  intros Hlen Huniq. unfold fs_delete_file.
  destruct nm as [b|]; [|left; split; [done|by intros (b & [=] & _)]].
  destruct (fs_find_index_cases t b Hlen)
    as [[-> Habs]|(k & e & -> & Hk & Hu & Hn & _)].
  - left. split; [done|]. intros (b' & [= <-] & i & e & Hi & Hu & _ & Hn).
    apply Habs. by exists i, e.
  - destruct (Z.ltb_spec (Z.of_nat k) 0) as [|_]; [lia|].
    rewrite Nat2Z.id, (list_lookup_total_correct _ _ _ Hk).
    destruct (is_dir e) eqn:Hd; simpl.
    + left. split; [done|]. intros (b' & [= <-] & i & e' & Hi & Hu' & Hd' & Hn').
      assert (i = k) as -> by (eapply Huniq; eauto; congruence). congruence.
    + right. exists k. rewrite (list_lookup_total_correct _ _ _ Hk).
      split; [reflexivity|]. exists b. split; [done|]. by exists k, e.
Qed.

(** X4: on a well-shaped table with unique names, [fs_delete_dir] returns 0
    exactly when the name is that of a used directory and [fs_delete_file]
    exactly when it is that of a used file; otherwise (null pointer, name not
    present, or entry of the other kind) they return -1 and leave the table
    unchanged. *)
Theorem fs_delete_succeeds_iff t nm :
  fs_wf t → unique_names t →
  let rd := fs_delete_dir nm t in
  let rf := fs_delete_file nm t in
  (fst rd = 0%Z ∨ fst rd = (-1)%Z) ∧ (fst rf = 0%Z ∨ fst rf = (-1)%Z)
  ∧ (fst rd = (-1)%Z → snd rd = t) ∧ (fst rf = (-1)%Z → snd rf = t)
  ∧ (fst rd = 0%Z ↔ ∃ b, nm = Some b ∧ dir_present (cstr b) t)
  ∧ (fst rf = 0%Z ↔ ∃ b, nm = Some b ∧ file_present (cstr b) t).
Proof.
  intros [Hlen Hwf] Huniq rd rf. subst rd rf.
  destruct (fs_delete_dir_iff t nm Hlen Huniq) as [[-> Hnd]|(kd & -> & Hpd)];
    destruct (fs_delete_file_iff t nm Hlen Huniq) as [[-> Hnf]|(kf & -> & Hpf)];
    simpl; split_and!; auto; try done; split; try done; try lia.
Qed.

Lemma fs_delete_succeeds_iff_witness :
  let rd := fs_delete_dir (Some (lit "user/a")) example_table in
  let rf := fs_delete_file (Some (lit "user/a")) example_table in
  (fst rd = 0%Z ∨ fst rd = (-1)%Z) ∧ (fst rf = 0%Z ∨ fst rf = (-1)%Z)
  ∧ (fst rd = (-1)%Z → snd rd = example_table)
  ∧ (fst rf = (-1)%Z → snd rf = example_table)
  ∧ (fst rd = 0%Z
     ↔ ∃ b, Some (lit "user/a") = Some b ∧ dir_present (cstr b) example_table)
  ∧ (fst rf = 0%Z
     ↔ ∃ b, Some (lit "user/a") = Some b ∧ file_present (cstr b) example_table).
Proof.
  apply (fs_delete_succeeds_iff example_table (Some (lit "user/a"))).
  - apply fs_wfb_correct. vm_compute. reflexivity.
  - apply reachable_inv, reachable_example_table.
Defined.

(** X5: on a well-shaped table with unique names, after a successful delete
    of a name a lookup of that name fails, the lookup of every other name
    gives what it gave before, and one entry less is in use. *)
Theorem fs_delete_then_find t b t' :
  fs_wf t → unique_names t →
  fs_delete_dir (Some b) t = (0%Z, t') ∨ fs_delete_file (Some b) t = (0%Z, t') →
  fs_find_index (Some b) t' = (-1)%Z
  ∧ (∀ b', cstr b' ≠ cstr b →
       fs_find_index (Some b') t' = fs_find_index (Some b') t)
  ∧ S (used_count t') = used_count t.
Proof.
  intros [Hlen Hwf] Huniq Hdel.
  destruct (delete_success_cases (Some b) t t' Hdel) as (k & Hf & ->).
  destruct (delete_found t (Some b) k Hlen Hf) as (b0 & [= <-] & Hk & Hu & Hn).
  pose proof (list_lookup_lookup_total_lt t k Hk) as Hlk.
  split; [|split].
  - apply fs_find_index_not_present; [by rewrite length_insert|].
    intros (i & e & Hi & Hui & Hni).
    apply list_lookup_insert_Some in Hi as [(_ & <- & _)|[Hik Hi]]; [done|].
    apply Hik. symmetry. eapply Huniq; eauto. congruence.
  - intros b' Hb'. apply fs_find_index_delete_other; [done|congruence].
  - pose proof (used_count_insert t k _ (delete_clear (t !!! k)) Hlk) as Hc.
    rewrite Hu in Hc. simpl in Hc. lia.
Qed.

Lemma fs_delete_then_find_witness :
  let t' := snd (fs_delete_file (Some (lit "user/a")) example_table) in
  fs_find_index (Some (lit "user/a")) t' = (-1)%Z
  ∧ (∀ b', cstr b' ≠ cstr (lit "user/a") →
       fs_find_index (Some b') t' = fs_find_index (Some b') example_table)
  ∧ S (used_count t') = used_count example_table.
Proof.
  apply (fs_delete_then_find example_table (lit "user/a")).
  - apply fs_wfb_correct. vm_compute. reflexivity.
  - apply reachable_inv, reachable_example_table.
  - right. apply pair_fst_eq. vm_compute. reflexivity.
Defined.

(** X6: entries come and go one at a time.  On a well-shaped table a
    successful create raises the number of used entries by one, a successful
    delete lowers it by one, a successful write raises it by one when it had
    to create the file and leaves it as it was otherwise, and an operation
    that fails leaves it as it was. *)
Theorem used_count_step t op :
  fs_wf t →
  let r := fs_step op t in
  (fst r ≠ 0%Z → used_count (snd r) = used_count t)
  ∧ (fst r = 0%Z →
       match op with
       | Create_dir _ | Create_file _ => used_count (snd r) = S (used_count t)
       | Delete_dir _ | Delete_file _ => S (used_count (snd r)) = used_count t
       | Write_file nm _ _ _ =>
           used_count (snd r)
           = used_count t + (if decide (fs_find_index nm t = (-1)%Z) then 1 else 0)
       end).
Proof.
  intros [Hlen Hwf] r. subst r.
  assert (∀ nm dir,
            let r := fs_alloc_entry nm dir t in
            (fst r < 0 → snd r = t)%Z
            ∧ (0 ≤ fst r → used_count (snd r) = S (used_count t))%Z) as Halloc.
  { intros nm dir.
    destruct (fs_alloc_entry_cases nm dir t)
      as [->|(src & k & _ & _ & _ & Hk & Hu & _ & ->)]; simpl.
    - split; [done|lia].
    - split; [lia|]. intros _.
      pose proof (used_count_insert t k (t !!! k) (alloc_fill (t !!! k) src dir)
                    ltac:(apply list_lookup_lookup_total_lt; lia)) as Hc.
      rewrite Hu in Hc. simpl in Hc. lia. }
  assert (∀ k, k < length t → used (t !!! k) = true →
            S (used_count (<[k := delete_clear (t !!! k)]> t)) = used_count t)
    as Hdel.
  { intros k Hk Hu.
    pose proof (used_count_insert t k (t !!! k) (delete_clear (t !!! k))
                  ltac:(by apply list_lookup_lookup_total_lt)) as Hc.
    rewrite Hu in Hc. simpl in Hc. lia. }
  destruct op as [nm|nm|nm|nm|nm dat len append]; simpl.
  - destruct (Halloc nm true) as [H1 H2]. unfold fs_create_dir.
    destruct (fs_alloc_entry nm true t) as [idx t1]. simpl in *.
    destruct (Z.leb_spec 0 idx); split; try done; intros _;
      [by apply H2|by rewrite H1 by lia].
  - destruct (Halloc nm false) as [H1 H2]. unfold fs_create_file.
    destruct (fs_alloc_entry nm false t) as [idx t1]. simpl in *.
    destruct (Z.leb_spec 0 idx); split; try done; intros _;
      [by apply H2|by rewrite H1 by lia].
  - destruct (fs_delete_dir_cases nm t) as [->|(k & Hf & _ & ->)]; simpl;
      [done|]. split; [done|]. intros _.
    destruct (delete_found t nm k Hlen Hf) as (b & _ & Hk & Hu & _). by apply Hdel.
  - destruct (fs_delete_file_cases nm t) as [->|(k & Hf & _ & ->)]; simpl;
      [done|]. split; [done|]. intros _.
    destruct (delete_found t nm k Hlen Hf) as (b & _ & Hk & Hu & _). by apply Hdel.
  - destruct (fs_write_file_cases nm dat len append t)
      as [->|[(k & Hf & _ & ->)|(src & k & -> & _ & Hf & Hk & Hu & _ & Hw)]].
    + done.
    + destruct (delete_found t nm k Hlen Hf) as (b & _ & Hk & Hu & _).
      destruct (fs_write_at_cases k (default [] dat) len append t)
        as [(-> & _)|(e' & -> & Hu' & _)]; simpl; [done|].
      split; [done|]. intros _.
      pose proof (used_count_insert t k (t !!! k) e'
                    ltac:(by apply list_lookup_lookup_total_lt)) as Hc.
      rewrite Hu', Hu in Hc. case_decide; lia.
    + simpl in Hw. rewrite Hw. clear Hw.
      set (e1 := alloc_fill (t !!! k) src false).
      assert (<[k := e1]> t !!! k = e1) as ->
        by (apply list_lookup_total_insert_eq; lia).
      rewrite list_insert_insert_eq.
      destruct (fs_write_at_cases k (default [] dat) len append
                  (<[k := reset_file e1]> t))
        as [(_ & _ & Hsz)|(e' & -> & Hu' & _)].
      { rewrite list_lookup_total_insert_eq in Hsz by lia. simpl in Hsz.
        unfold ENIXNEL_MAX_FILE_SIZE in Hsz. lia. }
      simpl. split; [done|]. intros _. rewrite list_insert_insert_eq.
      rewrite list_lookup_total_insert_eq in Hu' by lia. simpl in Hu'.
      pose proof (used_count_insert t k (t !!! k) e'
                    ltac:(apply list_lookup_lookup_total_lt; lia)) as Hc.
      rewrite Hu', Hu in Hc. case_decide; [lia|done].
Qed.

Lemma used_count_step_witness :
  let r := fs_step (Write_file (Some (lit "user/new")) (Some (lit "hi")) 2 0)
             example_table in
  (fst r ≠ 0%Z → used_count (snd r) = used_count example_table)
  ∧ (fst r = 0%Z →
       used_count (snd r)
       = used_count example_table
         + (if decide (fs_find_index (Some (lit "user/new")) example_table
                       = (-1)%Z) then 1 else 0)).
Proof.
  apply (used_count_step example_table
           (Write_file (Some (lit "user/new")) (Some (lit "hi")) 2 0)).
  apply fs_wfb_correct. vm_compute. reflexivity.
Defined.

(** ** Reading *)

Lemma fs_read_file_found t b k e :
  fs_find_index (Some b) t = Z.of_nat k → t !! k = Some e →
  fs_read_file (Some b) t
  = if is_dir e then ((-1)%Z, None) else (0%Z, Some (data e, size e)).
Proof.
  intros Hf Hk. unfold fs_read_file. rewrite Hf, Nat2Z.id.
  destruct (Z.ltb_spec (Z.of_nat k) 0) as [|_]; [lia|].
  by rewrite (list_lookup_total_correct _ _ _ Hk).
Qed.

Lemma fs_read_file_absent t b :
  fs_find_index (Some b) t = (-1)%Z → fs_read_file (Some b) t = ((-1)%Z, None).
Proof. intros Hf. unfold fs_read_file. by rewrite Hf. Qed.

(** X7: on a well-shaped table with unique names, [fs_read_file] returns 0
    exactly for the name of a used file, and then hands back the data array
    and the size of that entry; for a null pointer, a name that is not
    present or the name of a directory it returns -1 and hands back
    nothing. *)
Theorem fs_read_file_spec t b :
  fs_wf t → unique_names t →
  fs_read_file None t = ((-1)%Z, None)
  ∧ (∀ d n, fs_read_file (Some b) t = (0%Z, Some (d, n))
            ↔ ∃ i e, t !! i = Some e ∧ used e = true ∧ is_dir e = false
                     ∧ entry_name e = cstr b ∧ d = data e ∧ n = size e)
  ∧ (¬ file_present (cstr b) t → fs_read_file (Some b) t = ((-1)%Z, None)).
Proof.
  intros [Hlen Hwf] Huniq. split; [done|].
  destruct (fs_find_index_cases t b Hlen)
    as [[Hf Habs]|(k & e & Hf & Hk & Hu & Hn & _)].
  - rewrite (fs_read_file_absent t b Hf). split; [|done].
    intros d n. split; [done|]. intros (i & e & Hi & Hu & _ & Hn & _).
    exfalso. apply Habs. by exists i, e.
  - rewrite (fs_read_file_found t b k e Hf Hk). split.
    + intros d n. destruct (is_dir e) eqn:Hd; split.
      * done.
      * intros (i & e' & Hi & Hu' & Hd' & Hn' & _). exfalso.
        assert (i = k) as -> by (eapply Huniq; eauto; congruence). congruence.
      * intros [= <- <-]. by exists k, e.
      * intros (i & e' & Hi & Hu' & Hd' & Hn' & -> & ->).
        assert (i = k) as -> by (eapply Huniq; eauto; congruence). congruence.
    + intros Habs. destruct (is_dir e) eqn:Hd; [done|].
      exfalso. apply Habs. by exists k, e.
Qed.

Lemma fs_read_file_spec_witness :
  fs_read_file None example_table = ((-1)%Z, None)
  ∧ (∀ d n, fs_read_file (Some (lit "user/a")) example_table = (0%Z, Some (d, n))
            ↔ ∃ i e, example_table !! i = Some e ∧ used e = true
                     ∧ is_dir e = false
                     ∧ entry_name e = cstr (lit "user/a")
                     ∧ d = data e ∧ n = size e)
  ∧ (¬ file_present (cstr (lit "user/a")) example_table →
       fs_read_file (Some (lit "user/a")) example_table = ((-1)%Z, None)).
Proof.
  apply (fs_read_file_spec example_table (lit "user/a")).
  - apply fs_wfb_correct. vm_compute. reflexivity.
  - apply reachable_inv, reachable_example_table.
Defined.

(** ** Writing and reading back *)

Lemma file_content_found t b k e :
  fs_find_index (Some b) t = Z.of_nat k → t !! k = Some e → is_dir e = false →
  file_content b t = Some (content e).
Proof.
  intros Hf Hk Hd. unfold file_content.
  by rewrite (fs_read_file_found t b k e Hf Hk), Hd.
Qed.

Lemma content_length e : entry_wf e → length (content e) = size e.
Proof.
  intros (_ & _ & Hd & Hz). unfold content. rewrite length_take. lia.
Qed.

Lemma file_content_after_write t b s append t' :
  fs_wf t →
  fs_write_file (Some b) (Some s) (length s) append t = (0%Z, t') →
  let old := if (append =? 0)%Z then [] else default [] (file_content b t) in
  length old + length s < ENIXNEL_MAX_FILE_SIZE →
  file_content b t' = Some (old ++ s).
Proof.
  intros Hwf Hw old Hfit. pose proof Hwf as [Hlen Hall].
  destruct (fs_write_file_cases (Some b) (Some s) (length s) append t)
    as [Hc|[(k & Hf & Hd & Hc)|(src & k & [= <-] & Hsrc & Hf & Hk & Hu & Hbelow & _)]].
  - rewrite Hc in Hw. discriminate Hw.
  - destruct (delete_found t (Some b) k Hlen Hf) as (b0 & [= <-] & Hk & Hu & Hn).
    pose proof (list_lookup_lookup_total_lt t k Hk) as Hlk.
    pose proof (fs_wf_lookup t k _ Hwf Hlk) as Hewf.
    pose proof (file_content_found t b k _ Hf Hlk Hd) as Hold.
    assert (old = take (if (append =? 0)%Z then 0 else size (t !!! k))
                    (data (t !!! k))) as Hold'.
    { subst old. rewrite Hold. simpl. by destruct (append =? 0)%Z. }
    assert ((if (append =? 0)%Z then 0 else size (t !!! k)) = length old) as Hoff.
    { subst old. rewrite Hold. simpl. destruct (append =? 0)%Z; [done|].
      by rewrite content_length. }
    destruct (fs_write_at_content k s (length s) append t _ Hlk Hewf ltac:(lia))
      as (e' & Hw' & Hu' & Hd' & Hn' & _ & _ & Hlt & _); [simpl; lia|].
    simpl in Hlt. change (default [] (Some s)) with s in Hc.
    rewrite Hc, Hw' in Hw. injection Hw as <-.
    rewrite (file_content_found _ b k e').
    + rewrite Hlt by lia. rewrite (take_ge s) by lia. by rewrite <- Hold'.
    + rewrite fs_find_index_update; [done|congruence|congruence].
    + by apply list_lookup_insert_eq.
    + congruence.
  - assert (file_content b t = None) as Hold.
    { unfold file_content. by rewrite (fs_read_file_absent t b Hf). }
    assert (old = []) as Hnil.
    { subst old. rewrite Hold. by destruct (append =? 0)%Z. }
    rewrite Hnil in *. simpl in Hfit.
    destruct (fs_write_file_new t b s append Hwf Hsrc
                (fs_find_index_absent b t Hlen Hf)) as (k' & e' & Hw' & Hk' & Hfree
                  & Hu' & Hd' & Hn' & _ & Hlt & _).
    { intros Hfull. rewrite Forall_lookup in Hfull.
      specialize (Hfull k (t !!! k)). rewrite Hfull in Hu; [done|].
      apply list_lookup_lookup_total_lt. lia. }
    rewrite Hw' in Hw. injection Hw as <-.
    rewrite (file_content_found _ b k' e').
    + by rewrite Hlt.
    + apply (fs_find_index_first b _ k' e'); try done.
      * by rewrite length_insert.
      * by apply list_lookup_insert_eq.
      * intros j ej Hj Hej [Huj Hnj].
        rewrite list_lookup_insert_ne in Hej by lia.
        apply (fs_find_index_absent b t Hlen Hf). by exists j, ej.
    + by apply list_lookup_insert_eq.
    + done.
Qed.

(** X8: on a well-shaped table, when a write of the bytes [s] succeeds and
    the result stays below the 512-byte capacity, reading the file back
    gives [s] after an overwrite, and what the file held before followed by
    [s] after an append (nothing before, if the write created the file). *)
Theorem fs_write_then_read t b s append t' :
  fs_wf t →
  fs_write_file (Some b) (Some s) (length s) append t = (0%Z, t') →
  let old := if (append =? 0)%Z then [] else default [] (file_content b t) in
  length old + length s < ENIXNEL_MAX_FILE_SIZE →
  file_content b t' = Some (old ++ s).
Proof.
  intros Hwf Hw old Hfit. subst old.
  by apply (file_content_after_write t b s append t').
Qed.

Lemma fs_write_then_read_witness :
  let t1 := snd (fs_write_file (Some (lit "user/a")) (Some (lit "abc")) 3 1
                   example_table) in
  let t2 := snd (fs_write_file (Some (lit "user/a")) (Some (lit "de")) 2 1 t1) in
  file_content (lit "user/a") t2
  = Some ((if (1 =? 0)%Z then []
           else default [] (file_content (lit "user/a") t1)) ++ lit "de").
Proof.
  cbv zeta.
  apply (fs_write_then_read _ (lit "user/a") (lit "de") 1).
  - apply fs_wfb_correct. vm_compute. reflexivity.
  - apply pair_fst_eq. vm_compute. reflexivity.
  - vm_compute. lia.
Defined.

(** ** When a write fails *)

Lemma fs_alloc_entry_fails_iff t src dir :
  length t = ENIXNEL_MAX_FS_ENTRIES →
  fs_find_index (Some src) t = (-1)%Z →
  (fst (fs_alloc_entry (Some src) dir t) < 0)%Z
  ↔ fs_strlen src = 0 ∨ ENIXNEL_MAX_NAME_LEN < fs_strlen src
    ∨ Forall (λ e, used e = true) t.
Proof.
  intros Hlen Hf. split.
  - intros Hr.
    destruct (decide (fs_strlen src = 0)) as [|H0]; [by left|].
    destruct (decide (ENIXNEL_MAX_NAME_LEN < fs_strlen src)) as [|H1];
      [by right; left|].
    right; right.
    destruct (decide (Forall (λ e, used e = true) t)) as [|Hfree]; [done|].
    destruct (not_full_free_slot t Hlen Hfree) as (k0 & Hk0 & Hu0).
    destruct (fs_alloc_entry_success src dir t k0 ltac:(lia) Hf Hk0 Hu0)
      as (k & _ & _ & _ & Ha).
    rewrite Ha in Hr. simpl in Hr. lia.
  - intros Hcause.
    destruct (fs_alloc_entry_cases (Some src) dir t)
      as [->|(src' & k & [= <-] & Hsrc & _ & Hk & Hu & _ & _)]; [simpl; lia|].
    exfalso. destruct Hcause as [H|[H|H]]; [lia|lia|].
    rewrite Forall_lookup in H. specialize (H k (t !!! k)).
    rewrite H in Hu; [done|]. apply list_lookup_lookup_total_lt. lia.
Qed.

Lemma fs_write_at_fails_iff idx src len append t :
  (fst (fs_write_at idx src len append t) = 0%Z
   ∨ fst (fs_write_at idx src len append t) = (-1)%Z)
  ∧ (fst (fs_write_at idx src len append t) = (-1)%Z
     ↔ append ≠ 0%Z ∧ ENIXNEL_MAX_FILE_SIZE ≤ size (t !!! idx)).
Proof.
  unfold fs_write_at.
  destruct (Z.eqb_spec append 0) as [Ha|Ha].
  - destruct (Nat.leb_spec ENIXNEL_MAX_FILE_SIZE 0) as [H|_];
      [unfold ENIXNEL_MAX_FILE_SIZE in H; lia|].
    simpl. split; [by left|]. split; [done|]. by intros [? _].
  - destruct (Nat.leb_spec ENIXNEL_MAX_FILE_SIZE (size (t !!! idx))) as [H|H];
      simpl.
    + split; [by right|]. done.
    + split; [by left|]. split; [done|]. intros [_ ?]. lia.
Qed.

(** X9: on a well-shaped table with unique names, [fs_write_file] returns 0
    or -1, and it returns -1 exactly when the name pointer is null, the data
    pointer is null with a non-zero length, the name is that of a directory,
    the name is not present and cannot be created (empty, longer than 31
    characters, or no free slot), or the call appends to a file that already
    holds 512 bytes. *)
Theorem fs_write_file_fails_iff t nm dat len append :
  fs_wf t → unique_names t →
  let rc := fst (fs_write_file nm dat len append t) in
  (rc = 0%Z ∨ rc = (-1)%Z)
  ∧ (rc = (-1)%Z ↔
       nm = None
       ∨ (dat = None ∧ 0 < len)
       ∨ ∃ b, nm = Some b
           ∧ (dir_present (cstr b) t
              ∨ (¬ name_present (cstr b) t
                 ∧ (fs_strlen b = 0 ∨ ENIXNEL_MAX_NAME_LEN < fs_strlen b
                    ∨ Forall (λ e, used e = true) t))
              ∨ (append ≠ 0%Z
                 ∧ ∃ i e, t !! i = Some e ∧ used e = true ∧ is_dir e = false
                          ∧ entry_name e = cstr b
                          ∧ ENIXNEL_MAX_FILE_SIZE ≤ size e))).
Proof.
  intros [Hlen Hwf] Huniq rc. subst rc. unfold fs_write_file.
  destruct nm as [b|]; [|simpl; split; [by right|]; split; [by left|done]].
  cbn [is_null orb].
  destruct (is_null dat && (0 <? len)) eqn:Hguard.
  { apply andb_true_iff in Hguard as [Hdat Hpos]. apply Nat.ltb_lt in Hpos.
    destruct dat; [done|]. simpl. split; [by right|]. split; [|done].
    intros _. right; left. done. }
  assert (¬ (dat = None ∧ 0 < len)) as Hng.
  { intros [-> Hpos]. apply Nat.ltb_lt in Hpos. simpl in Hguard.
    rewrite Hpos in Hguard. done. }
  destruct (fs_find_index_cases t b Hlen)
    as [[Hf Habs]|(k & e & Hf & Hk & Hu & Hn & _)]; rewrite Hf.
  - destruct (Z.leb_spec 0 (-1)) as [|_]; [lia|].
    pose proof (fs_alloc_entry_fails_iff t b false Hlen Hf) as Hiff.
    destruct (fs_alloc_entry_cases (Some b) false t)
      as [Ha|(src & k & [= <-] & Hsrc & _ & Hk & Hu & _ & Ha)];
      rewrite Ha in *; simpl in Hiff.
    + simpl. split; [by right|]. split; [|done]. intros _.
      right; right. exists b. split; [done|]. right; left.
      split; [done|]. apply Hiff. lia.
    + destruct (Z.ltb_spec (Z.of_nat k) 0) as [|_]; [lia|]. rewrite Nat2Z.id.
      set (t1 := <[k := alloc_fill (t !!! k) b false]> t).
      pose proof (fs_write_at_fresh k (default [] dat) len append t1
                    (reset_file (t1 !!! k)) eq_refl) as Hok.
      change {| used := used (t1 !!! k); is_dir := is_dir (t1 !!! k);
                name := name (t1 !!! k); size := 0;
                data := <[0 := NUL]> (data (t1 !!! k)) |}
        with (reset_file (t1 !!! k)).
      rewrite Hok. split; [by left|]. split; [done|].
      intros [|[|(b' & [= <-] & [Hp|[[_ Hc]|(_ & i & e & Hi & Hu' & _ & Hn' & _)]])]];
        [done|done| | |].
      * destruct Hp as (i & e & Hi & Hu' & _ & Hn'). exfalso. apply Habs.
        by exists i, e.
      * apply Hiff in Hc. lia.
      * exfalso. apply Habs. by exists i, e.
  - destruct (Z.leb_spec 0 (Z.of_nat k)) as [_|]; [|lia]. rewrite Nat2Z.id.
    rewrite (list_lookup_total_correct _ _ _ Hk).
    destruct (is_dir e) eqn:Hd.
    + simpl. split; [by right|]. split; [|done]. intros _.
      right; right. exists b. split; [done|]. left. by exists k, e.
    + destruct (fs_write_at_fails_iff k (default [] dat) len append t)
        as [Hrc Hiff].
      rewrite (list_lookup_total_correct _ _ _ Hk) in Hiff.
      split; [done|]. rewrite Hiff. split.
      * intros [Ha Hsz]. right; right. exists b. split; [done|].
        right; right. split; [done|]. by exists k, e.
      * intros [|[|(b' & [= <-] & [Hp|[[Hc _]|(Ha & i & e' & Hi & Hu' & _ & Hn' & Hsz)]])]];
          [done|done| | |].
        -- destruct Hp as (i & e' & Hi & Hu' & Hd' & Hn'). exfalso.
           assert (i = k) as -> by (eapply Huniq; eauto; congruence). congruence.
        -- exfalso. apply Hc. by exists k, e.
        -- assert (i = k) as -> by (eapply Huniq; eauto; congruence).
           split; [done|]. congruence.
Qed.

Lemma fs_write_file_fails_iff_witness :
  let rc := fst (fs_write_file (Some (lit "user/b")) (Some (lit "x")) 1 0
                   example_table) in
  (rc = 0%Z ∨ rc = (-1)%Z)
  ∧ (rc = (-1)%Z ↔
       Some (lit "user/b") = None
       ∨ (Some (lit "x") = None ∧ 0 < 1)
       ∨ ∃ b, Some (lit "user/b") = Some b
           ∧ (dir_present (cstr b) example_table
              ∨ (¬ name_present (cstr b) example_table
                 ∧ (fs_strlen b = 0 ∨ ENIXNEL_MAX_NAME_LEN < fs_strlen b
                    ∨ Forall (λ e, used e = true) example_table))
              ∨ ((0 ≠ 0)%Z
                 ∧ ∃ i e, example_table !! i = Some e ∧ used e = true
                          ∧ is_dir e = false
                          ∧ entry_name e = cstr b
                          ∧ ENIXNEL_MAX_FILE_SIZE ≤ size e))).
Proof.
  apply (fs_write_file_fails_iff example_table (Some (lit "user/b"))
           (Some (lit "x")) 1 0).
  - apply fs_wfb_correct. vm_compute. reflexivity.
  - apply reachable_inv, reachable_example_table.
Defined.

(** ** What a write leaves alone *)

Lemma fs_write_file_success_shape t b dat len append t' :
  fs_wf t →
  fs_write_file (Some b) dat len append t = (0%Z, t') →
  ∃ k e',
    t' = <[k := e']> t ∧ k < length t
    ∧ used e' = true ∧ is_dir e' = false ∧ entry_name e' = cstr b
    ∧ (used (t !!! k) = false
       ∨ (used (t !!! k) = true ∧ name e' = name (t !!! k)
          ∧ is_dir (t !!! k) = false)).
Proof.
  intros Hwf Hw. pose proof Hwf as [Hlen Hall].
  destruct (fs_write_file_cases (Some b) dat len append t)
    as [Hc|[(k & Hf & Hd & Hc)|(src & k & [= <-] & Hsrc & Hf & Hk & Hu & _ & Hc)]].
  - rewrite Hc in Hw. discriminate Hw.
  - destruct (delete_found t (Some b) k Hlen Hf) as (b0 & [= <-] & Hk & Hu & Hn).
    rewrite Hc in Hw.
    destruct (fs_write_at_cases k (default [] dat) len append t)
      as [(Hw' & _)|(e' & Hw' & Hu' & Hd' & Hn' & _)]; rewrite Hw' in Hw;
      [discriminate Hw|]. injection Hw as <-.
    exists k, e'. split; [done|]. split; [done|]. split; [congruence|].
    split; [congruence|]. split; [unfold entry_name in *; congruence|].
    right. done.
  - simpl in Hc. rewrite Hc in Hw. clear Hc.
    set (e1 := alloc_fill (t !!! k) b false) in *.
    assert (<[k := e1]> t !!! k = e1) as Ht1
      by (apply list_lookup_total_insert_eq; lia).
    rewrite Ht1, list_insert_insert_eq in Hw.
    destruct (fs_write_at_cases k (default [] dat) len append
                (<[k := reset_file e1]> t))
      as [(Hw' & _)|(e' & Hw' & Hu' & Hd' & Hn' & _)]; rewrite Hw' in Hw;
      [discriminate Hw|]. injection Hw as <-.
    rewrite list_lookup_total_insert_eq in Hu', Hd', Hn' by lia.
    exists k, e'. rewrite list_insert_insert_eq.
    split; [done|]. split; [lia|]. split; [done|]. split; [done|].
    split; [|by left].
    unfold entry_name. rewrite Hn'. simpl.
    apply (entry_name_alloc_fill (t !!! k) b false);
      [by apply fs_wf_lookup_total|lia].
Qed.

(** X10: on a well-shaped table with unique names, a successful write under
    one name keeps every entry that was in use in its slot with its name and
    its kind, and for every other name the lookup and what [fs_read_file]
    hands back are what they were before. *)
Theorem fs_write_file_frame t b dat len append t' :
  fs_wf t → unique_names t →
  fs_write_file (Some b) dat len append t = (0%Z, t') →
  (∀ j e, t !! j = Some e → used e = true →
     ∃ e', t' !! j = Some e' ∧ used e' = true
           ∧ name e' = name e ∧ is_dir e' = is_dir e)
  ∧ ∀ b', cstr b' ≠ cstr b →
      fs_find_index (Some b') t' = fs_find_index (Some b') t
      ∧ fs_read_file (Some b') t' = fs_read_file (Some b') t.
Proof.
  intros Hwf Huniq Hw.
  destruct (fs_write_file_success_shape t b dat len append t' Hwf Hw)
    as (k & e' & -> & Hk & Hu' & Hd' & Hn' & Hold).
  split.
  - intros j e Hj Hu. destruct (decide (j = k)) as [->|Hjk].
    + exists e'. rewrite list_lookup_insert_eq by done.
      rewrite (list_lookup_total_correct _ _ _ Hj) in Hold.
      destruct Hold as [?|(_ & Hn & Hd)]; [congruence|].
      repeat split; congruence.
    + exists e. by rewrite list_lookup_insert_ne.
  - intros b' Hb'.
    assert (∀ j, used (<[k := e']> t !!! j)
                   && str_equal (name (<[k := e']> t !!! j)) b'
                 = used (t !!! j) && str_equal (name (t !!! j)) b') as Hsame.
    { intros j. destruct (decide (j = k)) as [->|Hjk].
      - rewrite list_lookup_total_insert_eq by done.
        assert (str_equal (name e') b' = false) as ->
          by (apply str_equal_false; unfold entry_name in Hn'; congruence).
        rewrite andb_false_r.
        destruct Hold as [->|(_ & <- & _)]; [done|].
        assert (str_equal (name e') b' = false) as ->
          by (apply str_equal_false; unfold entry_name in Hn'; congruence).
        by rewrite andb_false_r.
      - by rewrite list_lookup_total_insert_ne. }
    assert (fs_find_index (Some b') (<[k := e']> t) = fs_find_index (Some b') t)
      as Hfind.
    { unfold fs_find_index. apply fs_find_loop_ext. intros j _. apply Hsame. }
    split; [done|]. unfold fs_read_file. rewrite Hfind.
    destruct (fs_find_loop_cases t b' 0 ENIXNEL_MAX_FS_ENTRIES)
      as [[Hr _]|(j & Hr & _ & Hm & _)]; unfold fs_find_index; rewrite Hr.
    + done.
    + destruct (Z.ltb_spec (Z.of_nat j) 0) as [|_]; [lia|]. rewrite Nat2Z.id.
      destruct (decide (j = k)) as [->|Hjk].
      * exfalso. rewrite <- Hsame, list_lookup_total_insert_eq in Hm by done.
        apply andb_true_iff in Hm as [_ Hm]. apply str_equal_spec in Hm.
        unfold entry_name in Hn'. congruence.
      * by rewrite list_lookup_total_insert_ne.
Qed.

Lemma fs_write_file_frame_witness :
  let t' := snd (fs_write_file (Some (lit "user/a")) (Some (lit "abc")) 3 0
                   example_table) in
  (∀ j e, example_table !! j = Some e → used e = true →
     ∃ e', t' !! j = Some e' ∧ used e' = true
           ∧ name e' = name e ∧ is_dir e' = is_dir e)
  ∧ ∀ b', cstr b' ≠ cstr (lit "user/a") →
      fs_find_index (Some b') t' = fs_find_index (Some b') example_table
      ∧ fs_read_file (Some b') t' = fs_read_file (Some b') example_table.
Proof.
  apply (fs_write_file_frame example_table (lit "user/a") (Some (lit "abc")) 3 0).
  - apply fs_wfb_correct. vm_compute. reflexivity.
  - apply reachable_inv, reachable_example_table.
  - apply pair_fst_eq. vm_compute. reflexivity.
Defined.

(** ** What holds of every entry of a reachable table *)

Lemma Forall_insert_any {A : Type} (P : A → Prop) (l : list A) k x :
  Forall P l → P x → Forall P (<[k := x]> l).
Proof.
  intros Hl Hx. destruct (decide (k < length l)) as [Hk|Hk].
  - by apply Forall_insert.
  - by rewrite list_insert_ge by lia.
Qed.

Lemma entry_sound_alloc_fill e src dir :
  entry_wf e → 0 < fs_strlen src ≤ ENIXNEL_MAX_NAME_LEN →
  entry_sound (alloc_fill e src dir).
Proof.
  intros Hwf Hsrc _. pose proof Hwf as (_ & _ & Hd & _).
  rewrite (entry_name_alloc_fill e src dir) by (done || lia).
  rewrite <- fs_strlen_cstr. split; [lia|]. split; [done|].
  simpl. intros ->. destruct (data e) as [|c d]; [simpl in Hd; done|done].
Qed.

Lemma entry_sound_reset_file e :
  entry_wf e → entry_sound e → entry_sound (reset_file e).
Proof.
  intros (_ & _ & Hd & _) Hs Hu. destruct (Hs Hu) as (Hn & _).
  split; [done|]. split; [done|]. intros _. simpl.
  destruct (data e) as [|c d]; [simpl in Hd; done|done].
Qed.

Lemma fs_write_at_sound k src len append t :
  entry_wf (t !!! k) → entry_sound (t !!! k) → is_dir (t !!! k) = false →
  fs_write_at k src len append t = ((-1)%Z, t)
  ∨ ∃ e', fs_write_at k src len append t = (0%Z, <[k := e']> t)
          ∧ entry_wf e' ∧ entry_sound e'.
Proof.
  intros Hwf Hs Hd.
  destruct (fs_write_at_cases k src len append t)
    as [(-> & _)|(e' & Hw & Hu' & Hd' & Hn' & Hwf')]; [by left|].
  right. exists e'. split; [done|]. split; [by apply Hwf'|].
  intros Hu. rewrite Hu' in Hu. destruct (Hs Hu) as (Hn & _).
  split; [unfold entry_name in *; by rewrite Hn'|].
  split; [congruence|]. intros _.
  unfold fs_write_at in Hw.
  destruct (ENIXNEL_MAX_FILE_SIZE <=? _) eqn:Ho; [discriminate Hw|].
  apply Nat.leb_gt in Ho. injection Hw as Hw.
  destruct Hwf as (_ & _ & Hdl & _).
  set (offset := if (append =? 0)%Z then 0 else size (t !!! k)) in *.
  set (n := if ENIXNEL_MAX_FILE_SIZE - offset <? len
            then ENIXNEL_MAX_FILE_SIZE - offset else len) in *.
  assert (offset + n ≤ ENIXNEL_MAX_FILE_SIZE) as Hn512.
  { subst n. destruct (Nat.ltb_spec (ENIXNEL_MAX_FILE_SIZE - offset) len); lia. }
  destruct (decide (k < length t)) as [Hk|Hk].
  2:{ rewrite !list_insert_ge in Hw by lia.
      (* the slot is outside the table: nothing was stored *)
      exfalso. rewrite list_lookup_total_alt, lookup_ge_None_2 in Hu by lia.
      simpl in Hu. discriminate Hu. }
  apply (f_equal (λ l, l !!! k)) in Hw.
  rewrite !list_lookup_total_insert_eq in Hw by done. subst e'.
  cbn [size data]. unfold char_at. rewrite nth_lookup.
  unfold ENIXNEL_MAX_FILE_SIZE in *.
  destruct (Nat.ltb_spec (offset + n) 512) as [Hlt|Hge].
  - rewrite Nat.min_l by lia.
    by rewrite list_lookup_insert_eq by (rewrite length_write_loop; lia).
  - rewrite Nat.min_r by lia.
    by rewrite list_lookup_insert_eq by (rewrite length_write_loop; lia).
Qed.

Lemma fs_step_sound op t :
  fs_wf t → Forall entry_sound t → Forall entry_sound (snd (fs_step op t)).
Proof.
  intros Hwf Hs.
  assert (∀ nm dir, Forall entry_sound (snd (fs_alloc_entry nm dir t))) as Halloc.
  { intros nm dir.
    destruct (fs_alloc_entry_cases nm dir t)
      as [->|(src & k & _ & Hsrc & _ & _ & _ & _ & ->)]; [done|].
    simpl. apply Forall_insert_any; [done|].
    apply entry_sound_alloc_fill; [by apply fs_wf_lookup_total|done]. }
  assert (∀ k, Forall entry_sound (<[k := delete_clear (t !!! k)]> t)) as Hdel.
  { intros k. apply Forall_insert_any; [done|]. intros Hu. discriminate Hu. }
  assert (∀ k, entry_sound (t !!! k)) as Htot.
  { intros k. rewrite list_lookup_total_alt.
    destruct (t !! k) as [e|] eqn:Hk; simpl.
    - by eapply Forall_lookup_1.
    - intros Hu. discriminate Hu. }
  destruct op as [nm|nm|nm|nm|nm dat len append]; simpl.
  - specialize (Halloc nm true). unfold fs_create_dir.
    by destruct (fs_alloc_entry nm true t).
  - specialize (Halloc nm false). unfold fs_create_file.
    by destruct (fs_alloc_entry nm false t).
  - destruct (fs_delete_dir_cases nm t) as [->|(k & _ & _ & ->)]; simpl;
      [done|apply Hdel].
  - destruct (fs_delete_file_cases nm t) as [->|(k & _ & _ & ->)]; simpl;
      [done|apply Hdel].
  - destruct (fs_write_file_cases nm dat len append t)
      as [->|[(k & _ & Hd & ->)|(src & k & -> & Hsrc & _ & Hk & _ & _ & Hw)]].
    + done.
    + destruct (fs_write_at_sound k (default [] dat) len append t
                  (fs_wf_lookup_total t k Hwf) (Htot k) Hd)
        as [->|(e' & -> & _ & He')]; [done|].
      simpl. by apply Forall_insert_any.
    + simpl in Hw. rewrite Hw. clear Hw. destruct Hwf as [Hlen Hall].
      set (e1 := alloc_fill (t !!! k) src false).
      assert (entry_wf e1) as Hwf1.
      { apply entry_wf_alloc_fill; [by apply fs_wf_lookup_total|lia]. }
      assert (entry_sound e1) as Hs1.
      { apply entry_sound_alloc_fill; [by apply fs_wf_lookup_total|done]. }
      rewrite list_lookup_total_insert_eq, list_insert_insert_eq by lia.
      set (t2 := <[k := reset_file e1]> t).
      assert (t2 !!! k = reset_file e1) as Ht2
        by (apply list_lookup_total_insert_eq; lia).
      destruct (fs_write_at_sound k (default [] dat) len append t2)
        as [->|(e' & -> & _ & He')].
      * rewrite Ht2. by apply entry_wf_reset_file.
      * rewrite Ht2. by apply entry_sound_reset_file.
      * by rewrite Ht2.
      * simpl. apply Forall_insert_any; [done|]. by apply entry_sound_reset_file.
      * simpl. subst t2. rewrite list_insert_insert_eq.
        by apply Forall_insert_any.
Qed.

Lemma fs_step_sound_inv op t :
  fs_inv t ∧ Forall entry_sound t →
  fs_inv (snd (fs_step op t)) ∧ Forall entry_sound (snd (fs_step op t)).
Proof.
  intros [Hinv Hs]. split; [by apply fs_step_inv|].
  apply fs_step_sound; [apply Hinv|done].
Qed.

Lemma fs_create_file_sound_inv nm t :
  fs_inv t ∧ Forall entry_sound t →
  fs_inv (snd (fs_create_file nm t))
  ∧ Forall entry_sound (snd (fs_create_file nm t)).
Proof. exact (fs_step_sound_inv (Create_file nm) t). Qed.

Lemma fs_create_dir_sound_inv nm t :
  fs_inv t ∧ Forall entry_sound t →
  fs_inv (snd (fs_create_dir nm t))
  ∧ Forall entry_sound (snd (fs_create_dir nm t)).
Proof. exact (fs_step_sound_inv (Create_dir nm) t). Qed.

Lemma reachable_sound t : reachable t → fs_wf t ∧ Forall entry_sound t.
Proof.
  intros Hr. cut (fs_inv t ∧ Forall entry_sound t).
  { intros [[Hwf _] Hs]. done. }
  induction Hr as [|t op Hr IH]; [|by apply fs_step_sound_inv].
  unfold fs_init_layout. cbv zeta.
  repeat lazymatch goal with
    | |- fs_inv (snd (fs_create_file _ _)) ∧ _ => apply fs_create_file_sound_inv
    | |- fs_inv (snd (fs_create_dir _ _)) ∧ _ => apply fs_create_dir_sound_inv
    end.
  split; [exact fs_entries_zero_inv|].
  apply Forall_forall. intros e He Hu. exfalso.
  apply elem_of_replicate in He as [-> _]. discriminate Hu.
Qed.

(** X11: in every state reached from the boot layout, every slot has a size
    of at most 512 and a name of at most 31 characters; every used entry has
    a non-empty name; a directory has size 0; and the bytes of a file are
    followed by a terminator inside its 512-byte array (in the last cell
    when the size is 512). *)
Theorem reachable_entries_sound t i e :
  reachable t → t !! i = Some e →
  size e ≤ ENIXNEL_MAX_FILE_SIZE
  ∧ length (entry_name e) ≤ ENIXNEL_MAX_NAME_LEN
  ∧ (used e = true →
       0 < length (entry_name e)
       ∧ (is_dir e = true → size e = 0)
       ∧ (is_dir e = false →
            char_at (data e) (size e `min` (ENIXNEL_MAX_FILE_SIZE - 1)) = NUL)).
Proof.
  intros Hr Hi. destruct (reachable_sound t Hr) as [Hwf Hs].
  pose proof (fs_wf_lookup t i e Hwf Hi) as Hewf.
  split; [apply Hewf|]. split; [by apply entry_name_length|].
  by apply (Forall_lookup_1 _ _ _ _ Hs Hi).
Qed.

Lemma reachable_entries_sound_witness :
  size (example_table !!! 13) ≤ ENIXNEL_MAX_FILE_SIZE
  ∧ length (entry_name (example_table !!! 13)) ≤ ENIXNEL_MAX_NAME_LEN
  ∧ (used (example_table !!! 13) = true →
       0 < length (entry_name (example_table !!! 13))
       ∧ (is_dir (example_table !!! 13) = true → size (example_table !!! 13) = 0)
       ∧ (is_dir (example_table !!! 13) = false →
            char_at (data (example_table !!! 13))
              (size (example_table !!! 13) `min` (ENIXNEL_MAX_FILE_SIZE - 1))
            = NUL)).
Proof.
  apply (reachable_entries_sound example_table 13).
  - exact reachable_example_table.
  - vm_compute. reflexivity.
Defined.

(** * Further properties of the path helpers *)

(** X12: with an empty output buffer [path_join] leaves the buffer as it is;
    otherwise it stores the name when the prefix is empty and prefix,
    separator, name when it is not, cut to [out_size - 1] characters, so that
    the result with its terminator fits the buffer and holds no terminator
    inside. *)
Theorem path_join_result dir nm out out_size :
  (out_size = 0 → path_join dir nm out out_size = out)
  ∧ (0 < out_size →
       path_join dir nm out out_size
       = take (out_size - 1)
           (if decide (cstr dir = []) then cstr nm
            else cstr dir ++ SLASH :: cstr nm)
       ∧ length (path_join dir nm out out_size) < out_size
       ∧ NUL ∉ path_join dir nm out out_size).
Proof.
  split.
  - intros ->. done.
  - intros Hsz. split; [by apply path_join_spec|]. split.
    + pose proof (path_join_length dir nm out out_size Hsz). lia.
    + by apply path_join_no_NUL.
Qed.

Lemma path_parent_basename_app path out out_size p b :
  cstr path = p ++ SLASH :: b → SLASH ∉ b → length (cstr path) < out_size →
  path_parent path out out_size = p ∧ path_basename path out out_size = b.
Proof.
  intros Hs Hb Hlen. rewrite path_parent_spec, path_basename_spec by lia.
  unfold derived_parent, derived_basename. rewrite Hs, split_last_slash_app by done.
  rewrite Hs, length_app in Hlen. simpl in *.
  rewrite !take_ge by lia. done.
Qed.

Lemma path_parent_basename_none path out out_size :
  SLASH ∉ cstr path → length (cstr path) < out_size →
  path_parent path out out_size = []
  ∧ path_basename path out out_size = cstr path.
Proof.
  intros Hs Hlen. rewrite path_parent_spec, path_basename_spec by lia.
  destruct (split_last_slash_cases (cstr path))
    as [(_ & -> & ->)|(p & b & Heq & _)].
  - rewrite take_nil, take_ge by lia. done.
  - exfalso. apply Hs. rewrite Heq, elem_of_app, elem_of_cons. auto.
Qed.

(** X13: for a path that fits the output buffer, [path_parent] is everything
    before the last separator and [path_basename] everything after it; when
    the path has no separator the parent is empty and the basename is the
    whole path. *)
Theorem path_parent_basename_split path out out_size :
  length (cstr path) < out_size →
  (SLASH ∉ cstr path →
     path_parent path out out_size = []
     ∧ path_basename path out out_size = cstr path)
  ∧ (∀ p b, cstr path = p ++ SLASH :: b → SLASH ∉ b →
       path_parent path out out_size = p
       ∧ path_basename path out out_size = b).
Proof.
  intros Hlen. split.
  - intros Hs. by apply path_parent_basename_none.
  - intros p b Hs Hb. by apply path_parent_basename_app.
Qed.

Lemma path_parent_basename_split_witness :
  (SLASH ∉ cstr (lit "user/b/c") →
     path_parent (lit "user/b/c") [] 32 = []
     ∧ path_basename (lit "user/b/c") [] 32 = cstr (lit "user/b/c"))
  ∧ (∀ p b, cstr (lit "user/b/c") = p ++ SLASH :: b → SLASH ∉ b →
       path_parent (lit "user/b/c") [] 32 = p
       ∧ path_basename (lit "user/b/c") [] 32 = b).
Proof.
  apply (path_parent_basename_split (lit "user/b/c") [] 32).
  vm_compute. lia.
Defined.

(** X14: when the name holds no separator and prefix, separator and name
    fit the output buffer, the basename of the join of a prefix and a name
    is the name (also for the empty prefix). *)
Theorem path_basename_join p n out out' out_size :
  SLASH ∉ cstr n →
  length (cstr p) + 1 + length (cstr n) < out_size →
  path_basename (path_join p n out out_size) out' out_size = cstr n.
Proof.
  intros Hn Hsz.
  pose proof (path_join_no_NUL p n out out_size ltac:(lia)) as Hnul.
  pose proof (path_join_spec p n out out_size ltac:(lia)) as Hj.
  destruct (decide (cstr p = [])) as [Hp|Hp].
  - rewrite take_ge in Hj by lia.
    destruct (path_parent_basename_none (path_join p n out out_size) out' out_size)
      as [_ ->]; rewrite ?cstr_id by done; rewrite Hj; [done|lia|done].
  - rewrite take_ge in Hj by (rewrite length_app; simpl; lia).
    destruct (path_parent_basename_app (path_join p n out out_size) out' out_size
                (cstr p) (cstr n)) as [_ ->]; rewrite ?cstr_id by done;
      rewrite ?Hj; [done|done| |done].
    rewrite length_app. simpl. lia.
Qed.

Lemma path_basename_join_witness :
  path_basename (path_join (lit "user/b") (lit "c") [] 32) [] 32 = cstr (lit "c").
Proof.
  apply (path_basename_join (lit "user/b") (lit "c") [] [] 32).
  - apply (bool_decide_unpack _). vm_compute. reflexivity.
  - vm_compute. lia.
Defined.

(** X15: splitting and joining again gives the path back: for a path that
    fits the buffer and either has no separator or has a non-empty parent,
    the join of its parent and its basename is the path.  (A path that
    starts with its only separator has an empty parent, and the join then
    drops the separator.) *)
Theorem path_join_parent_basename path out out' out_size :
  length (cstr path) < out_size →
  SLASH ∉ cstr path ∨ path_parent path out out_size ≠ [] →
  path_join (path_parent path out out_size) (path_basename path out out_size)
    out' out_size
  = cstr path.
Proof.
  intros Hlen Hcase. rewrite path_join_spec by lia.
  destruct (split_last_slash_cases (cstr path))
    as [(Hno & _ & _)|(p & b & Hs & Hb & _ & _)].
  - destruct (path_parent_basename_none path out out_size Hno Hlen) as [-> ->].
    simpl. rewrite cstr_idemp. apply take_ge. lia.
  - destruct (path_parent_basename_app path out out_size p b Hs Hb Hlen)
      as [Hp Hbn]. rewrite Hp, Hbn in *.
    assert ((NUL ∉ p) ∧ (NUL ∉ b)) as [Hpn Hbnul].
    { pose proof (cstr_no_NUL path) as Hnul.
      rewrite Hs, not_elem_of_app, not_elem_of_cons in Hnul. tauto. }
    rewrite !cstr_id by done.
    destruct (decide (p = [])) as [->|Hne].
    + exfalso. destruct Hcase as [Hno|Hne]; [|done].
      apply Hno. rewrite Hs. simpl. apply elem_of_cons. by left.
    + rewrite <- Hs. apply take_ge. lia.
Qed.

Lemma path_join_parent_basename_witness :
  path_join (path_parent (lit "user/b/c") [] 32) (path_basename (lit "user/b/c") [] 32)
    [] 32
  = cstr (lit "user/b/c").
Proof.
  apply (path_join_parent_basename (lit "user/b/c") [] [] 32).
  - vm_compute. lia.
  - right. vm_compute. discriminate.
Defined.

(** * Further properties of the command parsing *)

Lemma skip_spaces_replicate n l :
  skip_spaces (replicate n SPACE ++ l) = skip_spaces l.
Proof.
  induction n as [|n IH]; simpl; [done|].
  by destruct (Ascii.eqb_spec SPACE SPACE).
Qed.

Lemma skip_spaces_token tok rest :
  SPACE ∉ tok → tok ≠ [] → skip_spaces (tok ++ rest) = tok ++ rest.
Proof.
  destruct tok as [|c tok]; [done|]. intros Hc _. simpl.
  apply not_elem_of_cons in Hc as [Hc _].
  destruct (Ascii.eqb_spec c SPACE); congruence.
Qed.

Lemma command_loop_spec size rest :
  (∀ c r, rest = c :: r → c = SPACE ∨ c = NUL) →
  ∀ tok out,
    SPACE ∉ tok → NUL ∉ tok →
    command_loop (tok ++ rest) size out
    = (out ++ take (size - 1 - length out) tok,
       drop (size - 1 - length out) tok ++ rest).
Proof.
  intros Hrest. induction tok as [|c tok IH]; intros out Hsp Hnul.
  - simpl. rewrite take_nil, drop_nil, app_nil_r. simpl.
    destruct rest as [|c r]; [done|]. simpl.
    destruct (Hrest c r eq_refl) as [->| ->].
    + destruct (Ascii.eqb_spec SPACE NUL); [done|].
      destruct (Ascii.eqb_spec SPACE SPACE); [done|congruence].
    + by destruct (Ascii.eqb_spec NUL NUL).
  - apply not_elem_of_cons in Hsp as [Hc1 Hsp].
    apply not_elem_of_cons in Hnul as [Hc2 Hnul]. simpl.
    destruct (Ascii.eqb_spec c NUL) as [|_]; [congruence|].
    destruct (Ascii.eqb_spec c SPACE) as [|_]; [congruence|]. simpl.
    destruct (Nat.ltb_spec (length out + 1) size) as [Hlt|Hge].
    + rewrite IH by done. rewrite length_app. simpl.
      replace (size - 1 - length out) with (S (size - 1 - (length out + 1)))
        by lia.
      simpl. by rewrite <- app_assoc.
    + replace (size - 1 - length out) with 0 by lia.
      simpl. by rewrite app_nil_r.
Qed.

Lemma token_loop_command_loop size : ∀ p out,
  token_loop p size out = fst (command_loop p size out).
Proof.
  induction p as [|c p IH]; intros out; simpl; [done|].
  by destruct (negb (Ascii.eqb c NUL) && negb (Ascii.eqb c SPACE)
               && (length out + 1 <? size)).
Qed.

Lemma token_loop_bounds size : ∀ p out,
  SPACE ∉ out →
  (SPACE ∉ token_loop p size out)
  ∧ length (token_loop p size out) ≤ length out `max` (size - 1).
Proof.
  induction p as [|c p IH]; intros out Hout; simpl; [split; [done|lia]|].
  destruct (Ascii.eqb_spec c NUL) as [->|Hc]; simpl; [split; [done|lia]|].
  destruct (Ascii.eqb_spec c SPACE) as [->|Hs]; simpl; [split; [done|lia]|].
  destruct (Nat.ltb_spec (length out + 1) size) as [Hlt|Hge]; [|split; [done|lia]].
  destruct (IH (out ++ [c])) as [H1 H2].
  - rewrite not_elem_of_app, not_elem_of_cons.
    split; [done|]. split; [congruence|apply not_elem_of_nil].
  - split; [done|]. rewrite length_app in H2. simpl in H2. lia.
Qed.

(** X16: what [cli_first_arg] extracts never holds a space or a terminator
    and is shorter than the buffer.  When the argument string is spaces, then
    a non-empty token free of spaces and terminators, then nothing or a
    space or a terminator, it is that token cut to [arg_out_size - 1]
    characters; when the string is only spaces it is empty. *)
Theorem cli_first_arg_token :
  (∀ args size,
     (SPACE ∉ cli_first_arg args size) ∧ (NUL ∉ cli_first_arg args size)
     ∧ (0 < size → length (cli_first_arg args size) < size))
  ∧ (∀ n tok rest size,
       SPACE ∉ tok → NUL ∉ tok → tok ≠ [] →
       (∀ c r, rest = c :: r → c = SPACE ∨ c = NUL) →
       cli_first_arg (replicate n SPACE ++ tok ++ rest) size
       = take (size - 1) tok)
  ∧ (∀ n rest size,
       (∀ c r, rest = c :: r → c = NUL) →
       cli_first_arg (replicate n SPACE ++ rest) size = []).
Proof.
  split; [|split].
  - intros args size. unfold cli_first_arg.
    destruct (token_loop_bounds size (skip_spaces args) [])
      as [H1 H2]; [apply not_elem_of_nil|].
    split; [done|]. split; [apply token_loop_no_NUL, not_elem_of_nil|].
    simpl in H2. lia.
  - intros n tok rest size Hsp Hnul Hne Hrest. unfold cli_first_arg.
    rewrite skip_spaces_replicate, skip_spaces_token by done.
    rewrite token_loop_command_loop, command_loop_spec by done.
    simpl. by rewrite Nat.sub_0_r.
  - intros n rest size Hrest. unfold cli_first_arg.
    rewrite skip_spaces_replicate. destruct rest as [|c r]; [done|].
    rewrite (Hrest c r eq_refl). simpl.
    destruct (Ascii.eqb_spec NUL SPACE); [done|]. simpl.
    by destruct (Ascii.eqb_spec NUL NUL).
Qed.

Lemma cli_first_arg_token_witness :
  cli_first_arg (replicate 2 SPACE ++ lit "notes.txt" ++ lit " and more") 32
  = take (32 - 1) (lit "notes.txt").
Proof.
  apply (proj1 (proj2 cli_first_arg_token) 2 (lit "notes.txt") (lit " and more") 32).
  - apply (bool_decide_unpack _). vm_compute. reflexivity.
  - apply (bool_decide_unpack _). vm_compute. reflexivity.
  - vm_compute. discriminate.
  - intros c r [= <- _]. by left.
Defined.

(** X17: [cli_split_command] on a line made of spaces, a non-empty token
    free of spaces and terminators, and a rest that is empty or starts with
    a space or a terminator: the command is the token cut to
    [cmd_out_size - 1] characters, and the arguments are what follows the
    characters taken, leading spaces skipped.  So a token of at most 15
    characters is the command and the rest is its arguments, while the tail
    of a longer token is handed on as the start of the arguments. *)
Theorem cli_split_command_token n tok rest size :
  SPACE ∉ tok → NUL ∉ tok → tok ≠ [] →
  (∀ c r, rest = c :: r → c = SPACE ∨ c = NUL) →
  cli_split_command (replicate n SPACE ++ tok ++ rest) size
  = (take (size - 1) tok, skip_spaces (drop (size - 1) tok ++ rest))
  ∧ (length tok < size →
       cli_split_command (replicate n SPACE ++ tok ++ rest) size
       = (tok, skip_spaces rest))
  ∧ (size ≤ length tok → 1 < size →
       cli_split_command (replicate n SPACE ++ tok ++ rest) size
       = (take (size - 1) tok, drop (size - 1) tok ++ rest)).
Proof.
  intros Hsp Hnul Hne Hrest.
  assert (cli_split_command (replicate n SPACE ++ tok ++ rest) size
          = (take (size - 1) tok, skip_spaces (drop (size - 1) tok ++ rest)))
    as Heq.
  { unfold cli_split_command.
    rewrite skip_spaces_replicate, skip_spaces_token by done.
    rewrite command_loop_spec by done. simpl. by rewrite Nat.sub_0_r. }
  split; [done|]. split.
  - intros Hlt. rewrite Heq, take_ge, drop_ge by lia. done.
  - intros Hge Hsz. rewrite Heq. f_equal.
    apply skip_spaces_token.
    + intros Hin. apply Hsp. by apply (subseteq_drop (size - 1)).
    + intros Hnil. apply (f_equal length) in Hnil.
      rewrite length_drop in Hnil. simpl in Hnil. lia.
Qed.

Lemma cli_split_command_token_witness :
  cli_split_command (replicate 1 SPACE ++ lit "efile" ++ lit "  hi > f") 16
  = (take (16 - 1) (lit "efile"),
     skip_spaces (drop (16 - 1) (lit "efile") ++ lit "  hi > f"))
  ∧ (length (lit "efile") < 16 →
       cli_split_command (replicate 1 SPACE ++ lit "efile" ++ lit "  hi > f") 16
       = (lit "efile", skip_spaces (lit "  hi > f")))
  ∧ (16 ≤ length (lit "efile") → 1 < 16 →
       cli_split_command (replicate 1 SPACE ++ lit "efile" ++ lit "  hi > f") 16
       = (take (16 - 1) (lit "efile"), drop (16 - 1) (lit "efile") ++ lit "  hi > f")).
Proof.
  apply (cli_split_command_token 1 (lit "efile") (lit "  hi > f") 16).
  - apply (bool_decide_unpack _). vm_compute. reflexivity.
  - apply (bool_decide_unpack _). vm_compute. reflexivity.
  - vm_compute. discriminate.
  - intros c r [= <- _]. by left.
Defined.

(** * Further properties of the shell commands *)

(** ** Changing directory *)

Lemma char_at_0_NUL nm : NUL ∉ nm → Ascii.eqb (char_at nm 0) NUL = true ↔ nm = [].
Proof.
  intros Hnul. destruct nm as [|c nm']; [done|].
  apply not_elem_of_cons in Hnul as [Hc _]. unfold char_at. simpl.
  destruct (Ascii.eqb_spec c NUL); split; congruence.
Qed.

Lemma lit_no_NUL_dot : (NUL ∉ lit ".") ∧ (NUL ∉ lit "..").
Proof. split; apply (bool_decide_unpack _); by vm_compute. Qed.

Lemma path_parent_current cur :
  set_current_dir (path_parent cur [] (S ENIXNEL_MAX_NAME_LEN)) []
  = take ENIXNEL_MAX_NAME_LEN (derived_parent (cstr cur)).
Proof.
  rewrite path_parent_spec by lia.
  replace (S ENIXNEL_MAX_NAME_LEN - 1) with ENIXNEL_MAX_NAME_LEN by lia.
  apply set_current_dir_spec.
  - apply NUL_not_in_take, derived_parent_no_NUL, cstr_no_NUL.
  - rewrite length_take. change (length (@nil ascii)) with 0. lia.
Qed.

(** X18: the special cases of [cd].  Without a name it prints
    [cd: missing name] and changes nothing else; for [.] it changes nothing
    at all; for [..] it replaces the current directory by its derived parent
    (everything before its last separator, nothing when there is none, so
    the root stays the root) without looking at the table and without
    printing. *)
Theorem cli_cmd_cd_special args st :
  let nm := cli_first_arg args (S ENIXNEL_MAX_NAME_LEN) in
  (nm = [] →
     cli_cmd_cd args st
     = {| fs_entries := fs_entries st; current_dir := current_dir st;
          console := console st ++ lit "cd: missing name" ++ [NEWLINE] |})
  ∧ (nm = lit "." → cli_cmd_cd args st = st)
  ∧ (nm = lit ".." →
       cli_cmd_cd args st
       = {| fs_entries := fs_entries st;
            current_dir :=
              take ENIXNEL_MAX_NAME_LEN (derived_parent (cstr (current_dir st)));
            console := console st |}).
Proof.
  intros nm. unfold cli_cmd_cd. fold nm.
  split; [|split]; intros ->.
  - simpl. unfold console_write_line, console_putc, console_write.
    by rewrite <- app_assoc.
  - done.
  - change (Ascii.eqb (char_at (lit "..") 0) NUL) with false.
    change (k_streq (lit "..") (lit ".")) with false.
    change (k_streq (lit "..") (lit "..")) with true.
    cbv iota. by rewrite path_parent_current.
Qed.

Lemma cli_cmd_cd_enter t cur con args :
  fs_wf t → unique_names t →
  let nm := cli_first_arg args (S ENIXNEL_MAX_NAME_LEN) in
  nm ≠ [] → nm ≠ lit "." → nm ≠ lit ".." →
  let target := path_join cur nm [] (S ENIXNEL_MAX_NAME_LEN) in
  dir_present target t →
  cli_cmd_cd args (mk_shell t cur con) = mk_shell t target con.
Proof.
  intros [Hlen Hwf] Huniq nm Hne Hdot Hdotdot target (i & e & Hi & Hu & Hd & Hn).
  pose proof (cli_first_arg_no_NUL args (S ENIXNEL_MAX_NAME_LEN)) as Hnul.
  fold nm in Hnul.
  assert (NUL ∉ target) as Htnul by (apply path_join_no_NUL; lia).
  assert (length target ≤ ENIXNEL_MAX_NAME_LEN) as Htlen.
  { pose proof (path_join_length cur nm [] (S ENIXNEL_MAX_NAME_LEN)) as H.
    fold target in H. lia. }
  assert (Ascii.eqb (char_at nm 0) NUL = false) as H0.
  { destruct (Ascii.eqb (char_at nm 0) NUL) eqn:E; [|done].
    by apply char_at_0_NUL in E. }
  assert (k_streq nm (lit ".") = false) as H1.
  { destruct (k_streq nm (lit ".")) eqn:E; [|done].
    apply k_streq_no_NUL in E; [done|done|apply lit_no_NUL_dot]. }
  assert (k_streq nm (lit "..") = false) as H2.
  { destruct (k_streq nm (lit "..")) eqn:E; [|done].
    apply k_streq_no_NUL in E; [done|done|apply lit_no_NUL_dot]. }
  unfold cli_cmd_cd. cbn [fs_entries current_dir console].
  fold nm. rewrite H0, H1, H2. fold target.
  rewrite (fs_find_index_lookup target t i e Hlen Huniq Hi Hu)
    by (by rewrite cstr_id).
  rewrite Nat2Z.id, (list_lookup_total_correct _ _ _ Hi), Hu, Hd.
  destruct (Z.ltb_spec (Z.of_nat i) 0) as [|_]; [lia|]. cbn [negb orb].
  by rewrite set_current_dir_spec.
Qed.

(** X19: entering a directory and going back up returns to where one was.
    On a well-shaped table with unique names, when [cd] with a name free of
    separators finds the directory, a following [cd ..] restores the shell
    state exactly, provided the current directory had at most 30
    characters (so that the separator fits the 32-byte buffer). *)
Theorem cli_cmd_cd_up_after_down t cur con args :
  fs_wf t → unique_names t →
  let nm := cli_first_arg args (S ENIXNEL_MAX_NAME_LEN) in
  nm ≠ [] → nm ≠ lit "." → nm ≠ lit ".." → SLASH ∉ nm →
  NUL ∉ cur → length cur + 2 ≤ S ENIXNEL_MAX_NAME_LEN →
  dir_present (path_join cur nm [] (S ENIXNEL_MAX_NAME_LEN)) t →
  cli_cmd_cd (lit "..") (cli_cmd_cd args (mk_shell t cur con))
  = mk_shell t cur con.
Proof.
  intros Hwf Huniq nm Hne Hdot Hdotdot Hslash Hcnul Hclen Hp.
  rewrite (cli_cmd_cd_enter t cur con args Hwf Huniq Hne Hdot Hdotdot Hp).
  fold nm.
  pose proof (cli_first_arg_no_NUL args (S ENIXNEL_MAX_NAME_LEN)) as Hnul.
  fold nm in Hnul.
  unfold cli_cmd_cd. cbn [fs_entries current_dir console].
  change (cli_first_arg (lit "..") (S ENIXNEL_MAX_NAME_LEN)) with (lit "..").
  change (Ascii.eqb (char_at (lit "..") 0) NUL) with false.
  change (k_streq (lit "..") (lit ".")) with false.
  change (k_streq (lit "..") (lit "..")) with true.
  cbv iota. rewrite path_parent_current. f_equal.
  rewrite (cstr_id (path_join _ _ _ _)) by (apply path_join_no_NUL; lia).
  rewrite path_join_spec by lia. rewrite !cstr_id by done.
  destruct (decide (cur = [])) as [->|Hcne].
  - destruct (split_last_slash_cases (take (S ENIXNEL_MAX_NAME_LEN - 1) nm))
      as [(_ & -> & _)|(p & b & Heq & _)]; [by rewrite take_nil|].
    exfalso. apply Hslash. apply (subseteq_take (S ENIXNEL_MAX_NAME_LEN - 1)).
    rewrite Heq, elem_of_app, elem_of_cons. auto.
  - rewrite take_app_ge by (unfold ENIXNEL_MAX_NAME_LEN in *; lia).
    replace (S ENIXNEL_MAX_NAME_LEN - 1 - length cur)
      with (S (S ENIXNEL_MAX_NAME_LEN - 1 - length cur - 1))
      by (unfold ENIXNEL_MAX_NAME_LEN in *; lia).
    cbn [take]. unfold derived_parent. rewrite split_last_slash_app.
    + simpl. apply take_ge. unfold ENIXNEL_MAX_NAME_LEN in *. lia.
    + intros Hin. apply Hslash. by apply (subseteq_take _ _ _ Hin).
Qed.

Lemma cli_cmd_cd_up_after_down_witness :
  cli_cmd_cd (lit "..")
    (cli_cmd_cd (lit "b") (mk_shell example_table (lit "user") (lit "$ ")))
  = mk_shell example_table (lit "user") (lit "$ ").
Proof.
  apply (cli_cmd_cd_up_after_down example_table (lit "user") (lit "$ ") (lit "b")).
  - apply fs_wfb_correct. vm_compute. reflexivity.
  - apply reachable_inv, reachable_example_table.
  - vm_compute. discriminate.
  - vm_compute. discriminate.
  - vm_compute. discriminate.
  - apply (bool_decide_unpack _). vm_compute. reflexivity.
  - apply (bool_decide_unpack _). vm_compute. reflexivity.
  - vm_compute. lia.
  - exists 13, (example_table !!! 13). vm_compute. repeat split; reflexivity.
Defined.

Lemma cli_cmd_cd_special_witness :
  cli_cmd_cd (lit " .. ") (mk_shell example_table (lit "user/b") [])
  = mk_shell example_table
      (take ENIXNEL_MAX_NAME_LEN (derived_parent (cstr (lit "user/b")))) [].
Proof.
  apply (proj2 (proj2 (cli_cmd_cd_special (lit " .. ")
                         (mk_shell example_table (lit "user/b") [])))).
  vm_compute. reflexivity.
Defined.

(** ** Creating a directory and entering it *)

Lemma name_token_facts args :
  let nm := cli_first_arg args (S ENIXNEL_MAX_NAME_LEN) in
  (NUL ∉ nm) ∧ (Ascii.eqb (char_at nm 0) NUL = true ↔ nm = []).
Proof.
  intros nm. pose proof (cli_first_arg_no_NUL args (S ENIXNEL_MAX_NAME_LEN)) as H.
  split; [done|]. by apply char_at_0_NUL.
Qed.

(** X20: a directory made with [crtdir] can be entered with [cd].  On a
    well-shaped table with unique names, when [crtdir] with a name other
    than [.] and [..] reports success, it has printed
    [Directory created: <name>], the table is the one [fs_create_dir]
    returned for the joined name, and [cd] with the same argument then makes
    that joined name the current directory without printing anything. *)
Theorem cli_cmd_crtdir_then_cd t cur con args :
  fs_wf t → unique_names t →
  let nm := cli_first_arg args (S ENIXNEL_MAX_NAME_LEN) in
  let full := path_join cur nm [] (S ENIXNEL_MAX_NAME_LEN) in
  nm ≠ [] → nm ≠ lit "." → nm ≠ lit ".." →
  fst (fs_create_dir (Some full) t) = 0%Z →
  let st1 := cli_cmd_crtdir args (mk_shell t cur con) in
  st1 = mk_shell (snd (fs_create_dir (Some full) t)) cur
          (con ++ lit "Directory created: " ++ nm ++ [NEWLINE])
  ∧ cli_cmd_cd args st1
    = mk_shell (fs_entries st1) full (console st1).
Proof.
  intros Hwf Huniq nm full Hne Hdot Hdotdot Hrc st1.
  destruct (name_token_facts args) as [Hnul H0]. fold nm in Hnul, H0.
  assert (st1 = mk_shell (snd (fs_create_dir (Some full) t)) cur
                  (con ++ lit "Directory created: " ++ nm ++ [NEWLINE])) as Hst1.
  { subst st1. unfold cli_cmd_crtdir. cbn [fs_entries current_dir console].
    fold nm.
    assert (Ascii.eqb (char_at nm 0) NUL = false) as ->
      by (apply not_true_is_false; intros E; by apply H0 in E).
    fold full. destruct (fs_create_dir (Some full) t) as [rc t1]. simpl in Hrc.
    subst rc. simpl. unfold console_write_line, console_putc, console_write.
    rewrite (cstr_id nm) by done. by rewrite <- !app_assoc. }
  split; [done|]. rewrite Hst1. cbn [fs_entries console].
  pose proof (fs_create_dir_inv (Some full) t (conj Hwf Huniq)) as [Hwf1 Huniq1].
  apply (cli_cmd_cd_enter _ cur _ args Hwf1 Huniq1 Hne Hdot Hdotdot).
  fold nm full.
  assert (NUL ∉ full) as Hfnul by (apply path_join_no_NUL; lia).
  unfold fs_create_dir in *.
  destruct (fs_alloc_entry_cases (Some full) true t)
    as [Ha|(src & k & [= <-] & Hsrc & Hf & Hk & Hu & _ & Ha)];
    rewrite Ha in *; simpl in *; [discriminate Hrc|].
  exists k, (alloc_fill (t !!! k) full true).
  split; [apply list_lookup_insert_eq; destruct Hwf; lia|].
  split; [done|]. split; [done|].
  rewrite entry_name_alloc_fill; [by apply cstr_id|by apply fs_wf_lookup_total|lia].
Qed.

Lemma cli_cmd_crtdir_then_cd_witness :
  let st1 := cli_cmd_crtdir (lit "docs") (mk_shell example_table (lit "user") []) in
  st1 = mk_shell (snd (fs_create_dir (Some (lit "user/docs")) example_table))
          (lit "user")
          ([] ++ lit "Directory created: " ++ lit "docs" ++ [NEWLINE])
  ∧ cli_cmd_cd (lit "docs") st1
    = mk_shell (fs_entries st1) (lit "user/docs") (console st1).
Proof.
  apply (cli_cmd_crtdir_then_cd example_table (lit "user") [] (lit "docs")).
  - apply fs_wfb_correct. vm_compute. reflexivity.
  - apply reachable_inv, reachable_example_table.
  - vm_compute. discriminate.
  - vm_compute. discriminate.
  - vm_compute. discriminate.
  - vm_compute. reflexivity.
Defined.

(** ** What a command line can change *)

Lemma console_write_extends s con : ∃ out, console_write s con = con ++ out.
Proof. by exists (cstr s). Qed.

Lemma console_write_line_extends s con :
  ∃ out, console_write_line s con = con ++ out.
Proof.
  exists (cstr s ++ [NEWLINE]).
  unfold console_write_line, console_putc, console_write. by rewrite <- app_assoc.
Qed.

Lemma console_write_line2_extends s1 s2 con :
  ∃ out, console_write_line s2 (console_write s1 con) = con ++ out.
Proof.
  exists (cstr s1 ++ cstr s2 ++ [NEWLINE]).
  unfold console_write_line, console_putc, console_write.
  by rewrite <- !app_assoc.
Qed.

Lemma putc_loop_spec dat : ∀ n i con,
  putc_loop dat i n con = con ++ map (char_at dat) (seq i n).
Proof.
  induction n as [|n IH]; intros i con; simpl; [by rewrite app_nil_r|].
  rewrite IH. unfold console_putc. by rewrite <- app_assoc.
Qed.

Lemma sdir_loop_extends t cur : ∀ n i any con,
  ∃ out, snd (sdir_loop t cur i n any con) = con ++ out.
Proof.
  induction n as [|n IH]; intros i any con; simpl; [by exists []; rewrite app_nil_r|].
  destruct (negb (used (t !!! i))); [apply IH|].
  destruct (negb (k_streq _ cur)); [apply IH|].
  destruct (console_write_line2_extends
              (if is_dir (t !!! i) then lit "[DIR]  " else lit "[FILE] ")
              (path_basename (name (t !!! i)) [] (S ENIXNEL_MAX_NAME_LEN)) con)
    as [out1 Hout1].
  match goal with
  | |- ∃ out, snd (sdir_loop _ _ _ _ _ ?c) = _ => assert (c = con ++ out1) as ->
  end.
  { rewrite <- Hout1. by destruct (is_dir (t !!! i)). }
  destruct (IH (S i) true (con ++ out1)) as [out2 ->].
  exists (out1 ++ out2). by rewrite app_assoc.
Qed.

Lemma cli_cmd_help_effect st :
  shell_frame st (cli_cmd_help st)
  ∧ fs_entries (cli_cmd_help st) = fs_entries st.
Proof.
  split; [|done]. split; [done|]. unfold cli_cmd_help. cbv zeta. simpl.
  unfold console_write_line, console_putc, console_write.
  rewrite <- !app_assoc. eauto.
Qed.

Lemma cli_cmd_echo_effect args st :
  shell_frame st (cli_cmd_echo args st)
  ∧ fs_entries (cli_cmd_echo args st) = fs_entries st.
Proof.
  split; [|done]. split; [done|]. unfold cli_cmd_echo. simpl.
  destruct (Ascii.eqb (char_at args 0) NUL).
  - by exists [NEWLINE].
  - apply console_write_line_extends.
Qed.

Lemma cli_cmd_sdir_effect st :
  shell_frame st (cli_cmd_sdir st)
  ∧ fs_entries (cli_cmd_sdir st) = fs_entries st.
Proof.
  unfold cli_cmd_sdir.
  destruct (sdir_loop_extends (fs_entries st) (current_dir st)
              ENIXNEL_MAX_FS_ENTRIES 0 false (console st)) as [out Hout].
  destruct (sdir_loop _ _ _ _ _ _) as [any con]. cbn [snd] in Hout. subst con.
  split; [|done]. split; [done|]. cbn [console negb]. destruct any; [eauto|].
  destruct (console_write_line_extends (lit "sdir: no entries") (console st ++ out))
    as [out2 ->].
  exists (out ++ out2). by rewrite app_assoc.
Qed.

Lemma cli_cmd_sfile_effect args st :
  shell_frame st (cli_cmd_sfile args st)
  ∧ fs_entries (cli_cmd_sfile args st) = fs_entries st.
Proof.
  unfold cli_cmd_sfile.
  destruct (Ascii.eqb _ NUL).
  { split; [|done]. split; [done|]. apply console_write_line_extends. }
  destruct (fs_read_file _ _) as [rc view].
  destruct (negb (rc =? 0)%Z).
  { split; [|done]. split; [done|]. apply console_write_line2_extends. }
  destruct (default ([], 0) view) as [dat len].
  split; [|done]. split; [done|]. simpl. rewrite putc_loop_spec.
  unfold console_putc. rewrite <- app_assoc. eauto.
Qed.

Lemma cli_cmd_cd_effect args st :
  (∃ out, console (cli_cmd_cd args st) = console st ++ out)
  ∧ fs_entries (cli_cmd_cd args st) = fs_entries st.
Proof.
  unfold cli_cmd_cd.
  destruct (Ascii.eqb _ NUL);
    [split; [apply console_write_line_extends|done]|].
  destruct (k_streq _ (lit ".")); [split; [by exists []; rewrite app_nil_r|done]|].
  destruct (k_streq _ (lit ".."));
    [split; [by exists []; rewrite app_nil_r|done]|].
  destruct (_ || _);
    split; try done; simpl;
    [apply console_write_line2_extends|by exists []; rewrite app_nil_r].
Qed.

Lemma create_console_extends (rc : Z) s1 s2 nm con :
  ∃ out,
    (if (rc =? 0)%Z then console_write_line nm (console_write s1 con)
     else console_write_line nm (console_write s2 con)) = con ++ out.
Proof. destruct (rc =? 0)%Z; apply console_write_line2_extends. Qed.

Lemma cli_cmd_crtdir_effect args st :
  shell_frame st (cli_cmd_crtdir args st)
  ∧ table_step (fs_entries st) (fs_entries (cli_cmd_crtdir args st)).
Proof.
  unfold cli_cmd_crtdir.
  destruct (Ascii.eqb _ NUL).
  { split; [|by left]. split; [done|]. apply console_write_line_extends. }
  set (full := path_join _ _ _ _).
  assert (snd (fs_create_dir (Some full) (fs_entries st))
          = snd (fs_step (Create_dir (Some full)) (fs_entries st))) as Hstep by done.
  destruct (fs_create_dir (Some full) (fs_entries st)) as [rc t]. cbn [snd] in Hstep.
  split; [|right; eexists; exact Hstep]. split; [done|].
  apply create_console_extends.
Qed.

Lemma cli_cmd_cfile_effect args st :
  shell_frame st (cli_cmd_cfile args st)
  ∧ table_step (fs_entries st) (fs_entries (cli_cmd_cfile args st)).
Proof.
  unfold cli_cmd_cfile.
  destruct (Ascii.eqb _ NUL).
  { split; [|by left]. split; [done|]. apply console_write_line_extends. }
  set (full := path_join _ _ _ _).
  assert (snd (fs_create_file (Some full) (fs_entries st))
          = snd (fs_step (Create_file (Some full)) (fs_entries st))) as Hstep by done.
  destruct (fs_create_file (Some full) (fs_entries st)) as [rc t]. cbn [snd] in Hstep.
  split; [|right; eexists; exact Hstep]. split; [done|].
  apply create_console_extends.
Qed.

Lemma cli_cmd_deldir_effect args st :
  shell_frame st (cli_cmd_deldir args st)
  ∧ table_step (fs_entries st) (fs_entries (cli_cmd_deldir args st)).
Proof.
  unfold cli_cmd_deldir.
  destruct (Ascii.eqb _ NUL).
  { split; [|by left]. split; [done|]. apply console_write_line_extends. }
  set (full := path_join _ _ _ _).
  assert (snd (fs_delete_dir (Some full) (fs_entries st))
          = snd (fs_step (Delete_dir (Some full)) (fs_entries st))) as Hstep by done.
  destruct (fs_delete_dir (Some full) (fs_entries st)) as [rc t]. cbn [snd] in Hstep.
  split; [|right; eexists; exact Hstep]. split; [done|].
  apply create_console_extends.
Qed.

Lemma cli_cmd_dfile_effect args st :
  shell_frame st (cli_cmd_dfile args st)
  ∧ table_step (fs_entries st) (fs_entries (cli_cmd_dfile args st)).
Proof.
  unfold cli_cmd_dfile.
  destruct (Ascii.eqb _ NUL).
  { split; [|by left]. split; [done|]. apply console_write_line_extends. }
  set (full := path_join _ _ _ _).
  assert (snd (fs_delete_file (Some full) (fs_entries st))
          = snd (fs_step (Delete_file (Some full)) (fs_entries st))) as Hstep by done.
  destruct (fs_delete_file (Some full) (fs_entries st)) as [rc t]. cbn [snd] in Hstep.
  split; [|right; eexists; exact Hstep]. split; [done|].
  apply create_console_extends.
Qed.

Lemma cli_cmd_efile_effect args st :
  shell_frame st (cli_cmd_efile args st)
  ∧ table_step (fs_entries st) (fs_entries (cli_cmd_efile args st)).
Proof.
  unfold cli_cmd_efile.
  destruct (find_redir _ 0) as [redir|].
  2:{ split; [|by left]. split; [done|]. apply console_write_line_extends. }
  cbv zeta.
  destruct (if Ascii.eqb _ GT then _ else _) as [append after].
  destruct (Ascii.eqb _ NUL).
  { split; [|by left]. split; [done|]. apply console_write_line_extends. }
  match goal with
  | |- context [fs_write_file ?nm ?dat ?len ?ap ?t] =>
      assert (snd (fs_write_file nm dat len ap t)
              = snd (fs_step (Write_file nm dat len ap) t)) as Hstep by done;
      destruct (fs_write_file nm dat len ap t) as [rc t']
  end.
  cbn [snd] in Hstep. split; [|right; eexists; exact Hstep]. split; [done|].
  cbn [console]. destruct (negb (rc =? 0)%Z);
    [apply console_write_line2_extends|by exists []; rewrite app_nil_r].
Qed.

Lemma command_loop_no_NUL size : ∀ p out,
  NUL ∉ out → NUL ∉ fst (command_loop p size out).
Proof.
  induction p as [|c p IH]; intros out Hout; simpl; [done|].
  destruct (Ascii.eqb_spec c NUL) as [->|Hc]; [done|]. cbn [negb andb].
  destruct (negb (Ascii.eqb c SPACE) && (length out + 1 <? size)); [|done].
  apply IH. rewrite not_elem_of_app, not_elem_of_cons.
  split; [done|]. split; [congruence|apply not_elem_of_nil].
Qed.

Lemma cli_split_command_no_NUL line size :
  NUL ∉ fst (cli_split_command line size).
Proof.
  unfold cli_split_command.
  pose proof (command_loop_no_NUL size (skip_spaces line) [] (not_elem_of_nil _)) as H.
  by destruct (command_loop _ _ _).
Qed.

Lemma k_streq_word cmd (w : string) :
  NUL ∉ cmd → NUL ∉ lit w →
  (k_streq cmd (lit w) = true ∧ cmd = lit w)
  ∨ (k_streq cmd (lit w) = false ∧ cmd ≠ lit w).
Proof.
  intros Hc Hw. pose proof (k_streq_no_NUL cmd (lit w) Hc Hw) as Hiff.
  destruct (k_streq cmd (lit w)); [left|right]; split; try done.
  - by apply Hiff.
  - intros E. apply Hiff in E. done.
Qed.

Ltac word_case cmd Hnul w E Hw :=
  let H := fresh in
  assert (NUL ∉ lit w) as H by (apply (bool_decide_unpack _); by vm_compute);
  destruct (k_streq_word cmd w Hnul H) as [[E Hw]|[E Hw]];
  clear H; rewrite E; clear E; cbv iota.

(** The dispatcher by cases on the command token: the empty token, each of
    the eleven command words, and anything else. *)
Lemma cli_handle_line_cases line st cmd args :
  cli_split_command line 16 = (cmd, args) →
  (NUL ∉ cmd)
  ∧ ((cmd = [] ∧ cli_handle_line line st = st)
     ∨ (cmd = lit "help" ∧ cli_handle_line line st = cli_cmd_help st)
     ∨ (cmd = lit "echo" ∧ cli_handle_line line st = cli_cmd_echo args st)
     ∨ (cmd = lit "crtdir" ∧ cli_handle_line line st = cli_cmd_crtdir args st)
     ∨ (cmd = lit "cfile" ∧ cli_handle_line line st = cli_cmd_cfile args st)
     ∨ (cmd = lit "deldir" ∧ cli_handle_line line st = cli_cmd_deldir args st)
     ∨ (cmd = lit "dfile" ∧ cli_handle_line line st = cli_cmd_dfile args st)
     ∨ (cmd = lit "sdir" ∧ cli_handle_line line st = cli_cmd_sdir st)
     ∨ (cmd = lit "sfile" ∧ cli_handle_line line st = cli_cmd_sfile args st)
     ∨ (cmd = lit "efile" ∧ cli_handle_line line st = cli_cmd_efile args st)
     ∨ (cmd = lit "clr" ∧ cli_handle_line line st = st)
     ∨ (cmd = lit "cd" ∧ cli_handle_line line st = cli_cmd_cd args st)
     ∨ (cmd ≠ [] ∧ (cmd ∉ known_commands)
        ∧ cli_handle_line line st = unknown_command cmd st)).
Proof.
  intros Hsplit.
  pose proof (cli_split_command_no_NUL line 16) as Hnul.
  unfold cli_handle_line. rewrite Hsplit in *. cbn [fst] in Hnul.
  split; [done|].
  pose proof (char_at_0_NUL cmd Hnul) as H0.
  destruct (Ascii.eqb (char_at cmd 0) NUL).
  { left. split; [by apply H0|done]. }
  assert (cmd ≠ []) as Hne by (intros E; by apply H0 in E).
  right.
  word_case cmd Hnul "help"%string E H1; [by left|right].
  word_case cmd Hnul "echo"%string E H2; [by left|right].
  word_case cmd Hnul "crtdir"%string E H3; [by left|right].
  word_case cmd Hnul "cfile"%string E H4; [by left|right].
  word_case cmd Hnul "deldir"%string E H5; [by left|right].
  word_case cmd Hnul "dfile"%string E H6; [by left|right].
  word_case cmd Hnul "sdir"%string E H7; [by left|right].
  word_case cmd Hnul "sfile"%string E H8; [by left|right].
  word_case cmd Hnul "efile"%string E H9; [by left|right].
  word_case cmd Hnul "clr"%string E H10; [by left|right].
  word_case cmd Hnul "cd"%string E H11; [by left|].
  right. split; [done|]. split.
  - unfold known_commands. rewrite !not_elem_of_cons.
    split_and!; try done. apply not_elem_of_nil.
  - unfold unknown_command, console_write_line, console_write, console_putc.
    f_equal. rewrite (cstr_id cmd) by done. rewrite <- !app_assoc.
    by rewrite cstr_id by (apply (bool_decide_unpack _); by vm_compute).
Qed.

Lemma word_in_list (cmd w : list ascii) (l : list (list ascii)) :
  cmd = w → bool_decide (w ∈ l) = true → cmd ∈ l.
Proof. intros -> H. by apply bool_decide_eq_true in H. Qed.

Lemma word_differs (cmd w w' : list ascii) :
  cmd = w → bool_decide (w = w') = false → cmd ≠ w'.
Proof. intros -> H. by apply bool_decide_eq_false in H. Qed.

Ltac known_word Hc :=
  first [ exfalso;
          lazymatch goal with
          | H : _ ∉ _ |- _ => apply H; apply (word_in_list _ _ _ Hc); by vm_compute
          | H : _ ≠ _ |- _ => apply H; exact Hc
          end
        | exfalso;
          lazymatch goal with
          | H : _ = [] |- _ => rewrite H in Hc; by vm_compute in Hc
          end ].

(** X21: what one command line can change.  Whatever the line, the console
    only grows and the table is left alone or is one file-system operation
    away.  The current directory changes for no command but [cd]; the table
    for none but [crtdir], [cfile], [deldir], [dfile] and [efile].  A line
    without a command token changes nothing at all, and a token that is no
    command word prints [Unknown command: <token>] and changes nothing else. *)
Theorem cli_handle_line_effects line st :
  let cmd := fst (cli_split_command line 16) in
  let st' := cli_handle_line line st in
  (∃ out, console st' = console st ++ out)
  ∧ table_step (fs_entries st) (fs_entries st')
  ∧ (cmd ≠ lit "cd" → current_dir st' = current_dir st)
  ∧ (cmd ∉ table_commands → fs_entries st' = fs_entries st)
  ∧ (cmd = [] → st' = st)
  ∧ (cmd ≠ [] → cmd ∉ known_commands → st' = unknown_command cmd st).
Proof.
  intros cmd st'. subst cmd st'.
  destruct (cli_split_command line 16) as [cmd args] eqn:Hsplit. cbn [fst].
  destruct (cli_handle_line_cases line st cmd args Hsplit) as [Hnul Hcases].
  assert (∃ out, console st = console st ++ out) as Hsame
    by (by exists []; rewrite app_nil_r).
  destruct Hcases as
    [[Hc ->]|[[Hc ->]|[[Hc ->]|[[Hc ->]|[[Hc ->]|[[Hc ->]|[[Hc ->]|[[Hc ->]|
     [[Hc ->]|[[Hc ->]|[[Hc ->]|[[Hc ->]|(Hne & Hunk & ->)]]]]]]]]]]]].
  - split_and!; try done. by left.
  - destruct (cli_cmd_help_effect st) as [[Hcur Hcon] Htab].
    split_and!; try done; try (left; exact Htab); intros; known_word Hc.
  - destruct (cli_cmd_echo_effect args st) as [[Hcur Hcon] Htab].
    split_and!; try done; try (left; exact Htab); intros; known_word Hc.
  - destruct (cli_cmd_crtdir_effect args st) as [[Hcur Hcon] Htab].
    split_and!; try done; intros; known_word Hc.
  - destruct (cli_cmd_cfile_effect args st) as [[Hcur Hcon] Htab].
    split_and!; try done; intros; known_word Hc.
  - destruct (cli_cmd_deldir_effect args st) as [[Hcur Hcon] Htab].
    split_and!; try done; intros; known_word Hc.
  - destruct (cli_cmd_dfile_effect args st) as [[Hcur Hcon] Htab].
    split_and!; try done; intros; known_word Hc.
  - destruct (cli_cmd_sdir_effect st) as [[Hcur Hcon] Htab].
    split_and!; try done; try (left; exact Htab); intros; known_word Hc.
  - destruct (cli_cmd_sfile_effect args st) as [[Hcur Hcon] Htab].
    split_and!; try done; try (left; exact Htab); intros; known_word Hc.
  - destruct (cli_cmd_efile_effect args st) as [[Hcur Hcon] Htab].
    split_and!; try done; intros; known_word Hc.
  - split_and!; try done; try (by left); intros; known_word Hc.
  - destruct (cli_cmd_cd_effect args st) as [Hcon Htab].
    split_and!; try done; try (left; exact Htab); intros; known_word Hc.
  - split_and!; try done; [by eexists|by left].
Qed.

Lemma cli_handle_line_effects_witness :
  cli_handle_line (lit "  frob x") kernel_main_state
  = unknown_command (lit "frob") kernel_main_state.
Proof.
  pose proof (cli_handle_line_effects (lit "  frob x") kernel_main_state) as H.
  cbv zeta in H. destruct H as (_ & _ & _ & _ & _ & H).
  change (fst (cli_split_command (lit "  frob x") 16)) with (lit "frob") in H.
  apply H.
  - by vm_compute.
  - apply (bool_decide_unpack _). by vm_compute.
Defined.

(** ** What holds of the shell at every prompt *)

Lemma set_current_dir_bounds : ∀ src out,
  NUL ∉ out → length out ≤ ENIXNEL_MAX_NAME_LEN →
  (NUL ∉ set_current_dir src out)
  ∧ length (set_current_dir src out) ≤ ENIXNEL_MAX_NAME_LEN.
Proof.
  induction src as [|c src IH]; intros out Hnul Hlen; simpl; [done|].
  destruct (Ascii.eqb_spec c NUL) as [->|Hc]; [done|]. cbn [negb andb].
  destruct (Nat.ltb_spec (length out) ENIXNEL_MAX_NAME_LEN) as [Hlt|]; [|done].
  apply IH.
  - rewrite not_elem_of_app, not_elem_of_cons.
    split; [done|]. split; [congruence|apply not_elem_of_nil].
  - rewrite length_app. simpl. lia.
Qed.

Lemma cli_cmd_cd_current_dir args st :
  NUL ∉ current_dir st → length (current_dir st) ≤ ENIXNEL_MAX_NAME_LEN →
  (NUL ∉ current_dir (cli_cmd_cd args st))
  ∧ length (current_dir (cli_cmd_cd args st)) ≤ ENIXNEL_MAX_NAME_LEN.
Proof.
  intros Hnul Hlen. unfold cli_cmd_cd.
  assert (∀ src, (NUL ∉ set_current_dir src [])
                 ∧ length (set_current_dir src []) ≤ ENIXNEL_MAX_NAME_LEN) as Hset.
  { intros src. apply set_current_dir_bounds; [apply not_elem_of_nil|].
    change (length (@nil ascii)) with 0. lia. }
  destruct (Ascii.eqb _ NUL); [done|].
  destruct (k_streq _ (lit ".")); [done|].
  destruct (k_streq _ (lit "..")); [apply Hset|].
  destruct (_ || _); [done|apply Hset].
Qed.

Lemma table_step_reachable t t' : reachable t → table_step t t' → reachable t'.
Proof. intros Ht [->|[op ->]]; [done|by apply reachable_step]. Qed.

Lemma cli_handle_line_step line st :
  table_step (fs_entries st) (fs_entries (cli_handle_line line st))
  ∧ (current_dir (cli_handle_line line st) = current_dir st
     ∨ ∃ args, cli_handle_line line st = cli_cmd_cd args st).
Proof.
  destruct (cli_split_command line 16) as [cmd args] eqn:Hsplit.
  destruct (cli_handle_line_cases line st cmd args Hsplit) as [_ Hcases].
  destruct Hcases as
    [[_ ->]|[[_ ->]|[[_ ->]|[[_ ->]|[[_ ->]|[[_ ->]|[[_ ->]|[[_ ->]|
     [[_ ->]|[[_ ->]|[[_ ->]|[[_ ->]|(_ & _ & ->)]]]]]]]]]]]].
  - split; by left.
  - destruct (cli_cmd_help_effect st) as [[Hcur _] Htab]. split; by left.
  - destruct (cli_cmd_echo_effect args st) as [[Hcur _] Htab]. split; by left.
  - destruct (cli_cmd_crtdir_effect args st) as [[Hcur _] Htab]. split; [done|by left].
  - destruct (cli_cmd_cfile_effect args st) as [[Hcur _] Htab]. split; [done|by left].
  - destruct (cli_cmd_deldir_effect args st) as [[Hcur _] Htab]. split; [done|by left].
  - destruct (cli_cmd_dfile_effect args st) as [[Hcur _] Htab]. split; [done|by left].
  - destruct (cli_cmd_sdir_effect st) as [[Hcur _] Htab]. split; by left.
  - destruct (cli_cmd_sfile_effect args st) as [[Hcur _] Htab]. split; by left.
  - destruct (cli_cmd_efile_effect args st) as [[Hcur _] Htab]. split; [done|by left].
  - split; by left.
  - destruct (cli_cmd_cd_effect args st) as [_ Htab]. split; [by left|right; by exists args].
  - split; by left.
Qed.

Lemma kernel_main_current_dir : current_dir kernel_main_state = lit "user".
Proof. by vm_compute. Qed.

(** X22: what holds of the shell at every prompt.  From the state
    [kernel_main] starts the command loop with, and after any number of
    command lines, whatever was typed: the table is one that the file-system
    operations reach from the boot layout, and the current directory is a
    string of at most 31 characters, so that it fits its 32-byte array with
    its terminator. *)
Theorem shell_reachable_invariant st :
  shell_reachable st →
  reachable (fs_entries st)
  ∧ (NUL ∉ current_dir st)
  ∧ length (current_dir st) ≤ ENIXNEL_MAX_NAME_LEN.
Proof.
  induction 1 as [|st line echo Hst (Hreach & Hnul & Hlen)].
  - split; [apply reachable_init|]. rewrite kernel_main_current_dir.
    split; [apply (bool_decide_unpack _); by vm_compute|].
    apply (bool_decide_unpack _). by vm_compute.
  - set (st1 := shell_echo echo (cli_print_prompt st)).
    destruct (cli_handle_line_step line st1) as [Htab Hcur].
    split; [exact (table_step_reachable _ _ Hreach Htab)|].
    destruct Hcur as [->|[args ->]]; [done|].
    by apply cli_cmd_cd_current_dir.
Qed.

Lemma shell_reachable_invariant_witness :
  shell_reachable (cli_handle_line (lit "crtdir tmp")
                     (shell_echo (lit "crtdir tmp") (cli_print_prompt kernel_main_state)))
  ∧ reachable (fs_entries (cli_handle_line (lit "crtdir tmp")
                     (shell_echo (lit "crtdir tmp") (cli_print_prompt kernel_main_state)))).
Proof.
  assert (shell_reachable (cli_handle_line (lit "crtdir tmp")
            (shell_echo (lit "crtdir tmp") (cli_print_prompt kernel_main_state)))) as H
    by exact (shell_line _ _ _ shell_boot).
  split; [exact H|].
  exact (proj1 (shell_reachable_invariant _ H)).
Defined.

(** ** The argument parser of [efile] *)

Lemma replicate_shift {A} n (x : A) r : replicate (S n) x ++ r = replicate n x ++ x :: r.
Proof. induction n as [|n IH]; [done|]. simpl in *. by rewrite IH. Qed.

Lemma char_at_app_l l r i : i < length l → char_at (l ++ r) i = char_at l i.
Proof. intros Hi. unfold char_at. by rewrite app_nth1. Qed.

Lemma char_at_app_r l r i : char_at (l ++ r) (length l + i) = char_at r i.
Proof.
  unfold char_at. rewrite app_nth2 by lia. f_equal. lia.
Qed.

Lemma map_char_at_take l : ∀ n, n ≤ length l →
  map (char_at l) (seq 0 n) = take n l.
Proof.
  induction l as [|c l IH]; intros n Hn; simpl in Hn.
  - by replace n with 0 by lia.
  - destruct n as [|n]; [done|].
    cbn [seq map take]. f_equal.
    rewrite <- seq_shift, map_map. rewrite <- IH by lia. done.
Qed.

Lemma copy_n_prefix l r n :
  n ≤ length l → copy_n (l ++ r) 0 0 n [] = take n l.
Proof.
  intros Hn. rewrite copy_n_spec. simpl.
  rewrite <- (map_char_at_take l n Hn).
  apply map_ext_in. intros i Hi. apply in_seq in Hi.
  apply char_at_app_l. lia.
Qed.

Lemma find_redir_spec r : ∀ pre i,
  NUL ∉ pre → GT ∉ pre → find_redir (pre ++ GT :: r) i = Some (i + length pre).
Proof.
  induction pre as [|c pre IH]; intros i Hnul Hgt; simpl.
  - destruct (Ascii.eqb_spec GT NUL) as [E|_]; [discriminate E|].
    destruct (Ascii.eqb_spec GT GT); [f_equal; lia|done].
  - apply not_elem_of_cons in Hnul as [Hc1 Hnul].
    apply not_elem_of_cons in Hgt as [Hc2 Hgt].
    destruct (Ascii.eqb_spec c NUL); [congruence|].
    destruct (Ascii.eqb_spec c GT); [congruence|].
    rewrite IH by done. f_equal. lia.
Qed.

Lemma find_redir_none : ∀ p i, GT ∉ cstr p → find_redir p i = None.
Proof.
  induction p as [|c p IH]; intros i Hgt; simpl in *; [done|].
  destruct (Ascii.eqb_spec c NUL); [done|].
  apply not_elem_of_cons in Hgt as [Hc Hgt].
  destruct (Ascii.eqb_spec c GT); [congruence|]. by apply IH.
Qed.

Lemma trim_end_spec text : last text ≠ Some SPACE →
  ∀ b r, trim_end (text ++ replicate b SPACE ++ r) (length text + b) = length text.
Proof.
  intros Hlast. induction b as [|b IH]; intros r.
  - rewrite Nat.add_0_r. simpl.
    destruct text as [|c text] using rev_ind; [done|].
    rewrite last_snoc in Hlast. rewrite length_app. simpl.
    rewrite Nat.add_1_r. simpl.
    rewrite <- app_assoc, <- (Nat.add_0_r (length text)), char_at_app_r.
    unfold char_at. simpl.
    destruct (Ascii.eqb_spec c SPACE); [congruence|lia].
  - rewrite replicate_shift, Nat.add_succ_r. simpl.
    replace (char_at (text ++ replicate b SPACE ++ SPACE :: r) (length text + b))
      with SPACE; [by destruct (Ascii.eqb_spec SPACE SPACE)|].
    rewrite char_at_app_r.
    pose proof (char_at_app_r (replicate b SPACE) (SPACE :: r) 0) as H.
    by rewrite length_replicate, Nat.add_0_r in H.
Qed.

Lemma fname_loop_spec rest :
  (∀ c r, rest = c :: r → c = SPACE ∨ c = NUL) →
  ∀ nm i, NUL ∉ nm → SPACE ∉ nm → fname_loop (nm ++ rest) i = i + length nm.
Proof.
  intros Hrest. induction nm as [|c nm IH]; intros i Hnul Hsp; simpl.
  - rewrite Nat.add_0_r. destruct rest as [|c r]; [done|]. simpl.
    destruct (Hrest c r eq_refl) as [->| ->].
    + destruct (Ascii.eqb_spec SPACE NUL); [done|].
      by destruct (Ascii.eqb_spec SPACE SPACE).
    + by destruct (Ascii.eqb_spec NUL NUL).
  - apply not_elem_of_cons in Hnul as [Hc1 Hnul].
    apply not_elem_of_cons in Hsp as [Hc2 Hsp].
    destruct (Ascii.eqb_spec c NUL); [congruence|].
    destruct (Ascii.eqb_spec c SPACE); [congruence|]. simpl.
    rewrite IH by done. lia.
Qed.

Lemma efile_text_start a text b tail :
  head text ≠ Some SPACE →
  ∃ b', skip_spaces (replicate a SPACE ++ text ++ replicate b SPACE ++ GT :: tail)
        = text ++ replicate b' SPACE ++ GT :: tail.
Proof.
  intros Hhd. rewrite skip_spaces_replicate.
  destruct text as [|ch text].
  - exists 0. simpl. rewrite skip_spaces_replicate. simpl.
    by destruct (Ascii.eqb_spec GT SPACE).
  - exists b. simpl in *. destruct (Ascii.eqb_spec ch SPACE); congruence.
Qed.

Lemma efile_redirect (ap : bool) c x :
  (ap = false → c = 0 → head x ≠ Some GT) →
  let tail := (if ap then [GT] else []) ++ replicate c SPACE ++ x in
  (if Ascii.eqb (char_at tail 0) GT then (1%Z, drop 1 tail) else (0%Z, tail))
  = ((if ap then 1%Z else 0%Z), replicate c SPACE ++ x).
Proof.
  intros Hgt tail. subst tail. destruct ap; simpl.
  - unfold char_at. simpl. by destruct (Ascii.eqb_spec GT GT).
  - destruct c as [|c]; simpl.
    + destruct x as [|ch x]; [done|]. unfold char_at. simpl.
      destruct (Ascii.eqb_spec ch GT) as [->|]; [|done].
      by destruct (Hgt eq_refl eq_refl).
    + unfold char_at. simpl. by destruct (Ascii.eqb_spec SPACE GT).
Qed.

Lemma cli_cmd_efile_text_start args st text b (ap : bool) c nm rest :
  skip_spaces args
  = text ++ replicate b SPACE
    ++ GT :: (if ap then [GT] else []) ++ replicate c SPACE ++ nm ++ rest →
  NUL ∉ text → GT ∉ text → last text ≠ Some SPACE →
  nm ≠ [] → NUL ∉ nm → SPACE ∉ nm →
  (ap = false → c = 0 → head nm ≠ Some GT) →
  (∀ ch r, rest = ch :: r → ch = SPACE ∨ ch = NUL) →
  cli_cmd_efile args st = efile_outcome text ap nm st.
Proof.
  intros Hskip Htnul Htgt Hlast Hne Hnnul Hnsp Hgt Hrest.
  unfold cli_cmd_efile. rewrite Hskip. cbv zeta.
  set (tail := (if ap then [GT] else []) ++ replicate c SPACE ++ nm ++ rest).
  set (ts := text ++ replicate b SPACE ++ GT :: tail).
  assert (ts = (text ++ replicate b SPACE) ++ GT :: tail) as Hts
    by (subst ts; by rewrite <- app_assoc).
  assert (find_redir ts 0 = Some (length text + b)) as ->.
  { rewrite Hts, find_redir_spec.
    - by rewrite length_app, length_replicate.
    - rewrite not_elem_of_app. split; [done|].
      intros Hin. by apply elem_of_replicate in Hin as [Hin _].
    - rewrite not_elem_of_app. split; [done|].
      intros Hin. by apply elem_of_replicate in Hin as [Hin _]. }
  assert (trim_end ts (length text + b) = length text) as ->
    by (subst ts; by apply trim_end_spec).
  assert (drop (S (length text + b)) ts = tail) as ->.
  { rewrite Hts. change (GT :: tail) with ([GT] ++ tail). rewrite app_assoc.
    apply drop_app_length'. rewrite !length_app, length_replicate. simpl. lia. }
  subst tail. rewrite (efile_redirect ap c (nm ++ rest))
    by (destruct nm; [done|exact Hgt]).
  rewrite skip_spaces_replicate, (skip_spaces_token nm rest Hnsp Hne).
  assert (Ascii.eqb (char_at (nm ++ rest) 0) NUL = false) as ->.
  { destruct nm as [|ch nm]; [done|]. apply not_elem_of_cons in Hnnul as [Hc _].
    unfold char_at. simpl. destruct (Ascii.eqb_spec ch NUL); congruence. }
  rewrite (fname_loop_spec rest Hrest nm 0 Hnnul Hnsp). cbn [Nat.add].
  set (text_len := if ENIXNEL_MAX_FILE_SIZE <=? length text
                   then ENIXNEL_MAX_FILE_SIZE - 1 else length text).
  set (name_len := if S ENIXNEL_MAX_NAME_LEN <=? length nm
                   then ENIXNEL_MAX_NAME_LEN else length nm).
  assert (text_len = length (take (ENIXNEL_MAX_FILE_SIZE - 1) text)) as Htl.
  { subst text_len. rewrite length_take.
    destruct (Nat.leb_spec ENIXNEL_MAX_FILE_SIZE (length text)); lia. }
  assert (take name_len nm = take ENIXNEL_MAX_NAME_LEN nm) as Hnm.
  { subst name_len.
    destruct (Nat.leb_spec (S ENIXNEL_MAX_NAME_LEN) (length nm)); [done|].
    rewrite !take_ge; [done|lia|lia]. }
  assert (take text_len text = take (ENIXNEL_MAX_FILE_SIZE - 1) text) as Htx.
  { subst text_len.
    destruct (Nat.leb_spec ENIXNEL_MAX_FILE_SIZE (length text)); [done|].
    rewrite !take_ge; [done|lia|lia]. }
  assert (copy_n ts 0 0 text_len [] = take text_len text) as ->
    by (subst ts; apply copy_n_prefix; rewrite Htl, length_take; lia).
  rewrite (copy_n_prefix nm rest name_len)
    by (subst name_len;
        destruct (Nat.leb_spec (S ENIXNEL_MAX_NAME_LEN) (length nm)); lia).
  rewrite Hnm, Htx, Htl.
  unfold efile_outcome. cbv zeta.
  destruct (fs_write_file _ _ _ _ _) as [rc t']. cbn [fst snd].
  f_equal. destruct (rc =? 0)%Z; [done|]. cbn [negb].
  unfold console_write_line, console_write, console_putc.
  rewrite <- !app_assoc. rewrite (cstr_id (take _ nm)) by by apply NUL_not_in_take.
  by rewrite cstr_id by (apply (bool_decide_unpack _); by vm_compute).
Qed.

(** X23: how [efile] reads its arguments.  Given blanks, a text free of [>]
    that neither starts nor ends with a blank, blanks, [>] or [>>], blanks,
    a non-empty name free of blanks, and a rest that is empty or starts with
    a blank or the terminator, [efile] writes the text, cut to 511 bytes, to
    the file whose name is the current directory joined with the name, cut to
    31 characters; it appends for [>>] and overwrites for [>]; it prints
    [efile: failed to write <name>] when [fs_write_file] fails and nothing
    otherwise; the current directory stays. *)
Theorem cli_cmd_efile_parse st a text b (ap : bool) c nm rest :
  NUL ∉ text → GT ∉ text → head text ≠ Some SPACE → last text ≠ Some SPACE →
  nm ≠ [] → NUL ∉ nm → SPACE ∉ nm →
  (ap = false → c = 0 → head nm ≠ Some GT) →
  (∀ ch r, rest = ch :: r → ch = SPACE ∨ ch = NUL) →
  cli_cmd_efile (efile_args a text b ap c nm rest) st
  = efile_outcome text ap nm st.
Proof.
  intros Htnul Htgt Hhd Hlast Hne Hnnul Hnsp Hgt Hrest. unfold efile_args.
  destruct (efile_text_start a text b
              ((if ap then [GT] else []) ++ replicate c SPACE ++ nm ++ rest) Hhd)
    as [b' Hskip].
  by apply (cli_cmd_efile_text_start _ st text b' ap c nm rest).
Qed.

Lemma cli_cmd_efile_parse_witness :
  cli_cmd_efile (lit "  hello world  >> notes.txt now") kernel_main_state
  = efile_outcome (lit "hello world") true (lit "notes.txt") kernel_main_state.
Proof.
  apply (cli_cmd_efile_parse kernel_main_state 2 (lit "hello world") 2 true 1
           (lit "notes.txt") (lit " now")).
  - apply (bool_decide_unpack _). by vm_compute.
  - apply (bool_decide_unpack _). by vm_compute.
  - by vm_compute.
  - by vm_compute.
  - by vm_compute.
  - apply (bool_decide_unpack _). by vm_compute.
  - apply (bool_decide_unpack _). by vm_compute.
  - intros E. discriminate E.
  - intros ch r [= <- _]. by left.
Defined.

Lemma skip_spaces_cstr_subseteq p : cstr (skip_spaces p) ⊆ cstr p.
Proof.
  induction p as [|c p IH]; simpl; [done|].
  destruct (Ascii.eqb_spec c SPACE) as [->|Hc]; [|done].
  destruct (Ascii.eqb_spec SPACE NUL) as [E|_]; [discriminate E|].
  intros x Hx. apply elem_of_cons. right. by apply IH.
Qed.

Lemma skip_spaces_subseteq p : skip_spaces p ⊆ p.
Proof.
  induction p as [|c p IH]; simpl; [done|].
  destruct (Ascii.eqb_spec c SPACE) as [->|Hc]; [|done].
  intros x Hx. apply elem_of_cons. right. by apply IH.
Qed.

Lemma skip_spaces_app_GT pre x :
  skip_spaces (pre ++ GT :: x) = skip_spaces pre ++ GT :: x.
Proof.
  induction pre as [|c pre IH]; simpl.
  - by destruct (Ascii.eqb_spec GT SPACE).
  - by destruct (Ascii.eqb_spec c SPACE).
Qed.

(** X24: the two complaints of [efile].  Without a [>] in its arguments it
    prints [efile: missing '>']; with a [>] or [>>] followed by nothing but
    blanks it prints [efile: missing file name]; either way the table and
    the current directory are left as they were, nothing is written. *)
Theorem cli_cmd_efile_errors st :
  (∀ args,
     GT ∉ cstr args →
     cli_cmd_efile args st
     = mk_shell (fs_entries st) (current_dir st)
         (console st ++ lit "efile: missing '>'" ++ [NEWLINE]))
  ∧ (∀ pre (ap : bool) c rest,
       NUL ∉ pre → GT ∉ pre → (∀ ch r, rest = ch :: r → ch = NUL) →
       cli_cmd_efile
         (pre ++ GT :: (if ap then [GT] else []) ++ replicate c SPACE ++ rest) st
       = mk_shell (fs_entries st) (current_dir st)
           (console st ++ lit "efile: missing file name" ++ [NEWLINE])).
Proof.
  split.
  - intros args Hgt. unfold cli_cmd_efile.
    rewrite find_redir_none.
    + unfold console_write_line, console_write, console_putc.
      rewrite <- app_assoc.
      by rewrite cstr_id by (apply (bool_decide_unpack _); by vm_compute).
    + intros Hin. by apply Hgt, skip_spaces_cstr_subseteq.
  - intros pre ap c rest Hnul Hgt Hrest. unfold cli_cmd_efile.
    rewrite skip_spaces_app_GT. cbv zeta.
    rewrite find_redir_spec;
      [|intros Hin; by apply Hnul, skip_spaces_subseteq
       |intros Hin; by apply Hgt, skip_spaces_subseteq].
    cbn [Nat.add].
    assert (∀ l, skip_spaces pre ++ GT :: l = (skip_spaces pre ++ [GT]) ++ l) as Hre
      by (intros l; by rewrite <- app_assoc).
    rewrite Hre.
    rewrite (drop_app_length' (skip_spaces pre ++ [GT]))
      by (rewrite length_app; simpl; lia).
    assert (skip_spaces (replicate c SPACE ++ rest) = rest) as Hsk.
    { rewrite skip_spaces_replicate. destruct rest as [|ch r]; [done|]. simpl.
      rewrite (Hrest ch r eq_refl). by destruct (Ascii.eqb_spec NUL SPACE). }
    assert (Ascii.eqb (char_at rest 0) NUL = true) as Hend.
    { destruct rest as [|ch r]; [done|]. rewrite (Hrest ch r eq_refl).
      unfold char_at. simpl. by destruct (Ascii.eqb_spec NUL NUL). }
    rewrite (efile_redirect ap c rest).
    + rewrite Hsk, Hend.
      unfold console_write_line, console_write, console_putc.
      rewrite <- app_assoc.
      by rewrite cstr_id by (apply (bool_decide_unpack _); by vm_compute).
    + intros _ _. destruct rest as [|ch r]; [done|].
      rewrite (Hrest ch r eq_refl). simpl. by intros [=].
Qed.

Lemma cli_cmd_efile_errors_witness :
  cli_cmd_efile (lit "hello") kernel_main_state
  = mk_shell (fs_entries kernel_main_state) (current_dir kernel_main_state)
      (console kernel_main_state ++ lit "efile: missing '>'" ++ [NEWLINE]).
Proof.
  apply (proj1 (cli_cmd_efile_errors kernel_main_state)).
  apply (bool_decide_unpack _). by vm_compute.
Defined.

(** ** Writing a file with [efile] and showing it with [sfile] *)

Lemma cli_first_arg_of_token n tok rest size :
  SPACE ∉ tok → NUL ∉ tok → tok ≠ [] →
  (∀ c r, rest = c :: r → c = SPACE ∨ c = NUL) →
  cli_first_arg (replicate n SPACE ++ tok ++ rest) size = take (size - 1) tok.
Proof.
  intros Hsp Hnul Hne Hrest. unfold cli_first_arg.
  rewrite skip_spaces_replicate, (skip_spaces_token tok rest Hsp Hne).
  rewrite token_loop_command_loop, (command_loop_spec size rest Hrest tok [] Hsp Hnul).
  cbn [fst app length]. by rewrite Nat.sub_0_r.
Qed.

Lemma fs_read_file_view t b d n :
  fs_wf t → file_content b t = Some (take n d) →
  snd (fs_read_file (Some b) t) = Some (d, n) →
  fs_read_file (Some b) t = (0%Z, Some (d, n)) ∧ n ≤ length d.
Proof.
  intros Hwf _. unfold fs_read_file. cbv zeta.
  generalize (fs_find_index (Some b) t). intros idx.
  destruct (idx <? 0)%Z; [done|].
  pose proof (fs_wf_lookup_total t (Z.to_nat idx) Hwf) as (_ & _ & Hd & Hz).
  destruct (is_dir _); [done|]. cbn [snd]. intros [= <- <-]. split; [done|lia].
Qed.

Lemma cli_cmd_sfile_shows t cur con n nm rest s :
  fs_wf t →
  SPACE ∉ nm → NUL ∉ nm → nm ≠ [] →
  (∀ c r, rest = c :: r → c = SPACE ∨ c = NUL) →
  file_content
    (path_join cur (take ENIXNEL_MAX_NAME_LEN nm) [] (S ENIXNEL_MAX_NAME_LEN)) t
  = Some s →
  cli_cmd_sfile (replicate n SPACE ++ nm ++ rest) (mk_shell t cur con)
  = mk_shell t cur (con ++ s ++ [NEWLINE]).
Proof.
  intros Hwf Hsp Hnul Hne Hrest Hcontent. unfold cli_cmd_sfile.
  rewrite (cli_first_arg_of_token n nm rest _ Hsp Hnul Hne Hrest).
  replace (S ENIXNEL_MAX_NAME_LEN - 1) with ENIXNEL_MAX_NAME_LEN by lia.
  cbn [fs_entries current_dir console].
  set (nm' := take ENIXNEL_MAX_NAME_LEN nm) in *.
  assert (Ascii.eqb (char_at nm' 0) NUL = false) as ->.
  { apply not_true_is_false. intros E.
    apply (char_at_0_NUL nm') in E; [|by apply NUL_not_in_take].
    subst nm'. destruct nm; [done|]. discriminate E. }
  set (full := path_join cur nm' [] (S ENIXNEL_MAX_NAME_LEN)) in *.
  unfold file_content in Hcontent.
  destruct (fs_read_file (Some full) t) as [rc [[d k]|]] eqn:Hread; [|done].
  injection Hcontent as <-.
  destruct (fs_read_file_view t full d k Hwf) as [Hrc Hk].
  { unfold file_content. by rewrite Hread. }
  { by rewrite Hread. }
  rewrite Hread in Hrc. injection Hrc as ->.
  change (negb (0 =? 0)%Z) with false.
  change (default ([], 0) (Some (d, k))) with (d, k). cbv beta iota.
  rewrite putc_loop_spec, (map_char_at_take d k Hk).
  unfold console_putc. by rewrite <- app_assoc.
Qed.

(** X25: what [efile] wrote, [sfile] shows.  On a well-shaped table with
    unique names, when [efile] with a text of fewer than 512 bytes and a file
    name prints nothing (it reports only failures), a following [sfile] with
    the same name prints the text and a newline, after the earlier content
    when the text was appended with [>>], provided content and text together
    stay below the capacity; [sfile] changes nothing else. *)
Theorem efile_then_sfile st a text b (ap : bool) c nm rest n rest' :
  fs_inv (fs_entries st) →
  NUL ∉ text → GT ∉ text → head text ≠ Some SPACE → last text ≠ Some SPACE →
  nm ≠ [] → NUL ∉ nm → SPACE ∉ nm →
  (ap = false → c = 0 → head nm ≠ Some GT) →
  (∀ ch r, rest = ch :: r → ch = SPACE ∨ ch = NUL) →
  (∀ ch r, rest' = ch :: r → ch = SPACE ∨ ch = NUL) →
  let full := path_join (current_dir st) (take ENIXNEL_MAX_NAME_LEN nm) []
                (S ENIXNEL_MAX_NAME_LEN) in
  let old := if ap then default [] (file_content full (fs_entries st)) else [] in
  length old + length text < ENIXNEL_MAX_FILE_SIZE →
  let st1 := cli_cmd_efile (efile_args a text b ap c nm rest) st in
  console st1 = console st →
  cli_cmd_sfile (replicate n SPACE ++ nm ++ rest') st1
  = mk_shell (fs_entries st1) (current_dir st)
      (console st ++ old ++ text ++ [NEWLINE]).
Proof.
  intros Hinv Htnul Htgt Hhd Hlast Hne Hnnul Hnsp Hgt Hrest Hrest' full old Hfit st1.
  assert (st1 = efile_outcome text ap nm st) as Hst1.
  { subst st1. unfold efile_args.
    destruct (efile_text_start a text b
                ((if ap then [GT] else []) ++ replicate c SPACE ++ nm ++ rest) Hhd)
      as [b' Hskip].
    by apply (cli_cmd_efile_text_start _ st text b' ap c nm rest). }
  rewrite Hst1. clear Hst1 st1. unfold efile_outcome. cbv zeta.
  assert (take (ENIXNEL_MAX_FILE_SIZE - 1) text = text) as ->
    by (apply take_ge; lia).
  fold full.
  set (apz := if ap then 1%Z else 0%Z).
  destruct (fs_write_file (Some full) (Some text) (length text) apz (fs_entries st))
    as [rc t'] eqn:Hw.
  cbn [fst snd console fs_entries current_dir]. intros Hquiet.
  assert (rc = 0%Z) as ->.
  { destruct (Z.eqb_spec rc 0) as [|_]; [done|].
    rewrite <- (app_nil_r (console st)) in Hquiet at 2.
    apply app_inv_head in Hquiet. by vm_compute in Hquiet. }
  change (0 =? 0)%Z with true. cbv iota.
  pose proof (file_content_after_write (fs_entries st) full text apz t'
                (proj1 Hinv) Hw) as Hcontent.
  cbv zeta in Hcontent.
  assert ((if (apz =? 0)%Z then [] else default [] (file_content full (fs_entries st)))
          = old) as Hold by (subst apz old; by destruct ap).
  rewrite Hold in Hcontent. specialize (Hcontent Hfit).
  assert (fs_wf t') as Hwf'.
  { pose proof (fs_write_file_inv (Some full) (Some text) (length text) apz
                  (fs_entries st) Hinv) as [H _].
    by rewrite Hw in H. }
  rewrite (cli_cmd_sfile_shows t' (current_dir st) (console st) n nm rest'
             (old ++ text) Hwf' Hnsp Hnnul Hne Hrest' Hcontent).
  by rewrite <- app_assoc.
Qed.

Lemma efile_then_sfile_witness :
  cli_cmd_sfile (lit "notes")
    (cli_cmd_efile (lit "remember the milk > notes") kernel_main_state)
  = mk_shell
      (fs_entries (cli_cmd_efile (lit "remember the milk > notes") kernel_main_state))
      (lit "user")
      (console kernel_main_state ++ lit "remember the milk" ++ [NEWLINE]).
Proof.
  apply (efile_then_sfile kernel_main_state 0 (lit "remember the milk") 1 false 1
           (lit "notes") [] 0 []).
  - apply reachable_inv, reachable_init.
  - apply (bool_decide_unpack _). by vm_compute.
  - apply (bool_decide_unpack _). by vm_compute.
  - by vm_compute.
  - by vm_compute.
  - by vm_compute.
  - apply (bool_decide_unpack _). by vm_compute.
  - apply (bool_decide_unpack _). by vm_compute.
  - intros _ E. discriminate E.
  - intros ch r E. discriminate E.
  - intros ch r E. discriminate E.
  - vm_compute. lia.
  - by vm_compute.
Defined.

(** ** The display *)

Lemma list_lookup_insert_fmap {A} (l : list A) i j x :
  <[i := x]> l !! j = if decide (i = j) then (λ _, x) <$> l !! j else l !! j.
Proof.
  destruct (decide (i = j)) as [->|Hne].
  - destruct (decide (j < length l)) as [Hlt|Hge].
    + rewrite list_lookup_insert_eq by done.
      destruct (lookup_lt_is_Some_2 l j Hlt) as [y ->]. done.
    + rewrite list_insert_ge by lia. rewrite (lookup_ge_None_2 l j) by lia. done.
  - by rewrite list_lookup_insert_ne.
Qed.

Lemma clear_row_length mem y : ∀ n x, length (Vga.clear_row mem y x n) = length mem.
Proof.
  intros n. revert mem. induction n as [|n IH]; intros mem x; simpl; [done|].
  by rewrite IH, length_insert.
Qed.

Lemma clear_row_lookup y : ∀ n mem x i,
  Vga.clear_row mem y x n !! i
  = if bool_decide (y * 80 + x ≤ i < y * 80 + x + n)
    then (λ _, blank_cell) <$> mem !! i else mem !! i.
Proof.
  induction n as [|n IH]; intros mem x i; cbn [Vga.clear_row].
  - case_bool_decide; [lia|done].
  - rewrite IH, list_lookup_insert_fmap. fold blank_cell.
    change Vga.VGA_WIDTH with 80.
    destruct (decide (y * 80 + x = i)) as [<-|Hne].
    + rewrite bool_decide_eq_false_2 by lia. by rewrite bool_decide_eq_true_2 by lia.
    + repeat case_bool_decide; try lia; done.
Qed.

Lemma clear_rows_length : ∀ n mem y, length (Vga.clear_rows mem y n) = length mem.
Proof.
  induction n as [|n IH]; intros mem y; cbn [Vga.clear_rows]; [done|].
  by rewrite IH, clear_row_length.
Qed.

Lemma clear_rows_lookup : ∀ n mem y i,
  Vga.clear_rows mem y n !! i
  = if bool_decide (y * 80 ≤ i < (y + n) * 80)
    then (λ _, blank_cell) <$> mem !! i else mem !! i.
Proof.
  induction n as [|n IH]; intros mem y i; cbn [Vga.clear_rows].
  - case_bool_decide; [lia|done].
  - rewrite IH, clear_row_lookup. change Vga.VGA_WIDTH with 80.
    repeat case_bool_decide; try lia; try done.
Qed.

(** X26: [console_clear] blanks the whole screen and homes the cursor:
    whatever the 2000 cells held, each of them holds a blank in the console
    colour afterwards, and the cursor is at row 0, column 0. *)
Theorem console_clear_spec s :
  length (Vga.VGA_MEMORY s) = Vga.VGA_HEIGHT * Vga.VGA_WIDTH →
  Vga.console_clear s
  = Vga.mk_screen (replicate (Vga.VGA_HEIGHT * Vga.VGA_WIDTH) blank_cell) 0 0.
Proof.
  intros Hlen. unfold Vga.console_clear. f_equal.
  change Vga.VGA_HEIGHT with 25 in *. change Vga.VGA_WIDTH with 80 in *.
  apply list_eq. intros i. rewrite clear_rows_lookup.
  destruct (decide (i < 25 * 80)) as [Hlt|Hge].
  - rewrite bool_decide_eq_true_2 by lia.
    rewrite lookup_replicate_2 by done.
    destruct (lookup_lt_is_Some_2 (Vga.VGA_MEMORY s) i) as [x ->]; [lia|done].
  - rewrite bool_decide_eq_false_2 by lia.
    rewrite lookup_ge_None_2 by lia.
    symmetry. apply lookup_ge_None_2. rewrite length_replicate. lia.
Qed.

Lemma console_clear_spec_witness :
  Vga.console_clear (Vga.mk_screen (replicate 2000 65%Z) 7 3)
  = Vga.mk_screen (replicate (Vga.VGA_HEIGHT * Vga.VGA_WIDTH) blank_cell) 0 0.
Proof.
  apply (console_clear_spec (Vga.mk_screen (replicate 2000 65%Z) 7 3)).
  by vm_compute.
Defined.

Lemma move_row_length y : ∀ n mem x, length (Vga.move_row mem y x n) = length mem.
Proof.
  induction n as [|n IH]; intros mem x; cbn [Vga.move_row]; [done|].
  by rewrite IH, length_insert.
Qed.

Lemma move_row_lookup y : ∀ n mem x i,
  1 ≤ y → x + n ≤ 80 → y * 80 + x + n ≤ length mem →
  Vga.move_row mem y x n !! i
  = if bool_decide ((y - 1) * 80 + x ≤ i < (y - 1) * 80 + x + n)
    then mem !! (i + 80) else mem !! i.
Proof.
  induction n as [|n IH]; intros mem x i Hy Hx Hlen; cbn [Vga.move_row].
  - case_bool_decide; [lia|done].
  - change Vga.VGA_WIDTH with 80.
    rewrite IH by (rewrite ?length_insert; lia).
    rewrite !list_lookup_insert_fmap.
    destruct (decide ((y - 1) * 80 + x = i)) as [<-|Hne].
    + rewrite bool_decide_eq_false_2 by lia.
      rewrite bool_decide_eq_true_2 by lia.
      replace ((y - 1) * 80 + x + 80) with (y * 80 + x) by lia.
      destruct (lookup_lt_is_Some_2 mem ((y - 1) * 80 + x)) as [v ->]; [lia|].
      destruct (lookup_lt_is_Some_2 mem (y * 80 + x)) as [v' Hv']; [lia|].
      cbn [fmap option_fmap option_map]. rewrite Hv'.
      by rewrite (list_lookup_total_correct _ _ _ Hv').
    + repeat case_bool_decide; try lia; try done.
      by destruct (decide ((y - 1) * 80 + x = i + 80)) as [|_]; [lia|].
Qed.

Lemma move_rows_length : ∀ n mem y,
  length (Vga.move_rows mem y n 80) = length mem.
Proof.
  induction n as [|n IH]; intros mem y; cbn [Vga.move_rows]; [done|].
  by rewrite IH, move_row_length.
Qed.

Lemma move_rows_lookup : ∀ n mem y i,
  1 ≤ y → (y + n) * 80 ≤ length mem →
  Vga.move_rows mem y n 80 !! i
  = if bool_decide ((y - 1) * 80 ≤ i < (y - 1 + n) * 80)
    then mem !! (i + 80) else mem !! i.
Proof.
  induction n as [|n IH]; intros mem y i Hy Hlen; cbn [Vga.move_rows].
  - case_bool_decide; [lia|done].
  - rewrite IH by (rewrite ?move_row_length; lia).
    rewrite !move_row_lookup by lia.
    replace (S y - 1) with y by lia.
    repeat case_bool_decide; try lia; done.
Qed.

(** X27: [console_scroll] moves the screen up by one row.  With the cursor
    on a row of the screen it does nothing.  With the cursor below the last
    row it drops the first row of the 2000 cells, appends a row of blanks,
    puts the cursor on the last row, and sends a column beyond the last one
    back to 0: the row-by-row copy in place loses no cell it still
    needs. *)
Theorem console_scroll_spec s :
  length (Vga.VGA_MEMORY s) = Vga.VGA_HEIGHT * Vga.VGA_WIDTH →
  (Vga.cursor_row s < Vga.VGA_HEIGHT → Vga.console_scroll s = s)
  ∧ (Vga.VGA_HEIGHT ≤ Vga.cursor_row s →
     Vga.console_scroll s
     = Vga.mk_screen
         (drop Vga.VGA_WIDTH (Vga.VGA_MEMORY s)
          ++ replicate Vga.VGA_WIDTH blank_cell)
         (Vga.VGA_HEIGHT - 1)
         (if Vga.VGA_WIDTH <=? Vga.cursor_col s then 0 else Vga.cursor_col s)).
Proof.
  intros Hlen. unfold Vga.console_scroll.
  change Vga.VGA_HEIGHT with 25 in *. change Vga.VGA_WIDTH with 80 in *.
  split; intros Hrow.
  - by destruct (Nat.ltb_spec (Vga.cursor_row s) 25) as [_|]; [|lia].
  - destruct (Nat.ltb_spec (Vga.cursor_row s) 25) as [|_]; [lia|].
    cbv zeta. f_equal.
    apply list_eq. intros i.
    rewrite clear_row_lookup, move_rows_lookup by lia.
    replace (25 - 1) with 24 by lia. replace (1 - 1 + 24) with 24 by lia.
    destruct (decide (i < 24 * 80)) as [Hlt|Hge].
    + rewrite bool_decide_eq_false_2 by lia.
      rewrite bool_decide_eq_true_2 by lia.
      rewrite lookup_app_l by (rewrite length_drop; lia).
      rewrite lookup_drop. f_equal. lia.
    + rewrite (bool_decide_eq_false_2 (_ ≤ i < 24 * 80)) by lia.
      rewrite lookup_app_r by (rewrite length_drop; lia).
      rewrite length_drop, Hlen.
      destruct (decide (i < 25 * 80)) as [Hlt|Hge'].
      * rewrite bool_decide_eq_true_2 by lia.
        rewrite lookup_replicate_2 by lia.
        destruct (lookup_lt_is_Some_2 (Vga.VGA_MEMORY s) i) as [x ->]; [lia|done].
      * rewrite bool_decide_eq_false_2 by lia.
        rewrite lookup_ge_None_2 by lia.
        symmetry. apply lookup_ge_None_2. rewrite length_replicate. lia.
Qed.

Lemma console_scroll_spec_witness :
  Vga.console_scroll (Vga.mk_screen (replicate 2000 65%Z) 25 80)
  = Vga.mk_screen
      (drop Vga.VGA_WIDTH (replicate 2000 65%Z) ++ replicate Vga.VGA_WIDTH blank_cell)
      (Vga.VGA_HEIGHT - 1) 0.
Proof.
  assert (length (Vga.VGA_MEMORY (Vga.mk_screen (replicate 2000 65%Z) 25 80))
          = Vga.VGA_HEIGHT * Vga.VGA_WIDTH) as Hlen by (by vm_compute).
  assert (Vga.VGA_HEIGHT ≤ Vga.cursor_row (Vga.mk_screen (replicate 2000 65%Z) 25 80))
    as Hrow by (vm_compute; lia).
  exact (proj2 (console_scroll_spec _ Hlen) Hrow).
Defined.

Lemma console_scroll_ok s :
  length (Vga.VGA_MEMORY s) = Vga.VGA_HEIGHT * Vga.VGA_WIDTH →
  Vga.cursor_row s ≤ Vga.VGA_HEIGHT → Vga.cursor_col s < Vga.VGA_WIDTH →
  screen_ok (if Vga.VGA_HEIGHT <=? Vga.cursor_row s then Vga.console_scroll s else s).
Proof.
  intros Hlen Hrow Hcol. unfold screen_ok, Vga.console_scroll.
  change Vga.VGA_HEIGHT with 25 in *. change Vga.VGA_WIDTH with 80 in *.
  destruct (Nat.leb_spec 25 (Vga.cursor_row s)) as [Hge|Hlt]; [|lia].
  destruct (Nat.ltb_spec (Vga.cursor_row s) 25) as [|_]; [lia|].
  cbn [Vga.VGA_MEMORY Vga.cursor_row Vga.cursor_col].
  rewrite clear_row_length, move_rows_length.
  destruct (Nat.leb_spec 80 (Vga.cursor_col s)); lia.
Qed.

Lemma console_putc_ok c s : screen_ok s → screen_ok (Vga.console_putc c s).
Proof.
  intros (Hlen & Hrow & Hcol). unfold Vga.console_putc. cbv zeta.
  apply console_scroll_ok.
  - destruct (Ascii.eqb c NEWLINE); [done|].
    destruct (_ <=? _); cbn [Vga.VGA_MEMORY]; by rewrite length_insert.
  - change Vga.VGA_HEIGHT with 25 in *. change Vga.VGA_WIDTH with 80 in *.
    destruct (Ascii.eqb c NEWLINE); [cbn [Vga.cursor_row]; lia|].
    destruct (_ <=? _); cbn [Vga.cursor_row]; lia.
  - change Vga.VGA_HEIGHT with 25 in *. change Vga.VGA_WIDTH with 80 in *.
    destruct (Ascii.eqb c NEWLINE); [cbn [Vga.cursor_col]; lia|].
    destruct (Nat.leb_spec 80 (S (Vga.cursor_col s))); cbn [Vga.cursor_col]; lia.
Qed.

Lemma console_backspace_ok s : screen_ok s → screen_ok (Vga.console_backspace s).
Proof.
  intros (Hlen & Hrow & Hcol). unfold Vga.console_backspace, screen_ok.
  change Vga.VGA_HEIGHT with 25 in *. change Vga.VGA_WIDTH with 80 in *.
  destruct (Nat.eqb_spec (Vga.cursor_col s) 0) as [Hc|Hc];
    destruct (Nat.eqb_spec (Vga.cursor_row s) 0) as [Hr|Hr];
    cbn [andb]; [done|..];
    destruct (Nat.ltb_spec 0 (Vga.cursor_col s));
    cbn [Vga.VGA_MEMORY Vga.cursor_row Vga.cursor_col];
    rewrite length_insert; lia.
Qed.

Lemma console_write_ok : ∀ str s, screen_ok s → screen_ok (Vga.console_write str s).
Proof.
  induction str as [|c str IH]; intros s Hs; cbn [Vga.console_write]; [done|].
  destruct (Ascii.eqb c NUL); [done|]. by apply IH, console_putc_ok.
Qed.

(** X28: the console stays on the screen.  [console_clear] puts the cursor
    on a cell of the 80 x 25 screen, and [console_putc], [console_backspace],
    [console_write] and [console_write_line] keep it there and keep the
    2000 cells: the index [cursor_row * VGA_WIDTH + cursor_col] they write at
    is always below 2000. *)
Theorem console_keeps_screen s :
  length (Vga.VGA_MEMORY s) = Vga.VGA_HEIGHT * Vga.VGA_WIDTH →
  screen_ok (Vga.console_clear s)
  ∧ (screen_ok s →
     Vga.cursor_row s * Vga.VGA_WIDTH + Vga.cursor_col s < length (Vga.VGA_MEMORY s)
     ∧ (∀ c, screen_ok (Vga.console_putc c s))
     ∧ screen_ok (Vga.console_backspace s)
     ∧ (∀ str, screen_ok (Vga.console_write str s))
     ∧ (∀ str, screen_ok (Vga.console_write_line str s))).
Proof.
  intros Hlen. split.
  - unfold screen_ok, Vga.console_clear. cbn [Vga.VGA_MEMORY Vga.cursor_row Vga.cursor_col].
    rewrite clear_rows_length.
    change Vga.VGA_HEIGHT with 25 in *. change Vga.VGA_WIDTH with 80 in *. lia.
  - intros Hs. split_and!.
    + destruct Hs as (Hl & Hr & Hc).
      change Vga.VGA_HEIGHT with 25 in *. change Vga.VGA_WIDTH with 80 in *. lia.
    + intros c. by apply console_putc_ok.
    + by apply console_backspace_ok.
    + intros str. by apply console_write_ok.
    + intros str. by apply console_putc_ok, console_write_ok.
Qed.

Lemma console_keeps_screen_witness :
  screen_ok (Vga.console_clear (Vga.mk_screen (replicate 2000 65%Z) 30 90)).
Proof.
  assert (length (Vga.VGA_MEMORY (Vga.mk_screen (replicate 2000 65%Z) 30 90))
          = Vga.VGA_HEIGHT * Vga.VGA_WIDTH) as Hlen by (by vm_compute).
  exact (proj1 (console_keeps_screen _ Hlen)).
Defined.

Lemma vga_entry_low_byte c :
  Z.land (Vga.vga_entry c Vga.console_color) 255 = Z.of_N (N_of_ascii c).
Proof.
  destruct c as [[] [] [] [] [] [] [] []]; by vm_compute.
Qed.

(** X29: a character put on the screen and taken back.  With the cursor on
    a cell other than the last one of the screen, [console_putc] of a
    character other than the newline writes the cell under the cursor, whose
    low byte is then the character, and [console_backspace] after it puts
    the cursor back where it was and leaves a blank in that cell; no other
    cell changes. *)
Theorem console_putc_backspace c s :
  screen_ok s → c ≠ NEWLINE →
  ¬ (Vga.cursor_row s = Vga.VGA_HEIGHT - 1 ∧ Vga.cursor_col s = Vga.VGA_WIDTH - 1) →
  let idx := Vga.cursor_row s * Vga.VGA_WIDTH + Vga.cursor_col s in
  Vga.VGA_MEMORY (Vga.console_putc c s)
  = <[idx := Vga.vga_entry c Vga.console_color]> (Vga.VGA_MEMORY s)
  ∧ Z.land (Vga.vga_entry c Vga.console_color) 255 = Z.of_N (N_of_ascii c)
  ∧ Vga.console_backspace (Vga.console_putc c s)
    = Vga.mk_screen (<[idx := blank_cell]> (Vga.VGA_MEMORY s))
        (Vga.cursor_row s) (Vga.cursor_col s).
Proof.
  intros (Hlen & Hrow & Hcol) Hc Hlast idx. subst idx.
  split; [|split; [apply vga_entry_low_byte|]];
    unfold Vga.console_putc, Vga.console_backspace; cbv zeta;
    change Vga.VGA_HEIGHT with 25 in *; change Vga.VGA_WIDTH with 80 in *;
    (destruct (Ascii.eqb_spec c NEWLINE) as [|_]; [done|]);
    destruct (Nat.leb_spec 80 (S (Vga.cursor_col s))) as [Hwrap|Hstay];
    cbn [Vga.VGA_MEMORY Vga.cursor_row Vga.cursor_col].
  - by destruct (Nat.leb_spec 25 (S (Vga.cursor_row s))) as [|_]; [lia|].
  - by destruct (Nat.leb_spec 25 (Vga.cursor_row s)) as [|_]; [lia|].
  - destruct (Nat.leb_spec 25 (S (Vga.cursor_row s))) as [|_]; [lia|].
    cbn [Vga.VGA_MEMORY Vga.cursor_row Vga.cursor_col Nat.eqb andb Nat.ltb Nat.leb].
    replace (S (Vga.cursor_row s) - 1) with (Vga.cursor_row s) by lia.
    replace (80 - 1) with (Vga.cursor_col s) by lia.
    by rewrite list_insert_insert_eq.
  - destruct (Nat.leb_spec 25 (Vga.cursor_row s)) as [|_]; [lia|].
    cbn [Vga.VGA_MEMORY Vga.cursor_row Vga.cursor_col Nat.eqb andb Nat.ltb Nat.leb].
    replace (S (Vga.cursor_col s) - 1) with (Vga.cursor_col s) by lia.
    by rewrite list_insert_insert_eq.
Qed.

Lemma console_putc_backspace_witness :
  Vga.console_backspace
    (Vga.console_putc "a" (Vga.mk_screen (replicate 2000 blank_cell) 3 79))
  = Vga.mk_screen (<[3 * Vga.VGA_WIDTH + 79 := blank_cell]> (replicate 2000 blank_cell))
      3 79.
Proof.
  assert (screen_ok (Vga.mk_screen (replicate 2000 blank_cell) 3 79)) as Hok
    by (split_and!; vm_compute; lia).
  assert ("a"%char ≠ NEWLINE) as Hc by (intros E; discriminate E).
  assert (¬ (Vga.cursor_row (Vga.mk_screen (replicate 2000 blank_cell) 3 79)
             = Vga.VGA_HEIGHT - 1
             ∧ Vga.cursor_col (Vga.mk_screen (replicate 2000 blank_cell) 3 79)
               = Vga.VGA_WIDTH - 1)) as Hlast
    by (intros [E _]; vm_compute in E; lia).
  exact (proj2 (proj2 (console_putc_backspace "a" _ Hok Hc Hlast))).
Defined.

(** ** The keyboard *)

Lemma printable_not_NUL c : printable c → c ≠ NUL.
Proof. intros H ->. unfold printable in H. vm_compute in H. by destruct H as [H _]. Qed.

Lemma scancode_to_char_cases sc shift :
  let c := Vga.scancode_to_char sc shift in
  c = NUL ∨ c = NEWLINE ∨ c = Vga.BACKSPACE ∨ printable c.
Proof.
  unfold Vga.scancode_to_char.
  repeat lazymatch goal with
  | |- context [Z.eqb sc ?n] =>
      destruct (Z.eqb sc n);
      [ cbv zeta;
        first [ by (right; left) | by (right; right; left)
              | right; right; right; destruct shift;
                apply (bool_decide_unpack _); by vm_compute ] | ]
  end.
  by left.
Qed.

Lemma read_char_loop_some : ∀ ps shift c k',
  Vga.read_char_loop shift ps = Some (c, k') →
  (c = NEWLINE ∨ c = Vga.BACKSPACE ∨ printable c)
  ∧ length (Vga.polls k') < length ps.
Proof.
  induction ps as [|p ps IH]; intros shift c k' H; cbn [Vga.read_char_loop] in H;
    [done|].
  assert (∀ sh, Vga.read_char_loop sh ps = Some (c, k') →
                (c = NEWLINE ∨ c = Vga.BACKSPACE ∨ printable c)
                ∧ length (Vga.polls k') < length (p :: ps)) as Hrec.
  { intros sh Hsh. destruct (IH sh c k' Hsh) as [H1 H2]. split; [done|]. simpl. lia. }
  destruct (negb (Z.land (Vga.status p) 1 =? 0)%Z); [|by eapply Hrec].
  cbv zeta in H.
  destruct (_ || _); [by eapply Hrec|].
  destruct (_ || _); [by eapply Hrec|].
  destruct (negb (Z.land (Vga.scancode p) 128 =? 0)%Z); [by eapply Hrec|].
  destruct (Ascii.eqb_spec (Vga.scancode_to_char (Vga.scancode p) shift) NUL)
    as [|Hne]; cbn [negb] in H; [by eapply Hrec|].
  injection H as <- <-. split; [|simpl; lia].
  by destruct (scancode_to_char_cases (Vga.scancode p) shift) as [?|?].
Qed.

Lemma read_char_loop_enter : ∀ ps shift,
  Exists enter_press ps →
  ∃ c k', Vga.read_char_loop shift ps = Some (c, k')
          ∧ (c = NEWLINE ∨ Exists enter_press (Vga.polls k')).
Proof.
  induction ps as [|p ps IH]; intros shift Hex; [by apply Exists_nil in Hex|].
  cbn [Vga.read_char_loop].
  apply Exists_cons in Hex as [[Hst Hsc]|Hex].
  - destruct (Z.eqb_spec (Z.land (Vga.status p) 1) 0) as [|_]; [done|].
    cbn [negb]. cbv zeta. rewrite Hsc.
    exists NEWLINE, (Vga.mk_keyboard shift ps). split; [|by left].
    by destruct shift.
  - assert (∀ sh, ∃ c k', Vga.read_char_loop sh ps = Some (c, k')
                          ∧ (c = NEWLINE ∨ Exists enter_press (Vga.polls k')))
      as Hrec by (intros sh; by apply IH).
    destruct (negb (Z.land (Vga.status p) 1 =? 0)%Z); [|apply Hrec].
    cbv zeta.
    destruct (_ || _); [apply Hrec|].
    destruct (_ || _); [apply Hrec|].
    destruct (negb (Z.land (Vga.scancode p) 128 =? 0)%Z); [apply Hrec|].
    destruct (negb _); [|apply Hrec].
    eexists _, _. split; [done|]. by right.
Qed.

Lemma read_line_loop_safe buflen : ∀ n buffer len k s buffer' k' s',
  len < buflen → length buffer = buflen →
  Forall printable (take len buffer) → screen_ok s →
  Vga.read_line_loop n buffer buflen len k s = Some (buffer', k', s') →
  length buffer' = buflen
  ∧ cstr buffer' = take (length (cstr buffer')) buffer'
  ∧ length (cstr buffer') < buflen
  ∧ Forall printable (cstr buffer')
  ∧ screen_ok s'.
Proof.
  induction n as [|n IH]; intros buffer len k s buffer' k' s' Hlen Hbuf Hpr Hs H;
    cbn [Vga.read_line_loop] in H; [done|].
  destruct (Vga.keyboard_read_char k) as [[c k1]|]; [|done].
  destruct (Ascii.eqb c NEWLINE).
  { injection H as <- <- <-.
    assert (cstr (<[len := NUL]> buffer) = take len buffer) as Hline.
    { rewrite insert_take_drop by lia. apply cstr_app_NUL.
      intros Hin. apply (Forall_forall printable (take len buffer)) in Hin; [|done].
      by apply printable_not_NUL in Hin. }
    rewrite Hline, length_insert, length_take.
    replace (len `min` length buffer) with len by lia.
    split_and!; try done.
    - rewrite insert_take_drop by lia. rewrite take_app_length'; [done|].
      rewrite length_take. lia.
    - by apply console_putc_ok. }
  destruct (Ascii.eqb c Vga.BACKSPACE).
  { destruct (Nat.ltb_spec 0 len).
    - apply (IH buffer (len - 1) k1 (Vga.console_backspace s) buffer' k' s'); try done; [lia| |].
      + replace (take (len - 1) buffer) with (take (len - 1) (take len buffer))
          by (rewrite take_take; f_equal; lia).
        by apply Forall_take.
      + by apply console_backspace_ok.
    - by apply (IH buffer len k1 s buffer' k' s'). }
  destruct (Nat.ltb_spec (len + 1) buflen) as [Hroom|]; cbn [andb] in H;
    [|by apply (IH buffer len k1 s buffer' k' s')].
  destruct (Z.leb_spec 32 (Vga.char_value c)) as [Hlo|]; cbn [andb] in H;
    [|by apply (IH buffer len k1 s buffer' k' s')].
  destruct (Z.ltb_spec (Vga.char_value c) 127) as [Hhi|];
    [|by apply (IH buffer len k1 s buffer' k' s')].
  apply (IH (<[len := c]> buffer) (S len) k1 (Vga.console_putc c s) buffer' k' s');
    try done; [lia|by rewrite length_insert| |by apply console_putc_ok].
  rewrite insert_take_drop by lia.
  replace (take (S len) (take len buffer ++ c :: drop (S len) buffer))
    with (take len buffer ++ [c]).
  - apply Forall_app. split; [done|]. apply Forall_singleton. by split.
  - change (c :: drop (S len) buffer) with ([c] ++ drop (S len) buffer).
    rewrite app_assoc. symmetry. apply take_app_length'.
    rewrite length_app, length_take. simpl. lia.
Qed.

Lemma read_line_loop_returns buflen : ∀ n buffer len k s,
  length (Vga.polls k) ≤ n → Exists enter_press (Vga.polls k) →
  is_Some (Vga.read_line_loop n buffer buflen len k s).
Proof.
  induction n as [|n IH]; intros buffer len k s Hn Hex.
  - destruct (Vga.polls k); [by apply Exists_nil in Hex|simpl in Hn; lia].
  - cbn [Vga.read_line_loop]. unfold Vga.keyboard_read_char.
    destruct (read_char_loop_enter (Vga.polls k) (Vga.shift_down k) Hex)
      as (c & k1 & Hread & Hc).
    rewrite Hread.
    destruct (read_char_loop_some _ _ _ _ Hread) as [_ Hshort].
    destruct (Ascii.eqb_spec c NEWLINE) as [|Hne]; [done|].
    destruct Hc as [|Hex1]; [done|].
    assert (length (Vga.polls k1) ≤ n) as Hn1 by lia.
    destruct (Ascii.eqb c Vga.BACKSPACE).
    + destruct (0 <? len); by apply IH.
    + destruct (_ && _); by apply IH.
Qed.

(** X30: what [console_read_line] hands to the shell.  With a buffer of
    [buflen > 0] characters and the cursor on the screen: if Enter is
    pressed at some turn of the keyboard, the call returns; and when it
    returns, the buffer still has [buflen] characters and holds a string
    shorter than [buflen], terminator inside the buffer, made of characters
    from 32 to 126 only, and the cursor is still on the screen. *)
Theorem console_read_line_spec buffer buflen k s :
  0 < buflen → length buffer = buflen → screen_ok s →
  (Exists enter_press (Vga.polls k) →
   is_Some (Vga.console_read_line buffer buflen k s))
  ∧ (∀ buffer' k' s',
       Vga.console_read_line buffer buflen k s = Some (buffer', k', s') →
       length buffer' = buflen
       ∧ length (cstr buffer') < buflen
       ∧ Forall printable (cstr buffer')
       ∧ screen_ok s').
Proof.
  intros Hpos Hbuf Hs. unfold Vga.console_read_line.
  destruct (Nat.eqb_spec buflen 0) as [|_]; [lia|]. split.
  - intros Hex. by apply read_line_loop_returns.
  - intros buffer' k' s' H.
    destruct (read_line_loop_safe buflen (length (Vga.polls k)) buffer 0 k s
                buffer' k' s') as (H1 & _ & H2 & H3 & H4); done.
Qed.

Lemma console_read_line_spec_witness :
  is_Some
    (Vga.console_read_line (replicate 8 "x"%char) 8
       (Vga.mk_keyboard false
          [Vga.mk_poll 0 0; Vga.mk_poll 1 0x23; Vga.mk_poll 1 0xA3;
           Vga.mk_poll 1 0x17; Vga.mk_poll 1 0x1C])
       (Vga.mk_screen (replicate 2000 blank_cell) 0 0)).
Proof.
  assert (0 < 8) as Hpos by lia.
  assert (length (replicate 8 "x"%char) = 8) as Hbuf by done.
  assert (screen_ok (Vga.mk_screen (replicate 2000 blank_cell) 0 0)) as Hok
    by (split_and!; vm_compute; lia).
  refine (proj1 (console_read_line_spec _ 8 _ _ Hpos Hbuf Hok) _).
  cbn [Vga.polls]. do 4 apply Exists_cons_tl. apply Exists_cons_hd.
  split; [by vm_compute|done].
Defined.
